(** * repo-vista: the language-percentage redistribution engine

    A shallow embedding of the helpers that keep a language breakdown at
    a total of 100%: [normalizePercentages],
    [addLanguageWithRedistribution], [removeLanguageWithRedistribution]
    and [updateLanguagePercentage] of the language helper module, and
    [formatLanguageBreakdown] of [src/utils/github-api.js], together with
    the copy of the percentage edit that [GitHubPreviewGenerator.jsx]
    carries ([updateLanguage]).

    JavaScript numbers are IEEE 754 binary64 values; they are modelled by
    the bit-level specification [spec_float] of the Standard Library,
    instantiated at precision 53 and maximal exponent 1024, so that
    [66.5], [NaN] and [Infinity] are what they are in the program.
    Language entries are JavaScript objects that the helpers share and
    mutate, so every function threads an explicit object store: an array
    is a list of addresses into the store.

    Beside the helpers the file embeds the handlers of the Add and
    Remove buttons of the component ([addLanguage], [removeLanguage]),
    the two parsers of repository URLs ([extractRepoInfoFromUrl] of the
    helper module and [parseGitHubUrl] of [src/utils/github-api.js]) with
    the lines of the component that consume their result, and the
    component's [validateAndProcessAvatarUrl].

    The file has three parts: the embedding; the arithmetic of integers
    inside binary64 (sums, differences and comparisons of integers below
    [2^53] are exact); and the properties of the helpers, of the
    handlers and of the parsers. *)

From Stdlib Require Import String Ascii ZArith List Bool Lia SpecFloat.
From Stdlib Require Import Permutation Sorted.
Import ListNotations.
Local Open Scope Z_scope.

(* ================================================================= *)
(** ** JavaScript numbers *)

Module JS.

Definition number := spec_float.

Definition prec : Z := 53.
Definition emax : Z := 1024.

(** The Number nearest to the integer [z] (exact when [|z| <= 2^53]). *)
Definition of_Z (z : Z) : number := binary_normalize prec emax z 0 false.

Definition NaN : number := S754_nan.

Definition add : number -> number -> number := SFadd prec emax.
Definition sub : number -> number -> number := SFsub prec emax.
Definition mul : number -> number -> number := SFmul prec emax.
Definition div : number -> number -> number := SFdiv prec emax.

(** [x === y] and [x > y] on Numbers. *)
Definition strict_eq (x y : number) : bool := SFeqb x y.
Definition gt (x y : number) : bool := SFltb y x.
Definition ge (x y : number) : bool := SFleb y x.

(** [Math.round]: the integer nearest to [x], ties towards +infinity;
    that is [floor (x + 1/2)] computed exactly.  A finite [x] is
    [(-1)^s * m * 2^e]; when [e >= 0] it is already integral.  A result
    of zero keeps the sign of [x] (so [Math.round(-0.2)] is [-0]). *)
Definition Math_round (x : number) : number :=
  match x with
  | S754_finite s m e =>
      if 0 <=? e then x
      else
        let v := cond_Zopp s (Zpos m) in
        let r := (2 * v + 2 ^ (- e)) / 2 ^ (1 - e) in
        if r =? 0 then S754_zero s else of_Z r
  | _ => x
  end.

(** [Math.max] of two arguments: NaN if either is NaN, and [+0] is
    larger than [-0]. *)
Definition Math_max (x y : number) : number :=
  match SFcompare x y with
  | None => NaN
  | Some Lt => y
  | Some Gt => x
  | Some Eq => match x with S754_zero true => y | _ => x end
  end.

(** [Math.min] of two arguments: NaN if either is NaN, and [-0] is
    smaller than [+0]. *)
Definition Math_min (x y : number) : number :=
  match SFcompare x y with
  | None => NaN
  | Some Lt => x
  | Some Gt => y
  | Some Eq => match x with S754_zero false => y | _ => x end
  end.

End JS.

Import JS.

Declare Scope js_scope.
Delimit Scope js_scope with js.
Infix "+" := JS.add : js_scope.
Infix "-" := JS.sub : js_scope.
Infix "*" := JS.mul : js_scope.
Infix "/" := JS.div : js_scope.
Infix "===" := JS.strict_eq (at level 70, no associativity) : js_scope.
Infix ">" := JS.gt : js_scope.
Notation "# z" := (JS.of_Z z) (at level 5, z at level 0, format "# z") : js_scope.

(* ================================================================= *)
(** ** Language entries and the object store *)

(** One language of the breakdown: [{ name, percentage, color }]. *)
Record LanguageEntry : Type := mkEntry {
  name : string;
  percentage : number;
  color : string
}.

(** [{ ...lang, percentage: p }] *)
Definition with_percentage (lang : LanguageEntry) (p : number) : LanguageEntry :=
  {| name := name lang; percentage := p; color := color lang |}.

(** Objects live in a store and are named by their address; an array of
    entries is a list of addresses.  Two arrays that hold the same address
    share the object, as [[...languages]] does with [languages]. *)
Definition ref := nat.
Definition heap := list LanguageEntry.
Definition array := list ref.

Definition no_object : LanguageEntry :=
  {| name := EmptyString; percentage := NaN; color := EmptyString |}.

Definition deref (h : heap) (r : ref) : LanguageEntry := nth r h no_object.

Definition pct (h : heap) (r : ref) : number := percentage (deref h r).

Fixpoint update_at {A : Type} (f : A -> A) (n : nat) (l : list A) : list A :=
  match l, n with
  | [], _ => []
  | x :: l', O => f x :: l'
  | x :: l', S n' => x :: update_at f n' l'
  end.

(** [r.percentage = p] *)
Definition set_percentage (h : heap) (r : ref) (p : number) : heap :=
  update_at (fun lang => with_percentage lang p) r h.

(** A fresh object. *)
Definition alloc (h : heap) (lang : LanguageEntry) : heap * ref :=
  (h ++ [lang], length h).

(** [languages.map(lang => ({ ...lang, percentage: f lang.percentage }))]:
    every element of the result is a fresh object. *)
Fixpoint map_fresh (f : number -> number) (h : heap) (languages : array)
  : heap * array :=
  match languages with
  | [] => (h, [])
  | r :: rest =>
      let '(h1, r') := alloc h (with_percentage (deref h r) (f (pct h r))) in
      let '(h2, rest') := map_fresh f h1 rest in
      (h2, r' :: rest')
  end.

(** [languages.filter((_, i) => i !== index)] *)
Fixpoint filter_index {A : Type} (index : Z) (i : Z) (l : list A) : list A :=
  match l with
  | [] => []
  | x :: l' =>
      if i =? index then filter_index index (i + 1) l'
      else x :: filter_index index (i + 1) l'
  end.

(** [languages.reduce((sum, lang) => sum + lang.percentage, 0)] *)
Definition total_percentage (h : heap) (languages : array) : number :=
  fold_left (fun sum lang => (sum + pct h lang)%js) languages (#0)%js.

(** [xs.map((x, i) => (i, x))], counting from [i]. *)
Fixpoint indexed {A : Type} (i : Z) (l : list A) : list (Z * A) :=
  match l with
  | [] => []
  | x :: l' => (i, x) :: indexed (i + 1) l'
  end.

(* ================================================================= *)
(** ** normalizePercentages *)

(** The search for the entry to adjust:
    [.map((lang, i) => ({ index: i, percentage: lang.percentage }))
     .reduce((max, curr) => curr.percentage > max.percentage ? curr : max,
             { index: -1, percentage: 0 }).index] *)
Definition largest_index (ps : list number) : Z :=
  fst (fold_left
         (fun max curr => if (snd curr > snd max)%js then curr else max)
         (indexed 0 ps) (-1, (#0)%js)).

Definition normalizePercentages (h : heap) (languages : array) : heap * array :=
  match languages with
  | [] => (h, [])
  | _ :: _ =>
      let total := total_percentage h languages in
      if (total === #100)%js then (h, languages)
      else
        let largestIndex := largest_index (map (pct h) languages) in
        let result := languages in
        if 0 <=? largestIndex then
          let r := nth (Z.to_nat largestIndex) result O in
          (set_percentage h r (pct h r + (#100 - total))%js, result)
        else (h, result)
  end.

(* ================================================================= *)
(** ** addLanguageWithRedistribution *)

(** [newPercentage] is [None] when the caller omits the argument; the
    default parameter value is 5. *)
Definition addLanguageWithRedistribution
    (h : heap) (languages : array) (newLanguage : LanguageEntry)
    (newPercentage : option number) : heap * array :=
  let newPercentage := match newPercentage with Some p => p | None => (#5)%js end in
  match languages with
  | [] =>
      let '(h1, r) := alloc h (with_percentage newLanguage (#100)%js) in
      (h1, [r])
  | _ :: _ =>
      let remaining := (#100 - newPercentage)%js in
      let '(h1, updated) :=
        map_fresh (fun p => Math_round ((p / #100) * remaining)%js) h languages in
      let '(h2, r) := alloc h1 (with_percentage newLanguage newPercentage) in
      let result := updated ++ [r] in
      normalizePercentages h2 result
  end.

(* ================================================================= *)
(** ** removeLanguageWithRedistribution *)

Definition len {A : Type} (l : list A) : Z := Z.of_nat (length l).

Definition removeLanguageWithRedistribution
    (h : heap) (languages : array) (indexToRemove : Z) : heap * array :=
  if (len languages <=? 1) || (indexToRemove <? 0)
     || (len languages <=? indexToRemove)
  then (h, languages)
  else
    let removedPercentage := pct h (nth (Z.to_nat indexToRemove) languages O) in
    let remaining := filter_index indexToRemove 0 languages in
    let total := total_percentage h remaining in
    let '(h1, updated) :=
      map_fresh (fun p => Math_round (p + (p / total) * removedPercentage)%js)
                h remaining in
    normalizePercentages h1 updated.

(* ================================================================= *)
(** ** updateLanguagePercentage *)

(** The value typed by the user: a Number holding an integer, or a string
    (the value of an input element). *)
Inductive raw : Type :=
  | RawNumber (z : Z)
  | RawString (s : string).

Definition is_white_space (c : ascii) : bool :=
  match nat_of_ascii c with
  | 9%nat | 10%nat | 11%nat | 12%nat | 13%nat | 32%nat => true
  | _ => false
  end.

Fixpoint trim_start (s : string) : string :=
  match s with
  | String c s' => if is_white_space c then trim_start s' else s
  | EmptyString => s
  end.

(** The value of [c] as a digit, for radices up to 36. *)
Definition digit_value (c : ascii) : option Z :=
  let n := Z.of_nat (nat_of_ascii c) in
  if (48 <=? n) && (n <=? 57) then Some (n - 48)
  else if (97 <=? n) && (n <=? 122) then Some (n - 87)
  else if (65 <=? n) && (n <=? 90) then Some (n - 55)
  else None.

(** The integer written by the longest prefix of radix-[radix] digits;
    [acc] is [None] until a digit has been read. *)
Fixpoint parse_digits (radix : Z) (s : string) (acc : option Z) : option Z :=
  match s with
  | String c s' =>
      match digit_value c with
      | Some d =>
          if d <? radix
          then parse_digits radix s'
                 (Some (radix * match acc with Some a => a | None => 0 end + d))
          else acc
      | None => acc
      end
  | EmptyString => acc
  end.

(** [parseInt(s)] without a radix argument, [None] standing for NaN:
    leading white space is skipped, a sign is read, a [0x] or [0X] prefix
    selects radix 16, and the longest prefix of digits is the result. *)
Definition parseInt_string (s : string) : option Z :=
  let s := trim_start s in
  let '(negative, s) :=
    match s with
    | String "-" s' => (true, s')
    | String "+" s' => (false, s')
    | _ => (false, s)
    end in
  let '(radix, s) :=
    match s with
    | String "0" (String "x" s') => (16, s')
    | String "0" (String "X" s') => (16, s')
    | _ => (10, s)
    end in
  match parse_digits radix s None with
  | Some n => Some (if negative then - n else n)
  | None => None
  end.

(** [parseInt] first converts its argument to a string; the string of a
    Number holding an integer is its decimal numeral, which reads back as
    the same integer.  [None] stands for NaN. *)
Definition parseInt_integer (v : raw) : option Z :=
  match v with
  | RawNumber z => Some z
  | RawString s => parseInt_string s
  end.

(** The Number that [parseInt] returns: the one nearest to the integer
    read.  (For the string ["-0"] the result is [-0], which [|| 0] below
    treats like [0].) *)
Definition parseInt (v : raw) : number :=
  match parseInt_integer v with
  | Some z => (#z)%js
  | None => NaN
  end.

(** [x || 0] on a Number: NaN, [0] and [-0] are falsy. *)
Definition or_zero (x : number) : number :=
  match x with
  | S754_nan | S754_zero _ => (#0)%js
  | _ => x
  end.

(** [Math.min(Math.max(parseInt(newPercentage) || 0, 1), 99)] *)
Definition validate (newPercentage : raw) : number :=
  Math_min (Math_max (or_zero (parseInt newPercentage)) (#1)%js) (#99)%js.

(** The body of the [for] loop at index [i]. *)
Definition rescale_step (index : Z) (factor : number) (result : array)
    (h : heap) (i : Z) : heap :=
  if i =? index then h
  else
    let r := nth (Z.to_nat i) result O in
    set_percentage h r (Math_max (#1)%js (Math_round (pct h r * factor)%js)).

Definition indices {A : Type} (l : list A) : list Z :=
  map Z.of_nat (seq 0 (length l)).

Definition updateLanguagePercentage
    (h : heap) (languages : array) (index : Z) (newPercentage : raw)
  : heap * array :=
  if (len languages =? 0) || (index <? 0) || (len languages <=? index)
  then (h, languages)
  else
    let validatedPercentage := validate newPercentage in
    let target := nth (Z.to_nat index) languages O in
    let diff := (validatedPercentage - pct h target)%js in
    if (diff === #0)%js then (h, languages)
    else
      let result := languages in
      let h1 := set_percentage h target validatedPercentage in
      let others := filter_index index 0 languages in
      let othersTotal := total_percentage h1 others in
      let factor := ((othersTotal - diff) / othersTotal)%js in
      let h2 := fold_left (rescale_step index factor result) (indices result) h1 in
      normalizePercentages h2 result.

(* ================================================================= *)
(** ** updateLanguage, the copy of the rebalancing in the component

    [GitHubPreviewGenerator.jsx] carries its own version of the
    percentage edit, [updateLanguage(index, 'percentage', value)]; it
    differs from [updateLanguagePercentage] in the closing correction,
    which looks for the largest percentage "besides the one being
    edited". *)

(** [updated.map((lang, i) => i !== index
       ? { index: i, percentage: lang.percentage }
       : { index: -1, percentage: 0 }).reduce(...).index] *)
Definition largest_index_besides (index : Z) (ps : list number) : Z :=
  fst (fold_left
         (fun max curr => if (snd curr > snd max)%js then curr else max)
         (map (fun ip => if fst ip =? index then (-1, (#0)%js) else ip)
              (indexed 0 ps))
         (-1, (#0)%js)).

(** The body of the component's [for] loop at index [i]. *)
Definition component_step (index : Z) (newValue factor : number)
    (updated : array) (h : heap) (i : Z) : heap :=
  let r := nth (Z.to_nat i) updated O in
  if i =? index then set_percentage h r newValue
  else set_percentage h r (Math_max (#1)%js (Math_round (pct h r * factor)%js)).

(** The array handed to [setLanguageBreakdown]. *)
Definition updateLanguage
    (h : heap) (languageBreakdown : array) (index : Z) (value : raw)
  : heap * array :=
  let updated := languageBreakdown in
  let newValue := validate value in
  let diff := (newValue - pct h (nth (Z.to_nat index) updated O))%js in
  if negb (diff === #0)%js then
    let others := filter_index index 0 updated in
    let othersTotal := total_percentage h others in
    let factor := ((othersTotal - diff) / othersTotal)%js in
    let h1 :=
      fold_left (component_step index newValue factor updated)
                (indices updated) h in
    let adjustedTotal := total_percentage h1 updated in
    if negb (adjustedTotal === #100)%js then
      let largestIndex := largest_index_besides index (map (pct h1) updated) in
      if 0 <=? largestIndex then
        let r := nth (Z.to_nat largestIndex) updated O in
        (set_percentage h1 r (pct h1 r + (#100 - adjustedTotal))%js, updated)
      else (h1, updated)
    else (h1, updated)
  else (h, updated).

(* ================================================================= *)
(** ** formatLanguageBreakdown *)

(** [xs.sort(compare)].  [Array.prototype.sort] is stable: an element is
    moved after another only when the comparator says so ([after x y] is
    [compare(x, y) > 0]). *)
Fixpoint insert_sorted {A : Type} (after : A -> A -> bool) (x : A) (l : list A)
  : list A :=
  match l with
  | [] => [x]
  | y :: l' => if after x y then y :: insert_sorted after x l' else x :: l
  end.

Definition sort_by {A : Type} (after : A -> A -> bool) (l : list A) : list A :=
  fold_right (insert_sorted after) [] l.

(** The comparator [([, percentA], [, percentB]) => percentB - percentA]. *)
Definition by_percentage_desc (a b : string * number) : bool :=
  (snd b - snd a > #0)%js.

(** [languageColors[name] || 'lang-other']: the empty string is falsy. *)
Definition color_of (languageColors : string -> option string) (n : string)
  : string :=
  match languageColors n with
  | Some c => if String.eqb c EmptyString then "lang-other"%string else c
  | None => "lang-other"%string
  end.

(** Allocation of the objects of an array literal or of a [map]. *)
Fixpoint alloc_all (h : heap) (langs : list LanguageEntry) : heap * array :=
  match langs with
  | [] => (h, [])
  | lang :: rest =>
      let '(h1, r) := alloc h lang in
      let '(h2, rs) := alloc_all h1 rest in
      (h2, r :: rs)
  end.

(** [arr.indexOf(r)], objects being compared by identity. *)
Fixpoint index_of (r : ref) (i : Z) (arr : array) : Z :=
  match arr with
  | [] => -1
  | r' :: arr' => if Nat.eqb r' r then i else index_of r (i + 1) arr'
  end.

(** [formattedLanguages.reduce((max, lang) =>
      lang.percentage > max.percentage ? lang : max, { percentage: 0 })];
    [None] is the initial object, which is not an element of the array. *)
Definition largest_language (h : heap) (formattedLanguages : array) : option ref :=
  fold_left
    (fun max lang =>
       let max_percentage :=
         match max with Some r => pct h r | None => (#0)%js end in
       if (pct h lang > max_percentage)%js then Some lang else max)
    formattedLanguages None.

(** [([name, percentage]) =>
      ({ name, percentage, color: languageColors[name] || 'lang-other' })] *)
Definition format_entry (languageColors : string -> option string)
    (np : string * number) : LanguageEntry :=
  {| name := fst np; percentage := snd np;
     color := color_of languageColors (fst np) |}.

(** [languageStats] is the list [Object.entries(languageStats)]. *)
Definition formatLanguageBreakdown
    (h : heap) (languageStats : list (string * number))
    (languageColors : string -> option string) : heap * array :=
  match languageStats with
  | [] => (h, [])
  | _ :: _ =>
      let sortedLanguages := sort_by by_percentage_desc languageStats in
      let '(h1, formattedLanguages) :=
        alloc_all h
          (map (format_entry languageColors) (firstn 6 sortedLanguages)) in
      let total := total_percentage h1 formattedLanguages in
      if negb (total === #100)%js && (0 <? len formattedLanguages) then
        match largest_language h1 formattedLanguages with
        | Some r =>
            let index := index_of r 0 formattedLanguages in
            if index =? -1 then (h1, formattedLanguages)
            else
              let r' := nth (Z.to_nat index) formattedLanguages O in
              (set_percentage h1 r' (pct h1 r' + (#100 - total))%js,
               formattedLanguages)
        | None => (h1, formattedLanguages)
        end
      else (h1, formattedLanguages)
  end.

(* ================================================================= *)
(** ** The operations on a list of distinct objects

    A caller holds a list [L] of distinct entry objects: the store is [L]
    itself and the array is [0, 1, ..., length L - 1].  [run op L] is the
    list an operation returns, read through the store it leaves;
    [snapshot op L] is what the caller's own array reads afterwards. *)

Definition view (h : heap) (a : array) : list LanguageEntry := map (deref h) a.

Definition addresses (L : list LanguageEntry) : array := seq 0 (length L).

Definition run (op : heap -> array -> heap * array) (L : list LanguageEntry)
  : list LanguageEntry :=
  let '(h, result) := op L (addresses L) in view h result.

Definition snapshot (op : heap -> array -> heap * array) (L : list LanguageEntry)
  : list LanguageEntry :=
  let '(h, _) := op L (addresses L) in view h (addresses L).

Definition normalize : list LanguageEntry -> list LanguageEntry :=
  run normalizePercentages.

Definition addEntry (L : list LanguageEntry) (newEntry : LanguageEntry)
    (newPercentage : option number) : list LanguageEntry :=
  run (fun h a => addLanguageWithRedistribution h a newEntry newPercentage) L.

Definition removeEntry (L : list LanguageEntry) (indexToRemove : Z)
  : list LanguageEntry :=
  run (fun h a => removeLanguageWithRedistribution h a indexToRemove) L.

Definition updatePercentage (L : list LanguageEntry) (index : Z)
    (rawNewPercentage : raw) : list LanguageEntry :=
  run (fun h a => updateLanguagePercentage h a index rawNewPercentage) L.

Definition formatBreakdown (languageStats : list (string * number))
    (languageColors : string -> option string) : list LanguageEntry :=
  let '(h, result) := formatLanguageBreakdown [] languageStats languageColors in
  view h result.

(** The percentages of a list, and their sum as the code computes it. *)
Definition percentages (L : list LanguageEntry) : list number := map percentage L.

Definition total (L : list LanguageEntry) : number :=
  fold_left (fun sum lang => (sum + percentage lang)%js) L (#0)%js.

(** An entry with an integer percentage. *)
Definition entry (n : string) (p : Z) (c : string) : LanguageEntry :=
  {| name := n; percentage := (#p)%js; color := c |}.

(* ================================================================= *)
(** ** addLanguage and removeLanguage of the component

    [GitHubPreviewGenerator.jsx] keeps the breakdown in its state and has
    its own handlers for the Add and Remove buttons.  They build the next
    state from fresh objects, so they are functions from the list held by
    the state to the list handed to [setLanguageBreakdown]; a handler
    that returns early, or throws, leaves the state as it is. *)

(** [L.map(lang => ({ ...lang, percentage: f(lang.percentage) }))] on a
    list of entries. *)
Definition rescaled (f : number -> number) (L : list LanguageEntry)
  : list LanguageEntry :=
  map (fun lang => with_percentage lang (f (percentage lang))) L.

(** The object [languageColors] of the component, in the order of its
    keys. *)
Definition languageColors : list (string * string) :=
  [("JavaScript", "lang-javascript"); ("TypeScript", "lang-typescript");
   ("Python", "lang-python"); ("Java", "lang-java"); ("Ruby", "lang-ruby");
   ("C#", "lang-csharp"); ("PHP", "lang-php"); ("Go", "lang-go");
   ("Rust", "lang-rust"); ("Swift", "lang-swift"); ("Kotlin", "lang-kotlin");
   ("Dart", "lang-dart"); ("CSS", "lang-css"); ("HTML", "lang-html");
   ("Shell", "lang-shell"); ("C", "lang-c"); ("C++", "lang-cpp");
   ("Jupyter Notebook", "lang-jupyter"); ("Vue", "lang-vue"); ("JSX", "lang-jsx");
   ("Markdown", "lang-markdown"); ("Elixir", "lang-elixir");
   ("Haskell", "lang-haskell"); ("Perl", "lang-perl"); ("R", "lang-r");
   ("Lua", "lang-lua"); ("Clojure", "lang-clojure"); ("Scala", "lang-scala");
   ("SCSS", "lang-scss"); ("F#", "lang-fsharp"); ("PowerShell", "lang-powershell");
   ("Assembly", "lang-assembly"); ("Objective-C", "lang-objectivec");
   ("Groovy", "lang-groovy"); ("Dockerfile", "lang-dockerfile");
   ("Julia", "lang-julia"); ("MATLAB", "lang-matlab")]%string.

(** [table[key]] *)
Fixpoint property (table : list (string * string)) (key : string) : option string :=
  match table with
  | [] => None
  | (k, v) :: table' => if String.eqb k key then Some v else property table' key
  end.

(** [Object.keys(languageColors)] *)
Definition languageOptions : list string := map fst languageColors.

(** The state after [addLanguage()]. *)
Definition addLanguage (languageBreakdown : list LanguageEntry)
  : list LanguageEntry :=
  if 6 <=? len languageBreakdown then languageBreakdown
  else
    let unusedLanguages :=
      filter (fun lang =>
                negb (existsb (fun item => String.eqb (name item) lang)
                              languageBreakdown))
             languageOptions in
    match unusedLanguages with
    | [] => languageBreakdown
    | unused :: _ =>
        let newPercentage := (#5)%js in
        let remaining := (#100 - newPercentage)%js in
        let updated :=
          rescaled (fun p => Math_round ((p / #100) * remaining)%js)
                   languageBreakdown in
        updated ++ [{| name := unused; percentage := newPercentage;
                       color := color_of (property languageColors) unused |}]
    end.

(** The state after [removeLanguage(index)].  The handler is bound to
    the row [index] of the list; an index outside the list makes
    [languageBreakdown[index].percentage] throw, before any change. *)
Definition removeLanguage (languageBreakdown : list LanguageEntry) (index : Z)
  : list LanguageEntry :=
  if len languageBreakdown <=? 1 then languageBreakdown
  else if (index <? 0) || (len languageBreakdown <=? index) then languageBreakdown
  else
    let removedPercentage := pct languageBreakdown (Z.to_nat index) in
    let remaining := filter_index index 0 languageBreakdown in
    let total :=
      fold_left (fun sum lang => (sum + percentage lang)%js) remaining (#0)%js in
    let updated :=
      rescaled (fun p => Math_round (p + (p / total) * removedPercentage)%js)
               remaining in
    let adjustedTotal :=
      fold_left (fun sum lang => (sum + percentage lang)%js) updated (#0)%js in
    if negb (adjustedTotal === #100)%js && (0 <? len updated)
    then set_percentage updated O (pct updated O + (#100 - adjustedTotal))%js
    else updated.

(* ================================================================= *)
(** ** Strings and repository URLs

    A string is its sequence of characters; the characters the code
    looks for are all ASCII, so it makes no difference to it whether a
    character outside ASCII counts as one character or as several bytes.
    The two parsers,
    [extractRepoInfoFromUrl] of the language helper module and
    [parseGitHubUrl] of [src/utils/github-api.js], use [includes],
    [split] on one character and, for the second, one anchored regular
    expression. *)

(** [s.startsWith(p)], returning what follows [p]. *)
Fixpoint strip_prefix (p s : string) : option string :=
  match p, s with
  | EmptyString, _ => Some s
  | String a p', String b s' => if Ascii.eqb a b then strip_prefix p' s' else None
  | String _ _, EmptyString => None
  end.

Definition startsWith (s p : string) : bool :=
  match strip_prefix p s with Some _ => true | None => false end.

(** [s.includes(t)]: [t] occurs somewhere in [s]. *)
Fixpoint includes (s t : string) : bool :=
  startsWith s t
  || match s with
     | EmptyString => false
     | String _ s' => includes s' t
     end.

(** A non-empty string is truthy. *)
Definition truthy (s : string) : bool :=
  match s with EmptyString => false | String _ _ => true end.

(** [s.split(sep)] for a one-character separator: the pieces between the
    occurrences of [sep]; the empty string splits into one empty piece. *)
Fixpoint split (sep : ascii) (s : string) : list string :=
  match s with
  | EmptyString => [EmptyString]
  | String c s' =>
      if Ascii.eqb c sep then EmptyString :: split sep s'
      else
        match split sep s' with
        | piece :: pieces => String c piece :: pieces
        | [] => [String c EmptyString]
        end
  end.

(** [parts[i]], read where the code has checked the length or where an
    absent part and an empty one are treated alike. *)
Definition part (i : nat) (parts : list string) : string := nth i parts EmptyString.

(** A regular expression anchored at the start of the string is run as a
    backtracking matcher: [r k s] consumes a prefix of [s] that [r]
    accepts and hands the rest to [k], trying the alternatives of [r] in
    the order of the regular expression until [k] succeeds. *)
Definition matcher := (string -> option string) -> string -> option string.

Definition lit (p : string) : matcher :=
  fun k s => match strip_prefix p s with Some s' => k s' | None => None end.

(** [r?], greedy: first with [r], then without. *)
Definition opt (r : matcher) : matcher :=
  fun k s => match r k s with Some rest => Some rest | None => k s end.

Definition then_ (r1 r2 : matcher) : matcher := fun k s => r1 (r2 k) s.

(** [/^(https?:\/\/)?(www\.)?github\.com\//] *)
Definition github_prefix : matcher :=
  then_ (opt (then_ (lit "http") (then_ (opt (lit "s")) (lit "://"))))
        (then_ (opt (lit "www.")) (lit "github.com/")).

(** [s.replace(re, '')] for an anchored [re] without the [g] flag. *)
Definition remove_match (re : matcher) (s : string) : string :=
  match re Some s with Some rest => rest | None => s end.

(** [segment.split('#')[0].split('?')[0]] *)
Definition without_fragment_and_query (segment : string) : string :=
  part 0 (split "?" (part 0 (split "#" segment))).

(** [extractRepoInfoFromUrl(url)]: [Some (username, repo)] for the object
    [{ username, repo }], [None] for [null].  Nothing in the [try] block
    throws on a string. *)
Definition extractRepoInfoFromUrl (url : string) : option (string * string) :=
  if negb (truthy url) || negb (includes url "github.com") then None
  else
    let urlParts := split "/" url in
    if (5 <=? length urlParts)%nat then
      let username := part 3 urlParts in
      let repo := without_fragment_and_query (part 4 urlParts) in
      if truthy username && truthy repo then Some (username, repo) else None
    else None.

(** [parseGitHubUrl(url)]: [Some (username, repoName)] for the object
    [{ username, repoName }], [None] for [null]. *)
Definition parseGitHubUrl (url : string) : option (string * string) :=
  if negb (truthy url) || negb (includes url "github.com") then None
  else
    let urlWithoutProtocol := remove_match github_prefix url in
    let pathParts := split "/" urlWithoutProtocol in
    if (2 <=? length pathParts)%nat then
      let username := part 0 pathParts in
      let repoName := without_fragment_and_query (part 1 pathParts) in
      if truthy username && truthy repoName then Some (username, repoName) else None
    else None.

(** The first lines of the component's [fetchRepositoryData(repoFullName)]:
    the destructuring [[username, repoName] = repoFullName.split('/')]
    and the check that follows; [None] when the format error is thrown. *)
Definition repository_of_full_name (repoFullName : string)
  : option (string * string) :=
  let '(username, repoName) :=
    if includes repoFullName "/" then
      let parts := split "/" repoFullName in (part 0 parts, part 1 parts)
    else (EmptyString, repoFullName) in
  if negb (truthy username) || negb (truthy repoName) then None
  else Some (username, repoName).

(** What [handleGitHubUrlSubmit] passes on for a parsed URL:
    [fetchRepositoryData(`${username}/${repoName}`)]. *)
Definition full_name (info : string * string) : string :=
  (fst info ++ "/" ++ snd info)%string.

(** The component's [validateAndProcessAvatarUrl(url)]. *)
Definition validateAndProcessAvatarUrl (url : string) : string :=
  if negb (truthy url) then EmptyString
  else if startsWith url "http://" || startsWith url "https://" then url
  else if negb (includes url "/") && negb (includes url ".")
  then ("https://github.com/" ++ url ++ ".png")%string
  else ("https://" ++ url)%string.

(* ================================================================= *)
(** ** Definitions used by the statements and proofs *)

(** [m * 2^k] on mantissas. *)
Definition shl (m : positive) (k : Z) : positive :=
  match k with
  | Zpos p => Pos.iter xO m p
  | _ => m
  end.

Definition digits (m : positive) : Z := Zpos (digits2_pos m).

(** The binary64 representation of an integer below [2^53]: the mantissa
    is shifted to 53 bits. *)
Definition canon (z : Z) : number :=
  match z with
  | Z0 => S754_zero false
  | Zpos n => S754_finite false (shl n (53 - digits n)) (digits n - 53)
  | Zneg n => S754_finite true (shl n (53 - digits n)) (digits n - 53)
  end.

Definition safe (z : Z) : Prop := Z.abs z < 2 ^ 53.

Definition sum_numbers (ps : list number) : number :=
  fold_left JS.add ps (#0)%js.

Definition Zsum (zs : list Z) : Z := fold_right Z.add 0 zs.
Definition Zsum_abs (zs : list Z) : Z := fold_right (fun z s => Z.abs z + s) 0 zs.

(** The entries of [L] hold the integers [zs], small enough for every sum
    the helpers form to be exact. *)
Definition integer_percentages (L : list LanguageEntry) (zs : list Z) : Prop :=
  percentages L = map JS.of_Z zs /\ Zsum_abs zs < 2 ^ 50.

(** The index search on integers. *)
Definition largest_index_Z (i : Z) (zs : list Z) (acc : Z * Z) : Z * Z :=
  fold_left (fun max curr => if snd max <? snd curr then curr else max)
            (indexed i zs) acc.

(** [replace_nth k y l] puts [y] at position [k]. *)
Definition replace_nth {A : Type} (k : nat) (y : A) (l : list A) : list A :=
  update_at (fun _ => y) k l.

(** The clamp of [validate] on integers. *)
Definition validated (newPercentage : raw) : Z :=
  Z.min (Z.max (match parseInt_integer newPercentage with
                | Some z => z
                | None => 0
                end) 1) 99.

(** A statistic with an integer percentage. *)
Definition stat (nz : string * Z) : string * number := (fst nz, (#(snd nz))%js).

(** The comparator on integers: [a] sorts after [b] when it is smaller. *)
Definition smaller (a b : string * Z) : bool := snd a <? snd b.

(** The search of [formatLanguageBreakdown], as index and percentage. *)
Definition found (h : heap) (max : option ref) : Z * number :=
  match max with
  | Some r => (Z.of_nat r, pct h r)
  | None => (-1, (#0)%js)
  end.

(** The names and the colours of a list, in order. *)
Definition names (L : list LanguageEntry) : list string := map name L.
Definition colors (L : list LanguageEntry) : list string := map color L.

(** The list without its element at position [k]. *)
Definition without {A : Type} (k : nat) (l : list A) : list A :=
  firstn k l ++ skipn (S k) l.

(** The [for] loop of [updateLanguagePercentage] on a list: every entry
    but the one at [index] is rescaled, with a floor of 1. *)
Definition rescale_others (index : Z) (factor : number) (i : Z)
    (L : list LanguageEntry) : list LanguageEntry :=
  map (fun il =>
         if fst il =? index then snd il
         else with_percentage (snd il)
                (Math_max (#1)%js (Math_round (percentage (snd il) * factor)%js)))
      (indexed i L).

(** The loop of the component's [updateLanguage] on a list: the entry at
    [index] takes the new value, every other entry is rescaled with a
    floor of 1. *)
Definition rescale_around (index : Z) (newValue factor : number) (i : Z)
    (L : list LanguageEntry) : list LanguageEntry :=
  map (fun il =>
         if fst il =? index then with_percentage (snd il) newValue
         else with_percentage (snd il)
                (Math_max (#1)%js (Math_round (percentage (snd il) * factor)%js)))
      (indexed i L).

(** Equality of two Numbers as values of the representation. *)
Definition same_number (x y : number) : bool :=
  match x, y with
  | S754_zero a, S754_zero b => Bool.eqb a b
  | S754_infinity a, S754_infinity b => Bool.eqb a b
  | S754_nan, S754_nan => true
  | S754_finite a m e, S754_finite b m' e' =>
      Bool.eqb a b && Pos.eqb m m' && Z.eqb e e'
  | _, _ => false
  end.

(** The largest integer not above a finite Number. *)
Definition floor (x : number) : Z :=
  match x with
  | S754_finite s m e =>
      if 0 <=? e then cond_Zopp s (Zpos m) * 2 ^ e
      else cond_Zopp s (Zpos m) / 2 ^ (- e)
  | _ => 0
  end.

(** [x] is the Number of an integer between [lo] and [hi]. *)
Definition integer_between (lo hi : Z) (x : number) : bool :=
  let r := floor x in (lo <=? r) && (r <=? hi) && same_number x (#r)%js.

(** The integers from [a] to [b]. *)
Definition range (a b : Z) : list Z :=
  map (fun k => a + Z.of_nat k) (seq 0 (Z.to_nat (b - a + 1))).

(** [f] holds of every integer from [a] to [b]. *)
Definition for_all (a b : Z) (f : Z -> bool) : bool := forallb f (range a b).

(** The new percentage of an old entry at [p] when [q] percent remain for
    the old entries: an integer from 0 to [p]. *)
Definition add_entry_ok (q p : Z) : bool :=
  integer_between 0 p (Math_round ((#p / #100) * #q)%js).

(** The new percentage of a survivor at [p] when the survivors total [t]
    and the removed entry held [100 - t]: an integer, positive if [p] is. *)
Definition remove_entry_ok (t p : Z) : bool :=
  integer_between (if p =? 0 then 0 else 1) (100 * p)
    (Math_round (#p + (#p / #t) * #(100 - t))%js).

(** [x] is a positive normal Number below 128 and not below [2^-67]. *)
Definition small_positive (x : number) : bool :=
  match x with
  | S754_finite false m e => (digits m =? 53) && (-120 <=? e) && (e <=? -46)
  | _ => false
  end.

(** The factor by which the other entries are rescaled when they total
    [t] and are to total [a]. *)
Definition factor_ok (a t : Z) : bool := small_positive (#a / #t)%js.

(** The new percentage of another entry at [q] when the edited entry is
    set to [w] and the others, which total [t], are to total [100 - w]. *)
Definition share (w t q : Z) : number :=
  Math_max (#1)%js (Math_round (#q * (#(100 - w) / #t))%js).

(** When the edited entry is set to 99 every other entry becomes 1. *)
Definition beside_99_ok (t q : Z) : bool := same_number (share 99 t q) (#1)%js.

(** When the edited entry is set to 1 the others become integers from 1
    up, and an entry with at least a 66th of their total becomes 2 or
    more. *)
Definition beside_1_ok (t q : Z) : bool :=
  integer_between 1 (2 ^ 20) (share 1 t q)
  && ((66 * q <? t) || (2 <=? floor (share 1 t q))).

(** A finite Number: a zero, or a finite value in its binary64
    representation. *)
Definition finite (x : number) : bool :=
  match x with
  | S754_zero _ => true
  | S754_finite _ m e => bounded prec emax m e
  | _ => false
  end.

(** The value of a finite Number, in units of [2^-1074]. *)
Definition scaled (x : number) : Z :=
  match x with
  | S754_finite s m e => cond_Zopp s (Zpos m * 2 ^ (e + 1074))
  | _ => 0
  end.

(** A statistic under its scaled value. *)
Definition key (np : string * number) : string * Z := (fst np, scaled (snd np)).

(** A list of Numbers in descending order. *)
Definition descending (ps : list number) : Prop :=
  StronglySorted (fun x y => JS.ge x y = true) ps.

(** No string occurs twice. *)
Fixpoint distinct (l : list string) : bool :=
  match l with
  | [] => true
  | x :: l' => negb (existsb (String.eqb x) l') && distinct l'
  end.

(** [s.includes(c)] for a one-character string. *)
Definition has (c : ascii) (s : string) : bool := includes s (String c EmptyString).

(** The ways of writing the GitHub host that [parseGitHubUrl] strips:
    with the protocol, and without. *)
Definition full_prefixes : list string :=
  ["https://www.github.com/"; "https://github.com/";
   "http://www.github.com/"; "http://github.com/"]%string.

Definition bare_prefixes : list string := ["www.github.com/"; "github.com/"]%string.

(** What may follow a repository name in a URL: nothing, a further path,
    a fragment or a query. *)
Definition ends_name (rest : string) : bool :=
  match rest with
  | EmptyString => true
  | String c _ => Ascii.eqb c "/" || Ascii.eqb c "#" || Ascii.eqb c "?"
  end.

(** A user or repository name: not empty, and without [/], [#] and [?]. *)
Definition is_name (s : string) : bool :=
  truthy s && negb (has "/" s) && negb (has "#" s) && negb (has "?" s).

(* ================================================================= *)
(** * Exact integer arithmetic in binary64 *)


(** ** Integers as binary64 values *)

Lemma digits_size m : digits2_pos m = Pos.size m.
Proof. induction m; simpl; congruence. Qed.

Lemma digits_pos m : 1 <= digits m.
Proof. unfold digits. lia. Qed.

Lemma digits_bounds m : 2 ^ (digits m - 1) <= Zpos m < 2 ^ digits m.
Proof.
  unfold digits. rewrite digits_size.
  pose proof (Pos.size_gt m) as Hgt. pose proof (Pos.size_le m) as Hle.
  apply Pos2Z.pos_lt_pos in Hgt. apply Pos2Z.pos_le_pos in Hle.
  rewrite Pos2Z.inj_pow in Hgt, Hle.
  replace (Z.pos (Pos.size m)) with (Z.succ (Z.pos (Pos.size m) - 1)) in Hle at 1 by lia.
  rewrite Z.pow_succ_r in Hle by lia.
  rewrite (Pos2Z.inj_xO m) in Hle. split; lia.
Qed.

Lemma digits_le_53 m : Zpos m < 2 ^ 53 -> digits m <= 53.
Proof.
  intros H. destruct (Z_le_gt_dec (digits m) 53) as [|Hgt]; [assumption|].
  pose proof (digits_bounds m) as [Hlo _].
  assert (2 ^ 53 <= 2 ^ (digits m - 1)) by (apply Z.pow_le_mono_r; lia).
  lia.
Qed.

Lemma iter_xO_digits m p : digits2_pos (Pos.iter xO m p) = (digits2_pos m + p)%positive.
Proof.
  induction p using Pos.peano_ind.
  - simpl. lia.
  - rewrite Pos.iter_succ. simpl. rewrite IHp. lia.
Qed.

Lemma iter_xO_value m p : Zpos (Pos.iter xO m p) = Zpos m * 2 ^ Zpos p.
Proof.
  induction p using Pos.peano_ind.
  - simpl. lia.
  - rewrite Pos.iter_succ, Pos2Z.inj_xO, IHp, Pos2Z.inj_succ, Z.pow_succ_r by lia. lia.
Qed.

Lemma shl_digits m k : 0 <= k -> digits (shl m k) = digits m + k.
Proof.
  unfold digits. destruct k as [|p|p]; simpl; intros; try lia.
  rewrite iter_xO_digits. lia.
Qed.

Lemma shl_value m k : 0 <= k -> Zpos (shl m k) = Zpos m * 2 ^ k.
Proof.
  destruct k as [|p|p]; simpl shl; intros; try lia.
  apply iter_xO_value.
Qed.

Lemma shl_shl m j k : 0 <= j -> 0 <= k -> shl (shl m j) k = shl m (j + k).
Proof.
  intros Hj Hk. apply Pos2Z.inj.
  rewrite !shl_value, Z.pow_add_r by lia. lia.
Qed.

Lemma shl_align_le mx ex ex' :
  ex' <= ex -> shl_align mx ex ex' = (shl mx (ex - ex'), ex').
Proof.
  intros H. unfold shl_align.
  destruct (ex' - ex) as [|p|p] eqn:E; try lia.
  - replace (ex - ex') with 0 by lia. simpl. f_equal. lia.
  - replace (ex - ex') with (Zpos p) by lia. reflexivity.
Qed.

Lemma shl_align_ge mx ex ex' :
  ex <= ex' -> shl_align mx ex ex' = (mx, ex).
Proof.
  intros H. unfold shl_align.
  destruct (ex' - ex) as [|p|p] eqn:E; try lia; reflexivity.
Qed.

(** Shifting out zero bits is exact. *)
Lemma shr_iter_xO p : forall q,
  iter_pos shr_1 p {| shr_m := Zpos (Pos.iter xO q p); shr_r := false; shr_s := false |}
  = {| shr_m := Zpos q; shr_r := false; shr_s := false |}.
Proof.
  induction p as [p IH|p IH|]; intros q; simpl.
  - rewrite IH, IH. reflexivity.
  - rewrite IH, IH. reflexivity.
  - reflexivity.
Qed.

Lemma fexp_small d : -1021 <= d -> fexp prec emax d = d - 53.
Proof. unfold fexp, emin, prec, emax. lia. Qed.

(** Rounding a mantissa that already has its canonical exponent. *)
Lemma round_aux_canonical s m e :
  fexp prec emax (digits m + e) = e -> e <= 971 ->
  binary_round_aux prec emax s (Zpos m) e loc_Exact = S754_finite s m e.
Proof.
  intros Hc He. unfold binary_round_aux, shr_fexp.
  cbn [Zdigits2 shr_record_of_loc]. fold (digits m). rewrite Hc, Z.sub_diag.
  cbn [shr shr_m loc_of_shr_record round_nearest_even Zdigits2 shr_record_of_loc].
  fold (digits m). rewrite Hc, Z.sub_diag. cbn [shr shr_m].
  unfold prec, emax. replace (e <=? 1024 - 53) with true by (symmetry; apply Z.leb_le; lia).
  reflexivity.
Qed.

(** Rounding a mantissa whose low bits, down to the canonical exponent,
    are all zero. *)
Lemma round_aux_shift s q p e :
  fexp prec emax (digits q + (e + Zpos p)) = e + Zpos p -> e + Zpos p <= 971 ->
  binary_round_aux prec emax s (Zpos (Pos.iter xO q p)) e loc_Exact
  = S754_finite s q (e + Zpos p).
Proof.
  intros Hc He.
  pose proof (round_aux_canonical s q (e + Zpos p) Hc He) as Hq.
  unfold binary_round_aux, shr_fexp in *.
  cbn [Zdigits2 shr_record_of_loc] in *. fold (digits q) in *.
  fold (digits (Pos.iter xO q p)).
  replace (digits (Pos.iter xO q p)) with (digits q + Zpos p)
    by (unfold digits; rewrite iter_xO_digits; lia).
  replace (digits q + Zpos p + e) with (digits q + (e + Zpos p)) by lia.
  rewrite Hc in *. replace (e + Zpos p - e) with (Zpos p) by lia.
  rewrite Z.sub_diag in Hq. cbn [shr] in *.
  rewrite shr_iter_xO.
  cbn [shr_m loc_of_shr_record round_nearest_even Zdigits2 shr_record_of_loc] in *.
  fold (digits q) in *. rewrite Hc in *. rewrite Z.sub_diag in *. cbn [shr shr_m] in *.
  exact Hq.
Qed.

Lemma binary_round_int s n k :
  0 <= k -> digits n <= 53 ->
  binary_round prec emax s (shl n k) (- k)
  = S754_finite s (shl n (53 - digits n)) (digits n - 53).
Proof.
  intros Hk Hd. pose proof (digits_pos n) as Hd1.
  unfold binary_round. fold (digits (shl n k)).
  rewrite shl_digits by lia.
  replace (digits n + k + - k) with (digits n) by lia.
  rewrite fexp_small by lia.
  assert (Hcanon : fexp prec emax (digits (shl n (53 - digits n)) + (digits n - 53))
                   = digits n - 53).
  { rewrite shl_digits by lia. rewrite <- (fexp_small (digits n)) at 2 by lia. f_equal. lia. }
  destruct (Z_le_gt_dec (digits n - 53) (- k)) as [Hle|Hgt].
  - rewrite shl_align_le by lia. rewrite shl_shl by lia.
    replace (k + (- k - (digits n - 53))) with (53 - digits n) by lia.
    apply round_aux_canonical; [exact Hcanon | lia].
  - rewrite shl_align_ge by lia.
    remember (digits n - 53 + k) as t eqn:Et.
    destruct t as [|p|p]; try lia.
    replace (shl n k) with (Pos.iter xO (shl n (53 - digits n)) p).
    2:{ change (Pos.iter xO (shl n (53 - digits n)) p) with (shl (shl n (53 - digits n)) (Zpos p)).
        rewrite shl_shl by lia. f_equal. lia. }
    replace (digits n - 53) with (- k + Zpos p) by lia.
    apply round_aux_shift.
    + replace (- k + Zpos p) with (digits n - 53) by lia. exact Hcanon.
    + lia.
Qed.

Lemma normalize_int z k :
  0 <= k -> Z.abs z < 2 ^ 53 ->
  binary_normalize prec emax (z * 2 ^ k) (- k) false = canon z.
Proof.
  intros Hk Hz. destruct z as [|n|n]; cbn [canon].
  - reflexivity.
  - replace (Zpos n * 2 ^ k) with (Zpos (shl n k)) by (apply shl_value; lia).
    simpl binary_normalize. apply binary_round_int; [lia|]. apply digits_le_53. lia.
  - replace (Zneg n * 2 ^ k) with (Zneg (shl n k)).
    2:{ rewrite <- !Pos2Z.opp_pos, shl_value by lia. lia. }
    simpl binary_normalize. apply binary_round_int; [lia|]. apply digits_le_53. lia.
Qed.

Lemma of_Z_canon z : Z.abs z < 2 ^ 53 -> of_Z z = canon z.
Proof.
  intros Hz. unfold of_Z. rewrite <- (normalize_int z 0) by lia.
  f_equal. simpl. lia.
Qed.

Lemma cond_Zopp_shl s m j :
  0 <= j -> cond_Zopp s (Zpos (shl m j)) = cond_Zopp s (Zpos m) * 2 ^ j.
Proof.
  intros Hj. rewrite shl_value by lia. destruct s; cbn [cond_Zopp]; ring.
Qed.

(** A non-zero integer below [2^53], as mantissa and exponent. *)
Lemma canon_finite z :
  z <> 0 -> Z.abs z < 2 ^ 53 ->
  exists s m e,
    canon z = S754_finite s m e /\ -52 <= e <= 0
    /\ cond_Zopp s (Zpos m) = z * 2 ^ (- e) /\ s = (z <? 0).
Proof.
  intros Hz Hb. destruct z as [|n|n]; [congruence| |].
  - assert (digits n <= 53) by (apply digits_le_53; cbn [Z.abs] in Hb; lia).
    pose proof (digits_pos n).
    exists false, (shl n (53 - digits n)), (digits n - 53). cbn [canon].
    repeat split; try lia.
    rewrite cond_Zopp_shl by lia. cbn [cond_Zopp]. f_equal. f_equal. lia.
  - assert (digits n <= 53) by (apply digits_le_53; cbn [Z.abs] in Hb; lia).
    pose proof (digits_pos n).
    exists true, (shl n (53 - digits n)), (digits n - 53). cbn [canon].
    repeat split; try lia.
    rewrite cond_Zopp_shl by lia. cbn [cond_Zopp]. f_equal. f_equal. lia.
Qed.

Lemma cond_Zopp_aligned s m e ez a :
  ez <= e -> e <= 0 -> cond_Zopp s (Zpos m) = a * 2 ^ (- e) ->
  cond_Zopp s (Zpos (shl m (e - ez))) = a * 2 ^ (- ez).
Proof.
  intros H1 H2 Hm. rewrite cond_Zopp_shl by lia.
  rewrite Hm, <- Z.mul_assoc, <- Z.pow_add_r by lia.
  f_equal. f_equal. lia.
Qed.

Lemma add_finite_exact sa ma ea sb mb eb a b :
  ea <= 0 -> eb <= 0 ->
  cond_Zopp sa (Zpos ma) = a * 2 ^ (- ea) ->
  cond_Zopp sb (Zpos mb) = b * 2 ^ (- eb) ->
  Z.abs (a + b) < 2 ^ 53 ->
  (S754_finite sa ma ea + S754_finite sb mb eb)%js = canon (a + b).
Proof.
  intros Hea Heb Ha Hb Hab. unfold add. cbn [SFadd].
  set (ez := Z.min ea eb).
  rewrite !shl_align_le by (unfold ez; lia). cbn [fst].
  rewrite (cond_Zopp_aligned sa ma ea ez a), (cond_Zopp_aligned sb mb eb ez b)
    by (unfold ez; lia || assumption).
  rewrite <- Z.mul_add_distr_r.
  pose proof (normalize_int (a + b) (- ez) ltac:(unfold ez; lia) Hab) as E.
  rewrite Z.opp_involutive in E. exact E.
Qed.

Lemma sub_finite_exact sa ma ea sb mb eb a b :
  ea <= 0 -> eb <= 0 ->
  cond_Zopp sa (Zpos ma) = a * 2 ^ (- ea) ->
  cond_Zopp sb (Zpos mb) = b * 2 ^ (- eb) ->
  Z.abs (a - b) < 2 ^ 53 ->
  (S754_finite sa ma ea - S754_finite sb mb eb)%js = canon (a - b).
Proof.
  intros Hea Heb Ha Hb Hab. unfold sub. cbn [SFsub].
  set (ez := Z.min ea eb).
  rewrite !shl_align_le by (unfold ez; lia). cbn [fst].
  rewrite (cond_Zopp_aligned sa ma ea ez a), (cond_Zopp_aligned sb mb eb ez b)
    by (unfold ez; lia || assumption).
  rewrite <- Z.mul_sub_distr_r.
  pose proof (normalize_int (a - b) (- ez) ltac:(unfold ez; lia) Hab) as E.
  rewrite Z.opp_involutive in E. exact E.
Qed.

(** Addition and subtraction of integers are exact as long as operands
    and result stay below [2^53]. *)
Lemma add_exact a b :
  safe a -> safe b -> safe (a + b) -> (#a + #b)%js = (#(a + b))%js.
Proof.
  unfold safe. intros Ha Hb Hab. rewrite !of_Z_canon by assumption.
  destruct (Z.eq_dec a 0) as [->|Ha0]; [|destruct (Z.eq_dec b 0) as [->|Hb0]].
  - simpl (0 + b). destruct b; reflexivity.
  - rewrite Z.add_0_r. destruct a; reflexivity.
  - destruct (canon_finite a Ha0 Ha) as (sa & ma & ea & -> & Hea & Hma & _).
    destruct (canon_finite b Hb0 Hb) as (sb & mb & eb & -> & Heb & Hmb & _).
    apply add_finite_exact; lia || assumption.
Qed.

Lemma sub_exact a b :
  safe a -> safe b -> safe (a - b) -> (#a - #b)%js = (#(a - b))%js.
Proof.
  unfold safe. intros Ha Hb Hab. rewrite !of_Z_canon by assumption.
  destruct (Z.eq_dec a 0) as [->|Ha0]; [|destruct (Z.eq_dec b 0) as [->|Hb0]].
  - simpl (0 - b). destruct b; reflexivity.
  - rewrite Z.sub_0_r. destruct a; reflexivity.
  - destruct (canon_finite a Ha0 Ha) as (sa & ma & ea & -> & Hea & Hma & _).
    destruct (canon_finite b Hb0 Hb) as (sb & mb & eb & -> & Heb & Hmb & _).
    apply sub_finite_exact; lia || assumption.
Qed.

(** Comparison of integers. *)
Lemma compare_pos_canon n m :
  digits n <= 53 -> digits m <= 53 ->
  match digits n - 53 ?= digits m - 53 with
  | Lt => Lt
  | Gt => Gt
  | Eq => Pos.compare_cont Eq (shl n (53 - digits n)) (shl m (53 - digits m))
  end = (Zpos n ?= Zpos m).
Proof.
  intros Hn Hm.
  pose proof (digits_bounds n) as [Hn1 Hn2]. pose proof (digits_bounds m) as [Hm1 Hm2].
  pose proof (digits_pos n). pose proof (digits_pos m).
  destruct (Z.compare_spec (digits n - 53) (digits m - 53)) as [E|E|E].
  - replace (digits m) with (digits n) by lia.
    change (Pos.compare_cont Eq ?x ?y) with (Zpos x ?= Zpos y).
    rewrite !shl_value by lia.
    symmetry. apply Zmult_compare_compat_r. apply Z.lt_gt, Z.pow_pos_nonneg; lia.
  - symmetry. apply Z.compare_lt_iff.
    assert (2 ^ digits n <= 2 ^ (digits m - 1)) by (apply Z.pow_le_mono_r; lia). lia.
  - symmetry. apply Z.compare_gt_iff.
    assert (2 ^ digits m <= 2 ^ (digits n - 1)) by (apply Z.pow_le_mono_r; lia). lia.
Qed.

Lemma compare_canon a b :
  safe a -> safe b -> SFcompare (canon a) (canon b) = Some (a ?= b).
Proof.
  unfold safe. intros Ha Hb.
  destruct a as [|n|n], b as [|m|m]; try reflexivity.
  - assert (digits n <= 53) by (apply digits_le_53; cbn [Z.abs] in Ha; lia).
    assert (digits m <= 53) by (apply digits_le_53; cbn [Z.abs] in Hb; lia).
    cbn [canon SFcompare]. f_equal. apply compare_pos_canon; assumption.
  - assert (digits n <= 53) by (apply digits_le_53; cbn [Z.abs] in Ha; lia).
    assert (digits m <= 53) by (apply digits_le_53; cbn [Z.abs] in Hb; lia).
    cbn [canon SFcompare]. f_equal.
    change (Zneg n ?= Zneg m) with (CompOpp (Zpos n ?= Zpos m)).
    rewrite <- compare_pos_canon by assumption.
    destruct (digits n - 53 ?= digits m - 53); reflexivity.
Qed.

Lemma strict_eq_exact a b : safe a -> safe b -> (#a === #b)%js = (a =? b).
Proof.
  intros Ha Hb. unfold strict_eq, SFeqb. rewrite !of_Z_canon by assumption.
  rewrite compare_canon by assumption. rewrite Z.eqb_compare. reflexivity.
Qed.

Lemma gt_exact a b : safe a -> safe b -> (#a > #b)%js = (b <? a).
Proof.
  intros Ha Hb. unfold gt, SFltb. rewrite !of_Z_canon by assumption.
  rewrite compare_canon by assumption. unfold Z.ltb. reflexivity.
Qed.

(* ----------------------------------------------------------------- *)
(** ** Lists of integer percentages *)

Lemma Zsum_abs_nonneg zs : 0 <= Zsum_abs zs.
Proof. induction zs; simpl; lia. Qed.

Lemma Zsum_le_abs zs : Z.abs (Zsum zs) <= Zsum_abs zs.
Proof. induction zs; simpl; lia. Qed.

Lemma fold_add_exact zs : forall acc,
  Z.abs acc + Zsum_abs zs < 2 ^ 53 ->
  fold_left JS.add (map JS.of_Z zs) (#acc)%js = (#(acc + Zsum zs))%js.
Proof.
  induction zs as [|z zs IH]; intros acc H; simpl in *.
  - f_equal. lia.
  - pose proof (Zsum_abs_nonneg zs).
    rewrite add_exact by (unfold safe; lia).
    rewrite IH by lia. f_equal. lia.
Qed.

Lemma sum_numbers_exact zs :
  Zsum_abs zs < 2 ^ 53 -> sum_numbers (map JS.of_Z zs) = (#(Zsum zs))%js.
Proof.
  intros H. unfold sum_numbers. rewrite fold_add_exact by (simpl; lia). reflexivity.
Qed.

Lemma In_abs_le z zs : In z zs -> Z.abs z <= Zsum_abs zs.
Proof.
  induction zs as [|y zs IH]; simpl; [tauto|].
  pose proof (Zsum_abs_nonneg zs). intros [->|Hin]; [lia|]. specialize (IH Hin). lia.
Qed.

(* ----------------------------------------------------------------- *)
(** ** The store of a list of distinct objects *)

Lemma fold_left_map {A B C : Type} (f : A -> B -> A) (g : C -> B) l : forall a,
  fold_left f (map g l) a = fold_left (fun a x => f a (g x)) l a.
Proof. induction l; intros; simpl; auto. Qed.

Lemma total_percentage_sum h a :
  total_percentage h a = sum_numbers (map (pct h) a).
Proof. unfold total_percentage, sum_numbers. rewrite fold_left_map. reflexivity. Qed.

Lemma total_sum L : total L = sum_numbers (percentages L).
Proof. unfold total, sum_numbers, percentages. rewrite fold_left_map. reflexivity. Qed.

Lemma map_nth_seq_app {A : Type} (d : A) (L : list A) : forall pre,
  map (fun r => nth r (pre ++ L) d) (seq (length pre) (length L)) = L.
Proof.
  induction L as [|x L IH]; intros pre; simpl; [reflexivity|].
  rewrite app_nth2, Nat.sub_diag by lia. simpl. f_equal.
  specialize (IH (pre ++ [x])). rewrite <- app_assoc, length_app in IH. simpl in IH.
  rewrite Nat.add_1_r in IH. exact IH.
Qed.

Lemma view_addresses L : view L (addresses L) = L.
Proof. exact (map_nth_seq_app no_object L []). Qed.

Lemma pct_addresses L : map (pct L) (addresses L) = percentages L.
Proof.
  unfold percentages. rewrite <- (view_addresses L) at 3.
  unfold view. rewrite map_map. reflexivity.
Qed.

Lemma total_addresses L : total_percentage L (addresses L) = total L.
Proof. rewrite total_percentage_sum, total_sum, pct_addresses. reflexivity. Qed.

Lemma update_at_length {A : Type} (f : A -> A) k (l : list A) :
  length (update_at f k l) = length l.
Proof. revert k. induction l; intros [|k]; simpl; auto. Qed.

Lemma view_set_percentage L r p :
  view (set_percentage L r p) (addresses L) = set_percentage L r p.
Proof.
  unfold addresses. rewrite <- (update_at_length (fun lang => with_percentage lang p) r L).
  apply view_addresses.
Qed.

Lemma nth_addresses L k : (k < length L)%nat -> nth k (addresses L) O = k.
Proof. intros H. unfold addresses. rewrite seq_nth by assumption. reflexivity. Qed.

(** The search never returns an index outside the list. *)
Lemma largest_index_fold_range ps : forall i acc,
  -1 <= fst acc < i ->
  -1 <= fst (fold_left
         (fun max curr => if (snd curr > snd max)%js then curr else max)
         (indexed i ps) acc) < i + len ps.
Proof.
  unfold len. induction ps as [|p ps IH]; intros i acc H; simpl.
  - lia.
  - match goal with |- context [fold_left _ _ ?a] => specialize (IH (i + 1) a) end.
    destruct (gt p (snd acc)); simpl in IH; lia.
Qed.

Lemma largest_index_range ps : -1 <= largest_index ps < len ps.
Proof.
  unfold largest_index.
  apply (largest_index_fold_range ps 0 (-1, (#0)%js)). cbn [fst]. lia.
Qed.

(** [normalize] as a function on lists. *)
Lemma normalize_unfold L :
  normalize L =
  match L with
  | [] => []
  | _ :: _ =>
      if (total L === #100)%js then L
      else
        let k := largest_index (percentages L) in
        if 0 <=? k then
          set_percentage L (Z.to_nat k) (pct L (Z.to_nat k) + (#100 - total L))%js
        else L
  end.
Proof.
  destruct L as [|x L']; [reflexivity|].
  set (L := x :: L'). unfold normalize, run, normalizePercentages.
  change (addresses L) with (O :: seq 1 (length L')) at 1.
  cbv beta iota. change (O :: seq 1 (length L')) with (addresses L).
  rewrite total_addresses, pct_addresses.
  destruct (total L === #100)%js; [apply view_addresses|].
  cbv zeta. pose proof (largest_index_range (percentages L)) as Hr.
  destruct (0 <=? largest_index (percentages L)) eqn:E; [|apply view_addresses].
  apply Z.leb_le in E.
  rewrite nth_addresses.
  - apply view_set_percentage.
  - assert (length (percentages L) = length L) by apply length_map.
    unfold len in Hr. lia.
Qed.

(* ----------------------------------------------------------------- *)
(** ** The index search on integers *)

Lemma largest_index_exact zs : forall i j m,
  safe m -> (forall z, In z zs -> safe z) ->
  fold_left (fun max curr => if (snd curr > snd max)%js then curr else max)
            (indexed i (map JS.of_Z zs)) (j, (#m)%js)
  = (fst (largest_index_Z i zs (j, m)), (# (snd (largest_index_Z i zs (j, m))))%js).
Proof.
  unfold largest_index_Z.
  induction zs as [|z zs IH]; intros i j m Hm Hzs; [reflexivity|].
  cbn [map indexed fold_left snd].
  rewrite gt_exact by (auto using in_eq).
  destruct (m <? z); apply IH; auto using in_cons, in_eq.
Qed.

Lemma largest_index_Z_spec zs : forall i j m,
  ((forall z, In z zs -> z <= m) /\ largest_index_Z i zs (j, m) = (j, m))
  \/ (exists k z,
        nth_error zs k = Some z /\ largest_index_Z i zs (j, m) = (i + Z.of_nat k, z)
        /\ m < z
        /\ (forall y, In y zs -> y <= z)
        /\ (forall k' y, (k' < k)%nat -> nth_error zs k' = Some y -> y < z)).
Proof.
  unfold largest_index_Z.
  induction zs as [|z zs IH]; intros i j m.
  - left. split; [intros z []|reflexivity].
  - cbn [indexed fold_left snd]. destruct (Z.ltb_spec m z) as [Hlt|Hge].
    + destruct (IH (i + 1) i z) as [[Hall E]|(k & z' & Hk & E & Hz & Hall & Hbefore)].
      * right. exists O, z. repeat split; try assumption.
        -- rewrite E. f_equal. lia.
        -- intros y [->|Hy]; [lia|auto].
        -- intros k' y Hk'. lia.
      * right. exists (S k), z'. repeat split; try assumption.
        -- rewrite E. f_equal. lia.
        -- lia.
        -- intros y [->|Hy]; [lia|auto].
        -- intros [|k'] y Hk' Hy; simpl in Hy.
           ++ injection Hy as <-. lia.
           ++ apply (Hbefore k'); [lia|assumption].
    + destruct (IH (i + 1) j m) as [[Hall E]|(k & z' & Hk & E & Hz & Hall & Hbefore)].
      * left. split; [|assumption]. intros y [->|Hy]; [lia|auto].
      * right. exists (S k), z'. repeat split; try assumption.
        -- rewrite E. f_equal. lia.
        -- intros y [->|Hy]; [lia|auto].
        -- intros [|k'] y Hk' Hy; simpl in Hy.
           ++ injection Hy as <-. lia.
           ++ apply (Hbefore k'); [lia|assumption].
Qed.

Lemma integer_percentages_safe L zs :
  integer_percentages L zs -> forall z, In z zs -> safe z.
Proof.
  intros [_ Hb] z Hin. pose proof (In_abs_le z zs Hin). unfold safe.
  assert (2 ^ 50 < 2 ^ 53) by (apply Z.pow_lt_mono_r; lia). lia.
Qed.

Lemma integer_total L zs :
  integer_percentages L zs -> total L = (#(Zsum zs))%js.
Proof.
  intros [E Hb]. rewrite total_sum, E. apply sum_numbers_exact.
  assert (2 ^ 50 < 2 ^ 53) by (apply Z.pow_lt_mono_r; lia). lia.
Qed.

Lemma integer_largest_index L zs :
  integer_percentages L zs ->
  largest_index (percentages L) = fst (largest_index_Z 0 zs (-1, 0)).
Proof.
  intros H. unfold largest_index. destruct H as [E Hb] eqn:HH. rewrite E.
  rewrite largest_index_exact.
  - reflexivity.
  - unfold safe. simpl. lia.
  - apply (integer_percentages_safe L zs). split; assumption.
Qed.

Lemma percentages_nth L zs k z :
  percentages L = map JS.of_Z zs -> nth_error zs k = Some z ->
  pct L k = (#z)%js.
Proof.
  intros E Hk. unfold pct, deref.
  rewrite <- (map_nth percentage L no_object k).
  change (map percentage L) with (percentages L). rewrite E.
  apply nth_error_nth. rewrite nth_error_map, Hk. reflexivity.
Qed.

Lemma percentages_set L k p :
  percentages (set_percentage L k p) = replace_nth k p (percentages L).
Proof.
  unfold set_percentage, replace_nth, percentages. revert k.
  induction L as [|x L IH]; intros [|k]; simpl; try reflexivity. f_equal. apply IH.
Qed.

Lemma replace_nth_map {A B : Type} (f : A -> B) k y l :
  replace_nth k (f y) (map f l) = map f (replace_nth k y l).
Proof.
  unfold replace_nth. revert k. induction l; intros [|k]; simpl; try reflexivity.
  f_equal. auto.
Qed.

Lemma Zsum_replace zs : forall k z y,
  nth_error zs k = Some z -> Zsum (replace_nth k y zs) = Zsum zs - z + y.
Proof.
  unfold replace_nth.
  induction zs as [|x zs IH]; intros [|k] z y H; simpl in *; try discriminate.
  - injection H as ->. lia.
  - rewrite (IH k z y H). lia.
Qed.

Lemma Zsum_abs_replace zs : forall k y,
  Zsum_abs (replace_nth k y zs) <= Zsum_abs zs + Z.abs y.
Proof.
  unfold replace_nth.
  induction zs as [|x zs IH]; intros [|k] y; simpl in *; try lia.
  specialize (IH k y). lia.
Qed.

Lemma normalize_fixed L : (total L === #100)%js = true -> normalize L = L.
Proof.
  intros H. rewrite normalize_unfold. destruct L; [reflexivity|]. rewrite H. reflexivity.
Qed.

(** The three outcomes of [normalize] on integer percentages. *)
Lemma normalize_integer L zs :
  integer_percentages L zs ->
  (Zsum zs = 100 /\ normalize L = L)
  \/ (Zsum zs <> 100 /\ (forall z, In z zs -> z <= 0) /\ normalize L = L)
  \/ (Zsum zs <> 100 /\ exists k z,
        nth_error zs k = Some z /\ 0 < z
        /\ (forall y, In y zs -> y <= z)
        /\ (forall k' y, (k' < k)%nat -> nth_error zs k' = Some y -> y < z)
        /\ normalize L = set_percentage L k (#(z + (100 - Zsum zs)))%js
        /\ (total (normalize L) === #100)%js = true).
Proof.
  intros H. pose proof H as [E Hb].
  assert (H53 : 2 ^ 50 * 8 = 2 ^ 53) by reflexivity.
  pose proof (Zsum_le_abs zs) as Hsum. pose proof (Zsum_abs_nonneg zs) as Hnn.
  assert (Ht : (total L === #100)%js = (Zsum zs =? 100)).
  { rewrite (integer_total L zs H). apply strict_eq_exact; unfold safe; lia. }
  destruct (Z.eqb_spec (Zsum zs) 100) as [E100|N100].
  - left. split; [assumption|]. apply normalize_fixed. exact Ht.
  - right. rewrite normalize_unfold. destruct L as [|x L'].
    { left. destruct zs; [|discriminate]. repeat split; auto. intros z []. }
    set (L := x :: L') in *. rewrite Ht. cbv zeta.
    rewrite (integer_largest_index L zs H).
    destruct (largest_index_Z_spec zs 0 (-1) 0)
      as [[Hall Ek]|(k & z & Hk & Ek & Hz & Hall & Hbefore)]; rewrite Ek; cbn [fst].
    + left. repeat split; auto.
    + right. split; [assumption|]. exists k, z.
      replace (0 <=? 0 + Z.of_nat k) with true by (symmetry; apply Z.leb_le; lia).
      replace (Z.to_nat (0 + Z.of_nat k)) with k by lia.
      pose proof (In_abs_le z zs (nth_error_In _ _ Hk)) as Hzb.
      assert (Ev : (pct L k + (#100 - total L))%js = (#(z + (100 - Zsum zs)))%js).
      { rewrite (percentages_nth L zs k z E Hk), (integer_total L zs H).
        rewrite sub_exact, add_exact by (unfold safe; lia). reflexivity. }
      rewrite Ev. repeat split; try assumption.
      rewrite total_sum, percentages_set, E, replace_nth_map.
      pose proof (Zsum_abs_replace zs k (z + (100 - Zsum zs))) as Hr.
      rewrite sum_numbers_exact by lia.
      rewrite (Zsum_replace zs k z _ Hk).
      rewrite strict_eq_exact by (unfold safe; lia). apply Z.eqb_eq. lia.
Qed.


(* ----------------------------------------------------------------- *)
(** ** Helpers that copy the entries leave the caller's objects alone *)

Lemma map_fresh_spec f languages : forall h,
  exists new,
    length new = length languages
    /\ map_fresh f h languages = (h ++ new, seq (length h) (length languages)).
Proof.
  induction languages as [|r rest IH]; intros h; cbn [map_fresh alloc].
  - exists []. rewrite app_nil_r. split; reflexivity.
  - destruct (IH (h ++ [with_percentage (deref h r) (f (pct h r))])) as (new & Hl & E).
    rewrite E. eexists. split.
    2:{ rewrite <- app_assoc, length_app, Nat.add_1_r. reflexivity. }
    simpl. rewrite Hl. reflexivity.
Qed.

Lemma set_percentage_above L X r p :
  (length L <= r)%nat ->
  set_percentage (L ++ X) r p = L ++ set_percentage X (r - length L)%nat p.
Proof.
  unfold set_percentage. revert r.
  induction L as [|x L IH]; intros r H; cbn [app length].
  - rewrite Nat.sub_0_r. reflexivity.
  - destruct r as [|r]; [simpl in H; lia|]. cbn [update_at]. f_equal.
    apply IH. simpl in H. lia.
Qed.

Lemma view_prefix L X : view (L ++ X) (addresses L) = L.
Proof.
  rewrite <- (view_addresses L) at 3.
  unfold view, addresses. apply map_ext_in. intros r Hr.
  apply in_seq in Hr. unfold deref. apply app_nth1. lia.
Qed.

(** Normalising an array of objects allocated after [L] keeps [L]. *)
Lemma normalize_keeps_prefix L X n :
  exists X',
    fst (normalizePercentages (L ++ X) (seq (length L) n)) = L ++ X'.
Proof.
  unfold normalizePercentages. destruct n as [|n]; [exists X; reflexivity|].
  remember (seq (length L) (S n)) as a eqn:Ea.
  assert (Hlen : @length ref a = S n) by (rewrite Ea; apply length_seq).
  destruct a as [|r0 a']; [discriminate|].
  destruct (_ === _)%js; [exists X; reflexivity|]. cbv zeta.
  pose proof (largest_index_range (map (pct (L ++ X)) (r0 :: a'))) as Hr.
  destruct (0 <=? _) eqn:E; [|exists X; reflexivity].
  apply Z.leb_le in E. cbn [fst].
  eexists. apply set_percentage_above.
  unfold len in Hr. rewrite length_map, Hlen in Hr.
  remember (Z.to_nat (largest_index (map (pct (L ++ X)) (r0 :: a')))) as k eqn:Ek.
  assert (Hk : (k < S n)%nat) by lia.
  rewrite Ea, seq_nth by assumption. lia.
Qed.

Lemma snapshot_prefix (op : heap -> array -> heap * array) L :
  (exists X, fst (op L (addresses L)) = L ++ X) -> snapshot op L = L.
Proof.
  intros (X & E). unfold snapshot. destruct (op L (addresses L)) as [h result].
  cbn [fst] in E. rewrite E. apply view_prefix.
Qed.

(** [addLanguageWithRedistribution] and [removeLanguageWithRedistribution]
    build their result from copies ([{ ...lang }]); whatever they are
    given, the caller's list reads the same afterwards. *)
Lemma add_keeps_input (L : list LanguageEntry) newLanguage newPercentage :
  snapshot (fun h a => addLanguageWithRedistribution h a newLanguage newPercentage) L
  = L.
Proof.
  apply snapshot_prefix. unfold addLanguageWithRedistribution.
  destruct L as [|x L']; [exists [with_percentage newLanguage (#100)%js]; reflexivity|].
  set (L := x :: L').
  change (addresses L) with (O :: seq 1 (length L')) at 1. cbv beta iota.
  change (O :: seq 1 (length L')) with (addresses L).
  match goal with |- context [map_fresh ?f L (addresses L)] =>
    destruct (map_fresh_spec f (addresses L) L) as (new & Hl & ->) end.
  cbn [alloc]. unfold addresses in *. rewrite length_seq in *.
  rewrite length_app, Hl, <- seq_S, <- app_assoc.
  apply normalize_keeps_prefix.
Qed.

Lemma remove_keeps_input (L : list LanguageEntry) indexToRemove :
  snapshot (fun h a => removeLanguageWithRedistribution h a indexToRemove) L = L.
Proof.
  apply snapshot_prefix. unfold removeLanguageWithRedistribution.
  destruct (_ || _ || _); [exists []; rewrite app_nil_r; reflexivity|].
  cbv zeta.
  match goal with |- context [map_fresh ?f L ?a] =>
    destruct (map_fresh_spec f a L) as (new & Hl & ->) end.
  apply normalize_keeps_prefix.
Qed.

(* ================================================================= *)
(** * Evaluation on concrete lists *)

Section Scenarios.

Local Open Scope string_scope.
Local Open Scope Z_scope.

(** [Math.round] on halves, on the double just below one half, and on
    values that round to a zero. *)
Lemma Math_round_examples :
  Math_round (#133 / #2)%js = (#67)%js
  /\ Math_round (#5 / #2)%js = (#3)%js
  /\ Math_round (#(-5) / #2)%js = (#(-2))%js
  /\ Math_round (S754_finite false 9007199254740991 (-54)) = (#0)%js
  /\ Math_round (#(-1) / #2)%js = S754_zero true
  /\ Math_round (#(-3) / #2)%js = (#(-1))%js
  /\ Math_round NaN = NaN
  /\ Math_round (#1 / #0)%js = S754_infinity false.
Proof. vm_compute. repeat split; reflexivity. Qed.

(** C7: adding C at 5 to [A 70, B 30] gives [A 66, B 29, C 5]: the
    rescaled values are [Math.round(66.5) = 67] and
    [Math.round(28.5) = 29], the total is 101 and the largest entry, A,
    absorbs the difference; the result sums to 100.  On the empty list
    the new entry comes back alone at 100, whatever share is asked. *)
Theorem addEntry_scenario :
  (forall p0,
      addEntry [entry "A" 70 "a"; entry "B" 30 "b"]
               {| name := "C"; percentage := p0; color := "c" |} (Some (#5)%js)
      = [entry "A" 66 "a"; entry "B" 29 "b"; entry "C" 5 "c"])
  /\ (total [entry "A" 66 "a"; entry "B" 29 "b"; entry "C" 5 "c"] === #100)%js = true
  /\ (forall newEntry newPercentage,
         addEntry [] newEntry newPercentage = [with_percentage newEntry (#100)%js]).
Proof.
  split; [|split].
  - intros p0. vm_compute. reflexivity.
  - vm_compute. reflexivity.
  - intros [n p c] newPercentage. reflexivity.
Qed.

End Scenarios.

(* ================================================================= *)
(** * The claims on concrete lists *)

Section Failing_inputs.

Local Open Scope string_scope.
Local Open Scope Z_scope.

(** C1: the sum invariant fails when every surviving entry is at 0.
    Removing A from [A 100, B 0] divides by a total of 0: B receives
    [Math.round(0 + (0 / 0) * 100)], which is NaN, the search finds no
    entry greater than 0 and the list comes back with a NaN total.  The
    same division by zero occurs in [updateLanguagePercentage]. *)
Theorem sum_invariant_zero_survivors :
  let L := [entry "A" 100 "a"; entry "B" 0 "b"] in
  (total L === #100)%js = true
  /\ removeEntry L 0 = [ {| name := "B"; percentage := NaN; color := "b" |} ]
  /\ (total (removeEntry L 0) === #100)%js = false
  /\ updatePercentage L 0 (RawNumber 50)
     = [ {| name := "A"; percentage := NaN; color := "a" |};
         {| name := "B"; percentage := NaN; color := "b" |} ]
  /\ (total (updatePercentage L 0 (RawNumber 50)) === #100)%js = false.
Proof. vm_compute. repeat split; reflexivity. Qed.

(** Entries at 0 are lists the helpers themselves produce: adding B at
    share 0 to [A 100] gives [A 100, B 0], and adding it at share 100
    gives [A 0, B 100], from which removing B leaves A at NaN. *)
Lemma zero_entries_are_reachable :
  addEntry [entry "A" 100 "a"] (entry "B" 0 "b") (Some (#0)%js)
  = [entry "A" 100 "a"; entry "B" 0 "b"]
  /\ addEntry [entry "A" 100 "a"] (entry "B" 0 "b") (Some (#100)%js)
     = [entry "A" 0 "a"; entry "B" 100 "b"]
  /\ removeEntry [entry "A" 0 "a"; entry "B" 100 "b"] 1
     = [ {| name := "A"; percentage := NaN; color := "a" |} ].
Proof. vm_compute. repeat split; reflexivity. Qed.

(** C2, as stated, fails: the edited entry does not keep its clamped
    value.  On
    [A 50, B 30, C 20] the request 500 is clamped to 99, B and C are
    floored at 1, the total is 101 and the closing normalisation takes
    the excess from the largest entry, which is the edited one: A ends
    at 98.  On [A 2, x 1, ... (98 times)] the request -10 is clamped to
    1, the others stay at 1, the total is 99 and A ends at 2. *)
Theorem clamped_value_not_kept :
  let L := [entry "A" 50 "a"; entry "B" 30 "b"; entry "C" 20 "c"] in
  let M := entry "A" 2 "a" :: repeat (entry "x" 1 "c") 98 in
  (total L === #100)%js = true
  /\ updatePercentage L 0 (RawNumber 500)
     = [entry "A" 98 "a"; entry "B" 1 "b"; entry "C" 1 "c"]
  /\ (total M === #100)%js = true
  /\ updatePercentage M 0 (RawNumber (-10)) = M.
Proof. vm_compute. repeat split; reflexivity. Qed.

(** The component's own copy of the edit looks for the entry to correct
    "besides the one being edited" and so keeps the clamped value: on
    the same list A ends at 99 (and B is taken down to 0). *)
Lemma component_keeps_clamped_value :
  run (fun h a => updateLanguage h a 0 (RawNumber 500))
      [entry "A" 50 "a"; entry "B" 30 "b"; entry "C" 20 "c"]
  = [entry "A" 99 "a"; entry "B" 0 "b"; entry "C" 1 "c"].
Proof. vm_compute. reflexivity. Qed.

(** C3: a non-target entry can end below 1.  On [A 100, B 0] the others
    total 0, the scale factor is infinite and B becomes
    [Math.max(1, Math.round(0 * Infinity))], which is NaN.  On
    [A 34, x 1, ... (66 times)] with A set to 1 every other entry is
    rounded up from 1.5 to 2, the total is 133 and the normalisation
    takes 33 from the first of them, leaving it at -31. *)
Theorem floor_not_preserved :
  let L := [entry "A" 100 "a"; entry "B" 0 "b"] in
  let M := entry "A" 34 "a" :: repeat (entry "x" 1 "c") 66 in
  (total L === #100)%js = true
  /\ percentage (nth 1 (updatePercentage L 0 (RawNumber 50)) no_object) = NaN
  /\ JS.ge (percentage (nth 1 (updatePercentage L 0 (RawNumber 50)) no_object))
           (#1)%js = false
  /\ (total M === #100)%js = true
  /\ updatePercentage M 0 (RawNumber 1)
     = entry "A" 1 "a" :: entry "x" (-31) "c" :: repeat (entry "x" 2 "c") 65.
Proof. vm_compute. repeat split; reflexivity. Qed.

(** C4: [normalizePercentages] and [updateLanguagePercentage] copy the
    array but not the objects in it, and write to the objects: the list
    the caller passed reads differently after the call. *)
Theorem input_list_is_mutated :
  let L := [entry "A" 50 "a"; entry "B" 30 "b"] in
  let M := [entry "A" 50 "a"; entry "B" 30 "b"; entry "C" 20 "c"] in
  snapshot normalizePercentages L = [entry "A" 70 "a"; entry "B" 30 "b"]
  /\ snapshot normalizePercentages L <> L
  /\ snapshot (fun h a => updateLanguagePercentage h a 0 (RawNumber 70)) M
     = [entry "A" 70 "a"; entry "B" 18 "b"; entry "C" 12 "c"]
  /\ snapshot (fun h a => updateLanguagePercentage h a 0 (RawNumber 70)) M <> M.
Proof. vm_compute. repeat split; try reflexivity; discriminate. Qed.

(** C5, as stated, fails on a list with no positive entry: the search
    starts from 0 and replaces only on a strictly greater percentage, so
    it finds no index, the guard [largestIndex >= 0] skips the
    adjustment, and the list comes back unchanged with its total of 0. *)
Lemma normalize_no_positive_entry :
  let L := [entry "A" 0 "a"; entry "B" 0 "b"] in
  (total L === #100)%js = false
  /\ normalize L = L
  /\ (total (normalize L) === #100)%js = false.
Proof. vm_compute. repeat split; reflexivity. Qed.

(** C6, as stated, fails when the current value lies outside [1, 99]:
    the value passed is clamped first, so asking for the current 0 of A
    in [A 0, B 100] sets A to 1 and B to 99. *)
Lemma update_to_current_value_outside_clamp :
  let L := [entry "A" 0 "a"; entry "B" 100 "b"] in
  percentage (nth 0 L no_object) = (#0)%js
  /\ updatePercentage L 0 (RawNumber 0) = [entry "A" 1 "a"; entry "B" 99 "b"]
  /\ updatePercentage L 0 (RawNumber 0) <> L.
Proof. vm_compute. repeat split; try reflexivity; discriminate. Qed.

End Failing_inputs.

(* ================================================================= *)
(** * normalize *)

Lemma largest_index_none ps : forall i j,
  (forall p, In p ps -> (p > #0)%js = false) ->
  fold_left (fun max curr => if (snd curr > snd max)%js then curr else max)
            (indexed i ps) (j, (#0)%js)
  = (j, (#0)%js).
Proof.
  induction ps as [|p ps IH]; intros i j H; [reflexivity|].
  cbn [indexed fold_left snd]. rewrite (H p (in_eq _ _)).
  apply IH. intros q Hq. apply H. right. exact Hq.
Qed.

(** A list with no entry above 0 is returned as it is, whatever its
    Numbers. *)
Lemma normalize_nothing_above_0 L :
  (forall p, In p (percentages L) -> (p > #0)%js = false) -> normalize L = L.
Proof.
  intros H. rewrite normalize_unfold. destruct L as [|x L']; [reflexivity|].
  destruct (_ === _)%js; [reflexivity|]. cbv zeta.
  unfold largest_index. rewrite (largest_index_none _ 0 (-1) H). reflexivity.
Qed.

Section Normalize.

Local Open Scope string_scope.
Local Open Scope Z_scope.

(** C5 (amended): on the empty list [normalize] returns the empty list;
    on a list of integer percentages totalling 100 it returns the list
    unchanged; on any other list with at least one entry above 0 it adds
    [100 - total] to exactly one entry, the first one holding the largest
    percentage, and the result sums to 100; on a list with no entry above
    0 it returns the list unchanged. *)
Theorem normalize_contract (L : list LanguageEntry) (zs : list Z) :
  integer_percentages L zs ->
  normalize [] = []
  /\ (Zsum zs = 100 -> normalize L = L)
  /\ (Zsum zs <> 100 -> (exists z, In z zs /\ 0 < z) ->
      exists k z,
        nth_error zs k = Some z
        /\ (forall y, In y zs -> y <= z)
        /\ (forall k' y, (k' < k)%nat -> nth_error zs k' = Some y -> y < z)
        /\ normalize L = set_percentage L k (#(z + (100 - Zsum zs)))%js
        /\ (total (normalize L) === #100)%js = true)
  /\ (Zsum zs <> 100 -> (forall z, In z zs -> z <= 0) -> normalize L = L).
Proof.
  intros H. split; [reflexivity|].
  destruct (normalize_integer L zs H)
    as [[E HL]|[(N & Hall & HL)|(N & k & z & Hk & Hz & Hmax & Hfirst & HL & Ht)]].
  - split; [intros _; exact HL|]. split; intros N; contradiction.
  - split; [intros E; contradiction|]. split.
    + intros _ (z & Hin & Hz). specialize (Hall z Hin). lia.
    + intros _ _. exact HL.
  - split; [intros E; contradiction|]. split.
    + intros _ _. exists k, z. auto.
    + intros _ Hall. specialize (Hall z (nth_error_In _ _ Hk)). lia.
Qed.

Lemma normalize_contract_witness :
  let L := [entry "A" 50 "a"; entry "B" 30 "b"] in
  integer_percentages L [50; 30]
  /\ exists k z,
        nth_error [50; 30] k = Some z
        /\ (forall y, In y [50; 30] -> y <= z)
        /\ (forall k' y, (k' < k)%nat -> nth_error [50; 30] k' = Some y -> y < z)
        /\ normalize L = set_percentage L k (#(z + (100 - Zsum [50; 30])))%js
        /\ (total (normalize L) === #100)%js = true.
Proof.
  intros L.
  assert (H : integer_percentages L [50; 30]).
  { split; [reflexivity|]. simpl. lia. }
  split; [exact H|].
  apply (normalize_contract L [50; 30] H).
  - simpl. lia.
  - exists 50. split; [left; reflexivity | lia].
Defined.

(** C8 (amended): [normalize] is idempotent on every list, of any
    Numbers, that it brings to a total of exactly 100, on every list with
    no entry above 0, and on every list of integer percentages. *)
Theorem normalize_idempotent (L : list LanguageEntry) :
  (total (normalize L) === #100)%js = true
  \/ (forall p, In p (percentages L) -> (p > #0)%js = false)
  \/ (exists zs, integer_percentages L zs) ->
  normalize (normalize L) = normalize L.
Proof.
  intros [Ht|[H0|(zs & H)]].
  - apply normalize_fixed. exact Ht.
  - rewrite (normalize_nothing_above_0 L H0). apply normalize_nothing_above_0. exact H0.
  - destruct (normalize_integer L zs H)
      as [[E HL]|[(N & Hall & HL)|(N & k & z & Hk & Hz & Hmax & Hfirst & HL & Ht)]].
    + rewrite HL. exact HL.
    + rewrite HL. exact HL.
    + apply normalize_fixed. exact Ht.
Qed.

Lemma normalize_idempotent_witness :
  let L := [entry "A" 50 "a"; entry "B" 30 "b"] in
  let halves z := (#z / #2)%js in
  let M := [ {| name := "A"; percentage := halves 101; color := "a" |};
             {| name := "B"; percentage := halves 61; color := "b" |} ] in
  integer_percentages L [50; 30]
  /\ normalize (normalize L) = normalize L
  /\ (total (normalize M) === #100)%js = true
  /\ normalize (normalize M) = normalize M.
Proof.
  intros L halves M.
  assert (H : integer_percentages L [50; 30]).
  { split; [reflexivity|]. simpl. lia. }
  assert (HM : (total (normalize M) === #100)%js = true) by reflexivity.
  split; [exact H|]. split; [|split; [exact HM|]].
  - apply (normalize_idempotent L). right. right. exists [50; 30]. exact H.
  - apply (normalize_idempotent M). left. exact HM.
Defined.

(** C8, as stated, fails on percentages with a decimal, such as
    [formatLanguageBreakdown] receives and returns: the sums are rounded.
    For 52.0, 33.4 and 14.3 the total is 99.7, the first entry becomes
    52.3, and the new total is the double just below 100; a second pass
    moves the first entry again. *)
Lemma normalize_one_decimal :
  let tenths z := (#z / #10)%js in
  let L := [ {| name := "A"; percentage := tenths 520; color := "a" |};
             {| name := "B"; percentage := tenths 334; color := "b" |};
             {| name := "C"; percentage := tenths 143; color := "c" |} ] in
  percentages (normalize L) = [tenths 523; tenths 334; tenths 143]
  /\ (total (normalize L) === #100)%js = false
  /\ normalize (normalize L) <> normalize L.
Proof. vm_compute. repeat split; try reflexivity; discriminate. Qed.

End Normalize.

(* ================================================================= *)
(** * The clamp of updateLanguagePercentage *)

(* ----------------------------------------------------------------- *)
(** ** Rounding never produces a zero from a non-zero mantissa *)

Lemma shr_1_m mrs : 0 <= shr_m mrs -> shr_m (shr_1 mrs) = shr_m mrs / 2.
Proof.
  destruct mrs as [m r s]. cbn [shr_m]. intros Hm.
  destruct m as [|[p|p|]|p]; cbn [shr_1 shr_m]; try lia.
  - reflexivity.
  - rewrite Pos2Z.inj_xI. apply Z.div_unique with (r := 1); lia.
  - rewrite Pos2Z.inj_xO. apply Z.div_unique with (r := 0); lia.
  - reflexivity.
Qed.

Lemma shr_iter_m p : forall mrs,
  0 <= shr_m mrs -> shr_m (iter_pos shr_1 p mrs) = shr_m mrs / 2 ^ Zpos p.
Proof.
  induction p as [p IH|p IH|]; intros mrs Hm; cbn [iter_pos].
  - assert (H1 : 0 <= shr_m (shr_1 mrs)) by (rewrite shr_1_m by lia; apply Z.div_pos; lia).
    assert (H2 : 0 <= shr_m (iter_pos shr_1 p (shr_1 mrs)))
      by (rewrite IH by lia; apply Z.div_pos; [lia | apply Z.pow_pos_nonneg; lia]).
    rewrite IH, IH, shr_1_m by lia.
    rewrite !Z.div_div by (try apply Z.pow_pos_nonneg; lia).
    f_equal. rewrite Pos2Z.inj_xI, Z.pow_add_r, Z.pow_mul_r by lia.
    change (2 ^ 2) with 4. change (2 ^ 1) with 2.
    replace (4 ^ Zpos p) with (2 ^ Zpos p * 2 ^ Zpos p)
      by (rewrite <- Z.pow_add_r by lia; change 4 with (2 ^ 2);
          rewrite <- Z.pow_mul_r by lia; f_equal; lia).
    ring.
  - assert (H2 : 0 <= shr_m (iter_pos shr_1 p mrs))
      by (rewrite IH by lia; apply Z.div_pos; [lia | apply Z.pow_pos_nonneg; lia]).
    rewrite IH, IH by lia.
    rewrite !Z.div_div by (try apply Z.pow_pos_nonneg; lia).
    f_equal. rewrite Pos2Z.inj_xO. rewrite <- Z.pow_add_r by lia. f_equal. lia.
  - rewrite shr_1_m by lia. reflexivity.
Qed.

Lemma shr_m_shift mrs e n :
  0 <= shr_m mrs -> 0 <= n ->
  shr_m (fst (shr mrs e n)) = shr_m mrs / 2 ^ n /\ snd (shr mrs e n) = e + n.
Proof.
  intros Hm Hn. destruct n as [|p|p]; cbn [shr fst snd]; try lia.
  - rewrite Z.div_1_r. lia.
  - rewrite shr_iter_m by lia. lia.
Qed.

Lemma round_nearest_even_range m l :
  m <= round_nearest_even m l <= m + 1.
Proof.
  destruct l as [|[| |]]; cbn [round_nearest_even]; try lia.
  destruct (Z.even m); lia.
Qed.

Lemma Zdigits2_bounds m : 0 < m -> 2 ^ (Zdigits2 m - 1) <= m < 2 ^ Zdigits2 m.
Proof.
  destruct m as [|p|p]; try lia. intros _. exact (digits_bounds p).
Qed.

(** Rounding a mantissa of 54 bits or more shifts it right: the result is
    finite with a larger exponent, or infinite; it keeps the sign. *)
Lemma binary_round_wide s n e :
  -1074 <= e -> 54 <= digits n ->
  (exists m e', binary_round prec emax s n e = S754_finite s m e' /\ e <= e')
  \/ binary_round prec emax s n e = S754_infinity s.
Proof.
  intros He Hd. pose proof (digits_bounds n) as [Hlo Hhi].
  unfold binary_round. fold (digits n).
  assert (Hf : fexp prec emax (digits n + e) = digits n + e - 53)
    by (unfold fexp, emin, prec, emax; lia).
  rewrite Hf, shl_align_ge by lia.
  unfold binary_round_aux, shr_fexp. cbn [Zdigits2]. fold (digits n).
  rewrite Hf. replace (digits n + e - 53 - e) with (digits n - 53) by lia.
  destruct (shr (shr_record_of_loc (Zpos n) loc_Exact) e (digits n - 53))
    as [mrs' e'] eqn:E1.
  pose proof (shr_m_shift (shr_record_of_loc (Zpos n) loc_Exact) e (digits n - 53)
                ltac:(cbn; lia) ltac:(lia)) as [Hm1 He1].
  rewrite E1 in Hm1, He1. cbn [fst snd shr_record_of_loc shr_m] in Hm1, He1.
  set (m1 := round_nearest_even (shr_m mrs') (loc_of_shr_record mrs')).
  pose proof (round_nearest_even_range (shr_m mrs') (loc_of_shr_record mrs')) as Hr.
  fold m1 in Hr.
  assert (Hq : 2 ^ 52 <= shr_m mrs' < 2 ^ 53).
  { rewrite Hm1.
    assert (Hp : 0 < 2 ^ (digits n - 53)) by (apply Z.pow_pos_nonneg; lia).
    assert (E52 : 2 ^ (digits n - 1) = 2 ^ 52 * 2 ^ (digits n - 53))
      by (rewrite <- Z.pow_add_r by lia; f_equal; lia).
    assert (E53 : 2 ^ digits n = 2 ^ 53 * 2 ^ (digits n - 53))
      by (rewrite <- Z.pow_add_r by lia; f_equal; lia).
    split.
    - apply Z.div_le_lower_bound; lia.
    - apply Z.div_lt_upper_bound; lia. }
  assert (Hm1pos : 0 < m1) by lia.
  pose proof (Zdigits2_bounds m1 Hm1pos) as [Hdlo Hdhi].
  assert (Hd1 : 53 <= Zdigits2 m1 <= 54).
  { split.
    - destruct (Z_lt_le_dec (Zdigits2 m1) 53) as [Hlt|]; [|assumption].
      assert (2 ^ Zdigits2 m1 <= 2 ^ 52) by (apply Z.pow_le_mono_r; lia). lia.
    - destruct (Z_lt_le_dec 54 (Zdigits2 m1)) as [Hlt|]; [|assumption].
      assert (2 ^ 54 <= 2 ^ (Zdigits2 m1 - 1)) by (apply Z.pow_le_mono_r; lia).
      assert (2 ^ 53 < 2 ^ 54) by (apply Z.pow_lt_mono_r; lia). lia. }
  assert (Hf2 : fexp prec emax (Zdigits2 m1 + e') - e' = Zdigits2 m1 - 53)
    by (unfold fexp, emin, prec, emax; lia).
  rewrite Hf2.
  destruct (shr (shr_record_of_loc m1 loc_Exact) e' (Zdigits2 m1 - 53))
    as [mrs'' e''] eqn:E2.
  pose proof (shr_m_shift (shr_record_of_loc m1 loc_Exact) e' (Zdigits2 m1 - 53)
                ltac:(cbn; lia) ltac:(lia)) as [Hm2 He2].
  rewrite E2 in Hm2, He2. cbn [fst snd shr_record_of_loc shr_m] in Hm2, He2.
  assert (Hm2pos : 0 < shr_m mrs'').
  { rewrite Hm2. apply Z.div_str_pos. split; [apply Z.pow_pos_nonneg; lia|].
    assert (2 ^ (Zdigits2 m1 - 53) <= 2 ^ (Zdigits2 m1 - 1))
      by (apply Z.pow_le_mono_r; lia). lia. }
  destruct (shr_m mrs'') as [|m2|m2]; try lia.
  destruct (e'' <=? emax - prec).
  - left. exists m2, e''. split; [reflexivity | lia].
  - right. reflexivity.
Qed.

(** A mantissa of at most 53 bits is only shifted left. *)
Lemma binary_round_narrow s n e :
  -1074 <= e -> digits n <= 53 ->
  (exists m e', binary_round prec emax s n e = S754_finite s m e')
  \/ binary_round prec emax s n e = S754_infinity s.
Proof.
  intros He Hd. pose proof (digits_pos n) as Hd1.
  unfold binary_round. fold (digits n).
  set (t := fexp prec emax (digits n + e)).
  assert (Ht : -1074 <= t <= e) by (unfold t, fexp, emin, prec, emax; lia).
  rewrite shl_align_le by lia.
  unfold binary_round_aux, shr_fexp. cbn [Zdigits2]. fold (digits (shl n (e - t))).
  rewrite shl_digits by lia.
  replace (digits n + (e - t) + t) with (digits n + e) by lia. fold t.
  rewrite Z.sub_diag.
  cbn [shr shr_record_of_loc shr_m loc_of_shr_record round_nearest_even Zdigits2].
  fold (digits (shl n (e - t))). rewrite shl_digits by lia.
  replace (digits n + (e - t) + t) with (digits n + e) by lia. fold t.
  rewrite Z.sub_diag. cbn [shr shr_m].
  destruct (t <=? emax - prec); [left; eauto | right; reflexivity].
Qed.

Lemma binary_round_nonzero s n e :
  -1074 <= e ->
  (exists m e', binary_round prec emax s n e = S754_finite s m e')
  \/ binary_round prec emax s n e = S754_infinity s.
Proof.
  intros He. destruct (Z_le_gt_dec (digits n) 53) as [Hd|Hd].
  - apply binary_round_narrow; assumption.
  - destruct (binary_round_wide s n e He ltac:(lia)) as [(m & e' & E & _)|E];
      [left; eauto | right; assumption].
Qed.

Lemma normalize_nonzero M e :
  -1074 <= e -> M <> 0 ->
  (binary_normalize prec emax M e false === #0)%js = false.
Proof.
  intros He HM. destruct M as [|m|m]; [congruence| |]; cbn [binary_normalize].
  - destruct (binary_round_nonzero false m e He) as [(m' & e' & ->)| ->]; reflexivity.
  - destruct (binary_round_nonzero true m e He) as [(m' & e' & ->)| ->]; reflexivity.
Qed.

Lemma valid_exponent m e :
  bounded prec emax m e = true ->
  fexp prec emax (digits m + e) = e /\ -1074 <= e.
Proof.
  unfold bounded, canonical_mantissa. intros H.
  apply andb_true_iff in H. destruct H as [H _]. apply Z.eqb_eq in H.
  fold (digits m) in H. split; [exact H|].
  rewrite <- H. unfold fexp, emin, prec, emax. lia.
Qed.

Lemma shl_inj m m' k : 0 <= k -> shl m k = shl m' k -> m = m'.
Proof.
  intros Hk E. apply (f_equal Zpos) in E. rewrite !shl_value in E by lia.
  assert (0 < 2 ^ k) by (apply Z.pow_pos_nonneg; lia).
  apply Pos2Z.inj. nia.
Qed.

(** [#v - p === 0] only when [p] is [#v], for a valid binary64 [p]. *)
Lemma sub_eq_zero v p :
  1 <= v <= 99 -> valid_binary prec emax p = true ->
  (#v - p === #0)%js = true -> p = (#v)%js.
Proof.
  intros Hv Hp.
  assert (H7 : 2 ^ 7 <= 2 ^ 53) by (apply Z.pow_le_mono_r; lia).
  assert (E7 : 2 ^ 7 = 128) by reflexivity.
  rewrite of_Z_canon by lia.
  destruct v as [|n|n]; try lia. cbn [canon].
  assert (Hd : digits n <= 53) by (apply digits_le_53; lia).
  pose proof (digits_pos n) as Hd1.
  set (mv := shl n (53 - digits n)). set (ev := digits n - 53).
  assert (Hdv : digits mv = 53) by (unfold mv; rewrite shl_digits by lia; lia).
  destruct p as [sp|sp| |sp mp ep]; unfold sub; cbn [SFsub].
  - intros H. discriminate H.
  - intros H. destruct sp; discriminate H.
  - intros H. discriminate H.
  - cbn [valid_binary] in Hp. destruct (valid_exponent mp ep Hp) as [Hc Hep].
    set (ez := Z.min ev ep).
    rewrite !shl_align_le by (unfold ez; lia). cbn [fst cond_Zopp].
    set (M := Zpos (shl mv (ev - ez)) - cond_Zopp sp (Zpos (shl mp (ep - ez)))).
    destruct (Z.eq_dec M 0) as [E0|N0].
    + intros _. unfold M in E0. destruct sp; cbn [cond_Zopp] in E0; [lia|].
      assert (Es : shl mv (ev - ez) = shl mp (ep - ez)) by (apply Pos2Z.inj; lia).
      assert (Ed : digits mv + ev = digits mp + ep).
      { apply (f_equal digits) in Es. rewrite !shl_digits in Es by (unfold ez; lia). lia. }
      assert (Ee : ev = ep).
      { rewrite <- Hc, <- Ed, Hdv. unfold ev, fexp, emin, prec, emax. lia. }
      subst ep. unfold ez in Es. rewrite Z.min_id, Z.sub_diag in Es.
      cbn [shl] in Es. subst mp. reflexivity.
    + intros H. rewrite normalize_nonzero in H; [discriminate H | unfold ez, ev; lia | exact N0].
Qed.

Lemma digits_ge_54 n : 2 ^ 53 <= Zpos n -> 54 <= digits n.
Proof.
  intros H. pose proof (digits_bounds n) as [_ Hhi].
  destruct (Z_lt_le_dec (digits n) 54) as [Hlt|]; [|assumption].
  assert (2 ^ digits n <= 2 ^ 53) by (apply Z.pow_le_mono_r; lia). lia.
Qed.

(* ----------------------------------------------------------------- *)
(** ** The clamp *)

Lemma Math_max_exact a b :
  safe a -> safe b -> Math_max (#a)%js (#b)%js = (#(Z.max a b))%js.
Proof.
  intros Ha Hb. unfold Math_max.
  rewrite (of_Z_canon a), (of_Z_canon b), compare_canon by assumption.
  destruct (Z.compare_spec a b) as [->|H|H].
  - rewrite Z.max_id, of_Z_canon by assumption. destruct b as [| |]; reflexivity.
  - rewrite Z.max_r, of_Z_canon by (lia || assumption). reflexivity.
  - rewrite Z.max_l, of_Z_canon by (lia || assumption). reflexivity.
Qed.

Lemma Math_min_exact a b :
  safe a -> safe b -> Math_min (#a)%js (#b)%js = (#(Z.min a b))%js.
Proof.
  intros Ha Hb. unfold Math_min.
  rewrite (of_Z_canon a), (of_Z_canon b), compare_canon by assumption.
  destruct (Z.compare_spec a b) as [->|H|H].
  - rewrite Z.min_id, of_Z_canon by assumption. destruct b as [| |]; reflexivity.
  - rewrite Z.min_l, of_Z_canon by (lia || assumption). reflexivity.
  - rewrite Z.min_r, of_Z_canon by (lia || assumption). reflexivity.
Qed.

Lemma or_zero_exact z : safe z -> or_zero (#z)%js = (#z)%js.
Proof.
  intros Hz. rewrite of_Z_canon by assumption. destruct z; reflexivity.
Qed.

Lemma one_canon : (#1)%js = S754_finite false 4503599627370496 (-52).
Proof. reflexivity. Qed.

Lemma ninety_nine_canon : (#99)%js = S754_finite false 6966505673588736 (-46).
Proof. reflexivity. Qed.

Lemma clamp_large_finite s m e :
  0 <= e ->
  Math_min (Math_max (or_zero (S754_finite s m e)) (#1)%js) (#99)%js
  = if s then (#1)%js else (#99)%js.
Proof.
  intros He. cbn [or_zero]. rewrite one_canon, ninety_nine_canon.
  unfold Math_max. cbn [SFcompare]. destruct s.
  - reflexivity.
  - replace (e ?= -52) with Gt by (symmetry; apply Z.compare_gt_iff; lia).
    unfold Math_min. cbn [SFcompare].
    replace (e ?= -46) with Gt by (symmetry; apply Z.compare_gt_iff; lia).
    reflexivity.
Qed.

Lemma clamp_large_infinite s :
  Math_min (Math_max (or_zero (S754_infinity s)) (#1)%js) (#99)%js
  = if s then (#1)%js else (#99)%js.
Proof. destruct s; reflexivity. Qed.

Lemma clamp_exact z :
  Math_min (Math_max (or_zero (#z)%js) (#1)%js) (#99)%js
  = (#(Z.min (Z.max z 1) 99))%js.
Proof.
  assert (H7 : 2 ^ 7 <= 2 ^ 53) by (apply Z.pow_le_mono_r; lia).
  assert (E7 : 2 ^ 7 = 128) by reflexivity.
  destruct (Z_lt_le_dec (Z.abs z) (2 ^ 53)) as [Hs|Hl].
  - rewrite or_zero_exact, Math_max_exact, Math_min_exact by (unfold safe; lia).
    reflexivity.
  - destruct z as [|n|n]; [lia| |].
    + assert (Hn : 2 ^ 53 <= Zpos n) by lia.
      replace (Z.min (Z.max (Zpos n) 1) 99) with 99 by lia.
      unfold of_Z at 1. cbn [binary_normalize].
      destruct (binary_round_wide false n 0 ltac:(lia) (digits_ge_54 n Hn))
        as [(m & e & -> & He)| ->].
      * apply (clamp_large_finite false m e He).
      * apply (clamp_large_infinite false).
    + assert (Hn : 2 ^ 53 <= Zpos n) by lia.
      replace (Z.min (Z.max (Zneg n) 1) 99) with 1 by lia.
      unfold of_Z at 1. cbn [binary_normalize].
      destruct (binary_round_wide true n 0 ltac:(lia) (digits_ge_54 n Hn))
        as [(m & e & -> & He)| ->].
      * apply (clamp_large_finite true m e He).
      * apply (clamp_large_infinite true).
Qed.

Lemma validate_exact v : validate v = (#(validated v))%js.
Proof.
  unfold validate, validated, parseInt.
  destruct (parseInt_integer v) as [z|]; [apply clamp_exact | reflexivity].
Qed.

(* ================================================================= *)
(** * updateLanguagePercentage and the guards *)

Section Update.

Local Open Scope string_scope.
Local Open Scope Z_scope.

Lemma validated_range v : 1 <= validated v <= 99.
Proof. unfold validated. lia. Qed.

(** C10: on a list of one entry, an edit whose clamped value differs from
    the current percentage is undone: the entry is set to the clamped
    value, there is no other entry to rescale, and the closing
    normalisation adds [100 - value] back to the only entry, which ends
    at 100.  The current percentage may be any binary64 value. *)
Theorem updatePercentage_single_entry (e : LanguageEntry) (v : raw) :
  valid_binary prec emax (percentage e) = true ->
  percentage e <> (#(validated v))%js ->
  updatePercentage [e] 0 v = [with_percentage e (#100)%js].
Proof.
  intros He Hv. pose proof (validated_range v) as Hr.
  assert (H7 : 2 ^ 7 <= 2 ^ 53) by (apply Z.pow_le_mono_r; lia).
  assert (E7 : 2 ^ 7 = 128) by reflexivity.
  unfold updatePercentage, run, updateLanguagePercentage.
  rewrite validate_exact.
  cbn -[JS.of_Z JS.add JS.sub JS.div JS.strict_eq JS.gt validated Math_max Math_round].
  change (pct [e] 0%nat) with (percentage e).
  destruct (#(validated v) - percentage e === #0)%js eqn:Ed.
  { exfalso. apply Hv. apply sub_eq_zero; assumption. }
  rewrite add_exact, strict_eq_exact by (unfold safe; lia).
  replace (0 + validated v =? 100) with false by (symmetry; apply Z.eqb_neq; lia).
  assert (Ek : largest_index [(#(validated v))%js] = 0).
  { unfold largest_index. cbn [indexed fold_left snd].
    rewrite gt_exact by (unfold safe; lia).
    replace (0 <? validated v) with true by (symmetry; apply Z.ltb_lt; lia).
    reflexivity. }
  rewrite Ek. cbn [Z.leb Z.compare Z.to_nat update_at view map deref nth].
  change (pct [with_percentage e (#(validated v))%js] 0%nat) with (#(validated v))%js.
  rewrite sub_exact, add_exact by (unfold safe; lia).
  unfold with_percentage. cbn [name color]. do 3 f_equal. lia.
Qed.

Lemma updatePercentage_single_entry_witness :
  updatePercentage [entry "A" 100 "a"] 0 (RawNumber 50) = [entry "A" 100 "a"].
Proof.
  apply (updatePercentage_single_entry (entry "A" 100 "a") (RawNumber 50)).
  - reflexivity.
  - vm_compute. discriminate.
Defined.

Lemma remove_guard (h : heap) (languages : array) (i : Z) :
  len languages <= 1 \/ i < 0 \/ len languages <= i ->
  removeLanguageWithRedistribution h languages i = (h, languages).
Proof.
  intros G. unfold removeLanguageWithRedistribution.
  replace ((len languages <=? 1) || (i <? 0) || (len languages <=? i)) with true;
    [reflexivity|].
  symmetry. rewrite !orb_true_iff, !Z.leb_le, Z.ltb_lt. tauto.
Qed.

Lemma update_guard (h : heap) (languages : array) (i : Z) (v : raw) :
  languages = [] \/ i < 0 \/ len languages <= i ->
  updateLanguagePercentage h languages i v = (h, languages).
Proof.
  intros G. unfold updateLanguagePercentage.
  replace ((len languages =? 0) || (i <? 0) || (len languages <=? i)) with true;
    [reflexivity|].
  symmetry. rewrite !orb_true_iff, Z.leb_le, Z.ltb_lt, Z.eqb_eq.
  destruct G as [->|[G|G]]; [left; left; reflexivity | tauto | tauto].
Qed.

Lemma update_same_value (h : heap) (languages : array) (i z : Z) :
  0 <= i < len languages ->
  pct h (nth (Z.to_nat i) languages O) = (#z)%js -> 1 <= z <= 99 ->
  updateLanguagePercentage h languages i (RawNumber z) = (h, languages).
Proof.
  intros Hi Hp Hz. unfold updateLanguagePercentage.
  replace ((len languages =? 0) || (i <? 0) || (len languages <=? i)) with false.
  2:{ symmetry. rewrite !orb_false_iff, Z.leb_gt, Z.ltb_ge, Z.eqb_neq. lia. }
  cbv zeta. rewrite Hp, validate_exact.
  replace (validated (RawNumber z)) with z by (unfold validated, parseInt_integer; lia).
  assert (H53 : 2 ^ 7 <= 2 ^ 53) by (apply Z.pow_le_mono_r; lia).
  rewrite sub_exact, strict_eq_exact by (unfold safe; lia).
  rewrite Z.sub_diag. reflexivity.
Qed.

(** On a list of distinct objects the guards give back the list. *)
Lemma guards_on_lists (L : list LanguageEntry) (i : Z) :
  ((len L <= 1 \/ i < 0 \/ len L <= i) -> removeEntry L i = L)
  /\ (forall v, (L = [] \/ i < 0 \/ len L <= i) -> updatePercentage L i v = L).
Proof.
  assert (Hlen : len (addresses L) = len L).
  { unfold len, addresses. rewrite length_seq. reflexivity. }
  split.
  - intros G. unfold removeEntry, run.
    rewrite remove_guard by (rewrite Hlen; exact G).
    apply view_addresses.
  - intros v G. unfold updatePercentage, run. rewrite update_guard.
    + apply view_addresses.
    + rewrite Hlen. destruct G as [->|G]; [left; reflexivity | right; exact G].
Qed.

(** C6 (amended): the guards return the input as it is, array and store:
    [removeLanguageWithRedistribution] when the list has at most one
    entry or the index is outside [0, length);
    [updateLanguagePercentage] when the list is empty or the index is out
    of range; and [updateLanguagePercentage] called with the current
    percentage of entry [i], when that percentage is an integer
    between 1 and 99. *)
Theorem noop_guards (h : heap) (languages : array) (i : Z) :
  ((len languages <= 1 \/ i < 0 \/ len languages <= i) ->
   removeLanguageWithRedistribution h languages i = (h, languages))
  /\ (forall v, (languages = [] \/ i < 0 \/ len languages <= i) ->
      updateLanguagePercentage h languages i v = (h, languages))
  /\ (forall z, 0 <= i < len languages ->
      pct h (nth (Z.to_nat i) languages O) = (#z)%js -> 1 <= z <= 99 ->
      updateLanguagePercentage h languages i (RawNumber z) = (h, languages)).
Proof.
  split; [|split].
  - apply remove_guard.
  - intros v. apply update_guard.
  - intros z. apply update_same_value.
Qed.

Lemma noop_guards_witness :
  let L := [entry "A" 50 "a"; entry "B" 30 "b"; entry "C" 20 "c"] in
  removeLanguageWithRedistribution L (addresses L) (-1) = (L, addresses L)
  /\ updateLanguagePercentage L (addresses L) 3 (RawNumber 10) = (L, addresses L)
  /\ updateLanguagePercentage L (addresses L) 1 (RawNumber 30) = (L, addresses L).
Proof.
  intros L. split; [|split].
  - apply (proj1 (noop_guards L (addresses L) (-1))). right. left. lia.
  - apply (proj1 (proj2 (noop_guards L (addresses L) 3))). right. right.
    vm_compute. discriminate.
  - apply (proj2 (proj2 (noop_guards L (addresses L) 1)) 30).
    + vm_compute. split; [discriminate | reflexivity].
    + reflexivity.
    + lia.
Defined.

End Update.

(* ================================================================= *)
(** * formatLanguageBreakdown *)

(* ----------------------------------------------------------------- *)
(** ** Sorting *)

Lemma insert_sorted_perm {A : Type} (after : A -> A -> bool) x l :
  Permutation (insert_sorted after x l) (x :: l).
Proof.
  induction l as [|y l IH]; simpl; [reflexivity|].
  destruct (after x y); [|reflexivity].
  rewrite IH. apply perm_swap.
Qed.

Lemma sort_by_perm {A : Type} (after : A -> A -> bool) l :
  Permutation (sort_by after l) l.
Proof.
  induction l as [|x l IH]; simpl; [reflexivity|].
  rewrite insert_sorted_perm. constructor. exact IH.
Qed.

Lemma insert_sorted_map {A B : Type} (f : A -> B) after after' x l :
  (forall y, In y l -> after' (f x) (f y) = after x y) ->
  insert_sorted after' (f x) (map f l) = map f (insert_sorted after x l).
Proof.
  induction l as [|y l IH]; intros H; simpl; [reflexivity|].
  rewrite (H y (in_eq _ _)). destruct (after x y); simpl; [|reflexivity].
  f_equal. apply IH. intros; apply H; right; assumption.
Qed.

Lemma sort_by_map {A B : Type} (f : A -> B) after after' l :
  (forall x y, In x l -> In y l -> after' (f x) (f y) = after x y) ->
  sort_by after' (map f l) = map f (sort_by after l).
Proof.
  induction l as [|x l IH]; intros H; simpl; [reflexivity|].
  rewrite IH by (intros; apply H; right; assumption).
  apply insert_sorted_map. intros y Hy. apply H; [left; reflexivity|].
  right. apply (Permutation_in _ (sort_by_perm after l)). exact Hy.
Qed.

Lemma insert_smaller_sorted x l :
  StronglySorted (fun a b => snd b <= snd a) l ->
  StronglySorted (fun a b => snd b <= snd a) (insert_sorted smaller x l).
Proof.
  induction l as [|y l IH]; intros Hs; simpl.
  - constructor; constructor.
  - inversion Hs as [|? ? Hl Hy]; subst. unfold smaller at 1.
    destruct (Z.ltb_spec (snd x) (snd y)) as [Hlt|Hge].
    + constructor; [apply IH; assumption|].
      apply Forall_forall. intros b Hb.
      apply (Permutation_in _ (insert_sorted_perm smaller x l)) in Hb.
      destruct Hb as [<-|Hb]; [lia|]. rewrite Forall_forall in Hy. auto.
    + constructor; [assumption|].
      constructor; [assumption|].
      rewrite Forall_forall in *. intros b Hb. specialize (Hy b Hb). lia.
Qed.

Lemma sort_smaller_sorted l :
  StronglySorted (fun a b => snd b <= snd a) (sort_by smaller l).
Proof.
  induction l as [|x l IH]; simpl; [constructor|].
  apply insert_smaller_sorted. exact IH.
Qed.

Lemma by_percentage_desc_exact a b :
  safe (2 * snd a) -> safe (2 * snd b) ->
  by_percentage_desc (stat a) (stat b) = smaller a b.
Proof.
  unfold safe. intros Ha Hb. unfold by_percentage_desc, smaller, stat. cbn [snd].
  rewrite sub_exact, gt_exact by (unfold safe; lia).
  destruct (Z.ltb_spec 0 (snd b - snd a)), (Z.ltb_spec (snd a) (snd b)); lia || reflexivity.
Qed.

(* ----------------------------------------------------------------- *)
(** ** formatLanguageBreakdown on the store *)

Lemma alloc_all_app langs : forall h,
  alloc_all h langs = (h ++ langs, seq (length h) (length langs)).
Proof.
  induction langs as [|lang rest IH]; intros h; simpl.
  - rewrite app_nil_r. reflexivity.
  - rewrite IH, <- app_assoc, length_app, Nat.add_1_r. reflexivity.
Qed.

Lemma index_of_seq r n : forall s i,
  (s <= r < s + n)%nat -> index_of r i (seq s n) = i + Z.of_nat (r - s).
Proof.
  induction n as [|n IH]; intros s i H; [lia|]. simpl.
  destruct (Nat.eqb_spec s r) as [->|Hne].
  - rewrite Nat.sub_diag. simpl. lia.
  - rewrite IH by lia. replace (r - s)%nat with (S (r - S s)) by lia. lia.
Qed.

(** The reduction over objects finds the index that the reduction over
    [(index, percentage)] pairs finds. *)
Lemma largest_language_fold h suf : forall pre max,
  h = pre ++ suf ->
  found h (fold_left
             (fun max lang =>
                let max_percentage :=
                  match max with Some r => pct h r | None => (#0)%js end in
                if (pct h lang > max_percentage)%js then Some lang else max)
             (seq (length pre) (length suf)) max)
  = fold_left (fun max curr => if (snd curr > snd max)%js then curr else max)
              (indexed (len pre) (percentages suf)) (found h max).
Proof.
  induction suf as [|x suf IH]; intros pre max Hh; [reflexivity|].
  cbn [length seq fold_left percentages map indexed].
  assert (Hx : pct h (length pre) = percentage x).
  { unfold pct, deref. rewrite Hh, app_nth2, Nat.sub_diag by lia. reflexivity. }
  specialize (IH (pre ++ [x])).
  rewrite length_app, Nat.add_1_r in IH.
  replace (len (pre ++ [x])) with (len pre + 1) in IH
    by (unfold len; rewrite length_app; simpl; lia).
  rewrite IH by (rewrite <- app_assoc; exact Hh).
  f_equal. rewrite Hx. cbn [snd].
  replace (snd (found h max))
    with (match max with Some r => pct h r | None => (#0)%js end)
    by (destruct max; reflexivity).
  destruct (percentage x > _)%js; [|reflexivity].
  unfold found, len. rewrite Hx. reflexivity.
Qed.

Lemma largest_language_index L :
  found L (largest_language L (addresses L))
  = fold_left (fun max curr => if (snd curr > snd max)%js then curr else max)
              (indexed 0 (percentages L)) (-1, (#0)%js).
Proof.
  exact (largest_language_fold L L [] None eq_refl).
Qed.

(** [formatLanguageBreakdown] closes with the correction of
    [normalizePercentages]. *)
Lemma formatBreakdown_normalize languageStats languageColors :
  formatBreakdown languageStats languageColors
  = normalize (map (format_entry languageColors)
                   (firstn 6 (sort_by by_percentage_desc languageStats))).
Proof.
  unfold formatBreakdown, formatLanguageBreakdown.
  destruct languageStats as [|s0 rest]; [reflexivity|].
  set (L := map _ (firstn 6 _)).
  rewrite alloc_all_app. cbn [app length]. fold (addresses L).
  rewrite total_addresses, normalize_unfold.
  destruct L as [|x L'] eqn:EL; [reflexivity|]. rewrite <- EL.
  replace (0 <? len (addresses L)) with true.
  2:{ symmetry. apply Z.ltb_lt. unfold len, addresses. rewrite length_seq, EL. simpl. lia. }
  destruct (total L === #100)%js; cbn [negb andb]; [apply view_addresses|].
  pose proof (largest_language_index L) as Hf.
  pose proof (largest_index_range (percentages L)) as Hr.
  unfold largest_index in *. cbv zeta.
  destruct (largest_language L (addresses L)) as [r|]; cbn [found] in Hf;
    rewrite <- Hf in *; cbn [fst] in *.
  - assert (Hlt : (r < length L)%nat).
    { unfold len, percentages in Hr. rewrite length_map in Hr. lia. }
    assert (Ei : index_of r 0 (addresses L) = Z.of_nat r).
    { unfold addresses. rewrite index_of_seq by lia. lia. }
    rewrite !Ei.
    replace (Z.of_nat r =? -1) with false by (symmetry; apply Z.eqb_neq; lia).
    replace (0 <=? Z.of_nat r) with true by (symmetry; apply Z.leb_le; lia).
    rewrite Nat2Z.id, nth_addresses by assumption.
    apply view_set_percentage.
  - apply view_addresses.
Qed.

Lemma Zsum_abs_perm l l' : Permutation l l' -> Zsum_abs l = Zsum_abs l'.
Proof. induction 1; simpl; lia. Qed.

Lemma Zsum_abs_firstn l : forall n, Zsum_abs (firstn n l) <= Zsum_abs l.
Proof.
  induction l as [|x l IH]; intros [|n]; simpl; try lia.
  - pose proof (Zsum_abs_nonneg l). lia.
  - specialize (IH n). lia.
Qed.

Lemma In_firstn {A : Type} (x : A) n l : In x (firstn n l) -> In x l.
Proof.
  intros H. rewrite <- (firstn_skipn n l). apply in_or_app. left. exact H.
Qed.

Lemma names_set_percentage L k p :
  map name (set_percentage L k p) = map name L
  /\ map color (set_percentage L k p) = map color L.
Proof.
  unfold set_percentage. revert k.
  induction L as [|x L IH]; intros [|k]; simpl; auto.
  destruct (IH k) as [-> ->]. auto.
Qed.

Lemma normalize_names L :
  map name (normalize L) = map name L /\ map color (normalize L) = map color L.
Proof.
  rewrite normalize_unfold. destruct L as [|x L']; [auto|].
  destruct (_ === _)%js; [auto|]. cbv zeta.
  destruct (0 <=? _); [apply names_set_percentage | auto].
Qed.

(* ----------------------------------------------------------------- *)
(** ** The order of finite Numbers *)

Lemma bounded_shape m e :
  bounded prec emax m e = true ->
  -1074 <= e /\ digits m <= 53 /\ (e = -1074 \/ digits m = 53).
Proof.
  intros H. destruct (valid_exponent m e H) as [Hc He].
  unfold fexp, emin, prec, emax in Hc. lia.
Qed.

Lemma mantissa_compare m1 e1 m2 e2 :
  bounded prec emax m1 e1 = true -> bounded prec emax m2 e2 = true ->
  match e1 ?= e2 with
  | Lt => Lt
  | Gt => Gt
  | Eq => Pos.compare_cont Eq m1 m2
  end = (Zpos m1 * 2 ^ (e1 + 1074) ?= Zpos m2 * 2 ^ (e2 + 1074)).
Proof.
  intros H1 H2.
  destruct (bounded_shape m1 e1 H1) as (A1 & B1 & C1).
  destruct (bounded_shape m2 e2 H2) as (A2 & B2 & C2).
  pose proof (digits_bounds m1) as [L1 U1]. pose proof (digits_bounds m2) as [L2 U2].
  assert (P53 : 2 ^ 53 = 2 * 2 ^ 52) by reflexivity.
  assert (W : forall a b, 0 <= a < b -> 2 ^ b = 2 ^ a * 2 ^ (b - a) /\ 0 < 2 ^ a /\ 2 <= 2 ^ (b - a)).
  { intros a b Hab. split; [|split].
    - rewrite <- Z.pow_add_r by lia. f_equal. lia.
    - apply Z.pow_pos_nonneg; lia.
    - change 2 with (2 ^ 1) at 1. apply Z.pow_le_mono_r; lia. }
  assert (D : forall m, digits m <= 53 -> Zpos m < 2 ^ 53).
  { intros m Hm. pose proof (digits_bounds m) as [_ U].
    assert (2 ^ digits m <= 2 ^ 53) by (apply Z.pow_le_mono_r; [lia|exact Hm]). lia. }
  destruct (Z.compare_spec e1 e2) as [E|E|E].
  - subst e2. change (Pos.compare_cont Eq m1 m2) with (Zpos m1 ?= Zpos m2).
    apply Zmult_compare_compat_r. apply Z.lt_gt, Z.pow_pos_nonneg; lia.
  - symmetry. apply Z.compare_lt_iff.
    destruct (W (e1 + 1074) (e2 + 1074) ltac:(lia)) as (E2 & Pa & Pb).
    assert (digits m2 = 53) by lia.
    assert (2 ^ 52 <= Zpos m2) by (replace 52 with (digits m2 - 1) by lia; exact L2).
    pose proof (D m1 B1). rewrite E2. nia.
  - symmetry. apply Z.compare_gt_iff.
    destruct (W (e2 + 1074) (e1 + 1074) ltac:(lia)) as (E2 & Pa & Pb).
    assert (digits m1 = 53) by lia.
    assert (2 ^ 52 <= Zpos m1) by (replace 52 with (digits m1 - 1) by lia; exact L1).
    pose proof (D m2 B2). rewrite E2. nia.
Qed.

Lemma scaled_sign s m e :
  -1074 <= e ->
  (s = true -> scaled (S754_finite s m e) < 0)
  /\ (s = false -> 0 < scaled (S754_finite s m e)).
Proof.
  intros He. assert (0 < 2 ^ (e + 1074)) by (apply Z.pow_pos_nonneg; lia).
  cbn [scaled]. split; intros ->; cbn [cond_Zopp]; lia.
Qed.

Lemma compare_scaled x y :
  finite x = true -> finite y = true ->
  SFcompare x y = Some (scaled x ?= scaled y).
Proof.
  intros Hx Hy.
  destruct x as [sx|sx| |sx mx ex], y as [sy|sy| |sy my ey];
    try discriminate; cbn [finite] in Hx, Hy.
  - reflexivity.
  - destruct (bounded_shape my ey Hy) as (A & _).
    destruct (scaled_sign sy my ey A) as [N P]. cbn [SFcompare]. f_equal.
    change (scaled (S754_zero sx)) with 0.
    destruct sy; symmetry; [apply Z.compare_gt_iff, N|apply Z.compare_lt_iff, P]; reflexivity.
  - destruct (bounded_shape mx ex Hx) as (A & _).
    destruct (scaled_sign sx mx ex A) as [N P]. cbn [SFcompare]. f_equal.
    change (scaled (S754_zero sy)) with 0.
    destruct sx; symmetry; [apply Z.compare_lt_iff, N|apply Z.compare_gt_iff, P]; reflexivity.
  - destruct (bounded_shape mx ex Hx) as (Ax & _).
    destruct (bounded_shape my ey Hy) as (Ay & _).
    destruct (scaled_sign sx mx ex Ax) as [Nx Px].
    destruct (scaled_sign sy my ey Ay) as [Ny Py].
    cbn [SFcompare]. f_equal.
    destruct sx, sy.
    + cbn [scaled cond_Zopp]. rewrite Z.compare_opp.
      rewrite <- (mantissa_compare my ey mx ex Hy Hx).
      rewrite (Z.compare_antisym ex ey).
      destruct (ex ?= ey); cbn [CompOpp]; try reflexivity.
      rewrite (Pos.compare_cont_antisym). reflexivity.
    + symmetry. apply Z.compare_lt_iff. specialize (Nx eq_refl). specialize (Py eq_refl). lia.
    + symmetry. apply Z.compare_gt_iff. specialize (Px eq_refl). specialize (Ny eq_refl). lia.
    + cbn [scaled cond_Zopp]. apply mantissa_compare; assumption.
Qed.

Lemma gt_scaled x y :
  finite x = true -> finite y = true -> (x > y)%js = (scaled y <? scaled x).
Proof.
  intros Hx Hy. unfold gt, SFltb. rewrite (compare_scaled y x Hy Hx).
  unfold Z.ltb. reflexivity.
Qed.

Lemma ge_scaled x y :
  finite x = true -> finite y = true -> JS.ge x y = (scaled y <=? scaled x).
Proof.
  intros Hx Hy. unfold ge, SFleb. rewrite (compare_scaled y x Hy Hx).
  unfold Z.leb. destruct (scaled y ?= scaled x); reflexivity.
Qed.

Lemma scaled_finite s m e :
  scaled (S754_finite s m e) = cond_Zopp s (Zpos m) * 2 ^ (e + 1074).
Proof. cbn [scaled]. destruct s; cbn [cond_Zopp]; ring. Qed.

(** The sign of a difference is that of the exact difference: rounding
    never moves a non-zero value to zero or across it. *)
Lemma sub_sign x y :
  finite x = true -> finite y = true ->
  (x - y > #0)%js = (scaled y <? scaled x).
Proof.
  intros Hx Hy.
  destruct x as [sx|sx| |sx mx ex], y as [sy|sy| |sy my ey];
    try discriminate; cbn [finite] in Hx, Hy.
  - destruct sx, sy; reflexivity.
  - destruct (bounded_shape my ey Hy) as (A & _).
    destruct (scaled_sign sy my ey A) as [N P].
    change (scaled (S754_zero sx)) with 0.
    destruct sy.
    + transitivity true; [reflexivity|]. symmetry. apply Z.ltb_lt, N. reflexivity.
    + transitivity false; [reflexivity|]. symmetry. apply Z.ltb_ge.
      specialize (P eq_refl). lia.
  - destruct (bounded_shape mx ex Hx) as (A & _).
    destruct (scaled_sign sx mx ex A) as [N P].
    change (scaled (S754_zero sy)) with 0.
    destruct sx.
    + transitivity false; [reflexivity|]. symmetry. apply Z.ltb_ge.
      specialize (N eq_refl). lia.
    + transitivity true; [reflexivity|]. symmetry. apply Z.ltb_lt, P. reflexivity.
  - destruct (bounded_shape mx ex Hx) as (Ax & _).
    destruct (bounded_shape my ey Hy) as (Ay & _).
    unfold sub. cbn [SFsub]. set (ez := Z.min ex ey).
    rewrite !shl_align_le by (unfold ez; lia). cbn [fst].
    rewrite !cond_Zopp_shl by (unfold ez; lia).
    set (M := cond_Zopp sx (Zpos mx) * 2 ^ (ex - ez) - cond_Zopp sy (Zpos my) * 2 ^ (ey - ez)).
    assert (Hez : -1074 <= ez) by (unfold ez; lia).
    assert (P : 0 < 2 ^ (ez + 1074)) by (apply Z.pow_pos_nonneg; lia).
    assert (EM : M * 2 ^ (ez + 1074)
                 = scaled (S754_finite sx mx ex) - scaled (S754_finite sy my ey)).
    { rewrite !scaled_finite. unfold M. rewrite Z.mul_sub_distr_r.
      rewrite <- !Z.mul_assoc, <- !Z.pow_add_r by (unfold ez; lia).
      f_equal; f_equal; f_equal; lia. }
    destruct M as [|p|p]; cbn [binary_normalize].
    + symmetry. apply Z.ltb_ge. lia.
    + transitivity true; [|symmetry; apply Z.ltb_lt; lia].
      destruct (binary_round_nonzero false p ez Hez) as [(m' & e' & ->)| ->]; reflexivity.
    + transitivity false; [|symmetry; apply Z.ltb_ge; lia].
      destruct (binary_round_nonzero true p ez Hez) as [(m' & e' & ->)| ->]; reflexivity.
Qed.

Lemma of_Z_finite z : safe z -> finite (#z)%js = true.
Proof.
  intros Hz. rewrite of_Z_canon by assumption. unfold safe in Hz.
  destruct z as [|n|n]; [reflexivity| |];
    cbn [canon finite]; unfold bounded, canonical_mantissa;
    fold (digits (shl n (53 - digits n)));
    pose proof (digits_pos n);
    assert (digits n <= 53) by (apply digits_le_53; cbn [Z.abs] in Hz; lia);
    rewrite shl_digits by lia;
    apply andb_true_iff; split;
    [apply Z.eqb_eq; unfold fexp, emin, prec, emax; lia
    |apply Z.leb_le; unfold prec, emax; lia
    |apply Z.eqb_eq; unfold fexp, emin, prec, emax; lia
    |apply Z.leb_le; unfold prec, emax; lia].
Qed.

(* ----------------------------------------------------------------- *)
(** ** Sorting finite Numbers *)

Lemma by_percentage_desc_scaled a b :
  finite (snd a) = true -> finite (snd b) = true ->
  smaller (key a) (key b) = by_percentage_desc a b.
Proof.
  intros Ha Hb. unfold by_percentage_desc, smaller, key. cbn [snd].
  symmetry. apply sub_sign; assumption.
Qed.

Lemma sort_by_key l :
  (forall np, In np l -> finite (snd np) = true) ->
  sort_by smaller (map key l) = map key (sort_by by_percentage_desc l).
Proof.
  intros H. apply sort_by_map. intros x y Hx Hy.
  apply by_percentage_desc_scaled; auto.
Qed.

Lemma descending_scaled l :
  (forall np, In np l -> finite (snd np) = true) ->
  StronglySorted (fun a b => snd b <= snd a) (map key l) ->
  descending (map snd l).
Proof.
  unfold descending.
  induction l as [|x l IH]; intros Hf Hs; cbn [map]; [constructor|].
  cbn [map] in Hs. inversion Hs as [|? ? Hl Hx]; subst.
  constructor; [apply IH; auto using in_cons|].
  rewrite Forall_forall in *. intros p Hp.
  apply in_map_iff in Hp. destruct Hp as (y & <- & Hy).
  rewrite ge_scaled by auto using in_eq, in_cons.
  apply Z.leb_le. apply (Hx (key y)). apply in_map. exact Hy.
Qed.

Lemma sort_by_descending l :
  (forall np, In np l -> finite (snd np) = true) ->
  descending (map snd (sort_by by_percentage_desc l)).
Proof.
  intros H. apply descending_scaled.
  - intros np Hnp. apply H. apply (Permutation_in _ (sort_by_perm by_percentage_desc l)). exact Hnp.
  - rewrite <- sort_by_key by assumption. apply sort_smaller_sorted.
Qed.

Lemma descending_firstn ps : forall n, descending ps -> descending (firstn n ps).
Proof.
  unfold descending.
  induction ps as [|p ps IH]; intros [|n] H; cbn [firstn]; try constructor.
  - inversion H; subst. apply IH. assumption.
  - inversion H as [|? ? _ Hp]; subst. rewrite Forall_forall in *.
    intros y Hy. apply Hp. apply (In_firstn y n). exact Hy.
Qed.

Lemma ge_trans x y z :
  finite x = true -> finite y = true -> finite z = true ->
  JS.ge x y = true -> JS.ge y z = true -> JS.ge x z = true.
Proof.
  intros Hx Hy Hz Hxy Hyz.
  rewrite ge_scaled in * by assumption.
  apply Z.leb_le. apply Z.leb_le in Hxy, Hyz. lia.
Qed.

Lemma largest_index_scaled ps : forall i j x,
  finite x = true -> (forall p, In p ps -> finite p = true) ->
  fst (fold_left (fun max curr => if (snd curr > snd max)%js then curr else max)
                 (indexed i ps) (j, x))
  = fst (largest_index_Z i (map scaled ps) (j, scaled x)).
Proof.
  unfold largest_index_Z.
  induction ps as [|p ps IH]; intros i j x Hx Hps; [reflexivity|].
  cbn [map indexed fold_left snd].
  rewrite gt_scaled by auto using in_eq.
  destruct (scaled x <? scaled p); apply IH; auto using in_cons, in_eq.
Qed.

(** In a descending list of finite Numbers the search finds the first
    entry, or nothing when that entry is not above 0. *)
Lemma largest_index_descending p0 rest :
  (forall p, In p (p0 :: rest) -> finite p = true) ->
  descending (p0 :: rest) ->
  largest_index (p0 :: rest) = if (p0 > #0)%js then 0 else -1.
Proof.
  intros Hf Hs. unfold largest_index.
  rewrite (largest_index_scaled (p0 :: rest) 0 (-1) (#0)%js eq_refl Hf).
  rewrite gt_scaled by (auto using in_eq).
  change (scaled (#0)%js) with 0.
  inversion Hs as [|? ? _ Hp0]; subst. rewrite Forall_forall in Hp0.
  destruct (largest_index_Z_spec (map scaled (p0 :: rest)) 0 (-1) 0)
    as [[Hall E]|(k & z & Hk & E & Hz & Hall & Hbefore)]; rewrite E; cbn [fst].
  - specialize (Hall (scaled p0) (in_eq _ _)).
    destruct (Z.ltb_spec 0 (scaled p0)); [lia|reflexivity].
  - destruct k as [|k].
    + cbn in Hk. injection Hk as <-.
      destruct (Z.ltb_spec 0 (scaled p0)); [reflexivity|lia].
    + exfalso. pose proof (Hbefore O (scaled p0) ltac:(lia) eq_refl) as Hlt.
      cbn [map nth_error] in Hk. apply nth_error_In in Hk.
      apply in_map_iff in Hk. destruct Hk as (y & <- & Hy).
      specialize (Hp0 y Hy). rewrite ge_scaled in Hp0 by auto using in_eq, in_cons.
      apply Z.leb_le in Hp0. lia.
Qed.

(** The percentages [normalize] returns for a descending list of finite
    Numbers. *)
Lemma normalize_descending L p0 rest :
  percentages L = p0 :: rest ->
  (forall p, In p (p0 :: rest) -> finite p = true) ->
  descending (p0 :: rest) ->
  percentages (normalize L)
  = (if (total L === #100)%js || negb (p0 > #0)%js then p0
     else (p0 + (#100 - total L))%js) :: rest.
Proof.
  intros E Hf Hs. rewrite normalize_unfold.
  destruct L as [|x L']; [discriminate|]. set (L := x :: L') in *.
  destruct (total L === #100)%js; cbn [orb]; [exact E|].
  cbv zeta. rewrite E, (largest_index_descending p0 rest Hf Hs).
  destruct (p0 > #0)%js; cbn [negb]; [|exact E].
  change (0 <=? 0) with true. cbv iota. change (Z.to_nat 0) with O.
  rewrite percentages_set, E.
  assert (Ep : pct L O = p0).
  { unfold L in *. cbn [percentages map] in E. injection E as E _. exact E. }
  rewrite Ep. reflexivity.
Qed.

Lemma descending_head x y ps : descending (x :: y :: ps) -> JS.ge x y = true.
Proof.
  intros H. inversion H as [|? ? _ Hf]; subst.
  inversion Hf; subst. assumption.
Qed.

Section Format.

Local Open Scope string_scope.
Local Open Scope Z_scope.

(** C9, as stated, fails when no kept entry is above 0: the search finds
    only its initial object, [indexOf] answers -1 and nothing is
    adjusted. *)
Lemma formatBreakdown_no_positive_entry :
  let result := formatBreakdown [("A", (#0)%js)] (fun _ => None) in
  result = [ {| name := "A"; percentage := (#0)%js; color := "lang-other" |} ]
  /\ (total result === #100)%js = false.
Proof. vm_compute. split; reflexivity. Qed.

(** With percentages of one decimal, as [fetchLanguageStats] produces
    them, the adjusted list need not sum to 100 either: for 52.0, 33.4
    and 14.3 the total is 99.7, the first entry becomes 52.3 and the sum
    of the result is the double just below 100. *)
Lemma formatBreakdown_one_decimal :
  let tenths z := (#z / #10)%js in
  let result :=
    formatBreakdown [("A", tenths 520); ("B", tenths 334); ("C", tenths 143)]
                    (fun _ => None) in
  percentages result = [tenths 523; tenths 334; tenths 143]
  /\ (total result === #100)%js = false
  /\ (#100 > total result)%js = true.
Proof. vm_compute. repeat split; reflexivity. Qed.

(** On integer percentages: the entries are sorted by descending
    percentage and the first six are kept; if the kept percentages total
    100, or if the largest is not above 0, they are returned as they are;
    otherwise the first entry, which holds the largest percentage,
    receives [100 - total] and the result sums to 100. *)
Lemma formatBreakdown_integers
    (zstats : list (string * Z)) (languageColors : string -> option string) :
  zstats <> [] -> Zsum_abs (map snd zstats) < 2 ^ 50 ->
  let sorted := sort_by smaller zstats in
  let top := firstn 6 sorted in
  let t := Zsum (map snd top) in
  let result := formatBreakdown (map stat zstats) languageColors in
  Permutation sorted zstats
  /\ StronglySorted (fun a b => snd b <= snd a) sorted
  /\ length result = Nat.min 6 (length zstats)
  /\ map name result = map fst top
  /\ map color result = map (fun nz => color_of languageColors (fst nz)) top
  /\ (t = 100 -> percentages result = map JS.of_Z (map snd top))
  /\ (t <> 100 -> forall n z rest, top = (n, z) :: rest ->
      (0 < z ->
       percentages result = (#(z + (100 - t)))%js :: map JS.of_Z (map snd rest)
       /\ (total result === #100)%js = true)
      /\ (z <= 0 -> percentages result = map JS.of_Z (map snd top))).
Proof.
  intros Hne Hb sorted top t result.
  assert (Hperm : Permutation sorted zstats) by apply sort_by_perm.
  assert (Hsorted : StronglySorted (fun a b => snd b <= snd a) sorted)
    by apply sort_smaller_sorted.
  assert (H51 : 2 ^ 50 * 8 = 2 ^ 53) by reflexivity.
  assert (Hsafe : forall x, In x zstats -> safe (2 * snd x)).
  { intros x Hx. pose proof (In_abs_le (snd x) _ (in_map snd _ _ Hx)). unfold safe. lia. }
  set (L := map (format_entry languageColors) (map stat top)).
  assert (HL : result = normalize L).
  { unfold result. rewrite formatBreakdown_normalize.
    rewrite (sort_by_map stat smaller by_percentage_desc)
      by (intros; apply by_percentage_desc_exact; auto).
    rewrite firstn_map. reflexivity. }
  assert (Hp : percentages L = map JS.of_Z (map snd top)).
  { unfold L, percentages. rewrite !map_map. reflexivity. }
  assert (Hn : map name L = map fst top).
  { unfold L. rewrite !map_map. reflexivity. }
  assert (Hc : map color L = map (fun nz => color_of languageColors (fst nz)) top).
  { unfold L. rewrite !map_map. reflexivity. }
  assert (Hint : integer_percentages L (map snd top)).
  { split; [exact Hp|]. unfold top. rewrite <- firstn_map.
    pose proof (Zsum_abs_firstn (map snd sorted) 6).
    rewrite (Zsum_abs_perm _ _ (Permutation_map snd Hperm)) in *. lia. }
  destruct (normalize_names L) as [Hnn Hnc].
  assert (Hhead : forall n z rest b,
             top = (n, z) :: rest -> In b rest -> snd b <= z).
  { intros n z rest b Htop Hb'. unfold top in Htop.
    destruct sorted as [|s0 srest]; [discriminate|].
    simpl in Htop. injection Htop as -> <-.
    inversion Hsorted as [|? ? _ Hf]; subst. rewrite Forall_forall in Hf.
    apply (Hf b). apply (In_firstn b 5). exact Hb'. }
  split; [exact Hperm|]. split; [exact Hsorted|].
  split.
  { rewrite <- (length_map name), HL, Hnn, Hn, length_map. unfold top.
    rewrite length_firstn, (Permutation_length Hperm). reflexivity. }
  split; [rewrite HL, Hnn; exact Hn|].
  split; [rewrite HL, Hnc; exact Hc|].
  split.
  { intros Et. rewrite HL.
    destruct (normalize_integer L _ Hint) as [[_ E]|[(N & _)|(N & _)]];
      [rewrite E; exact Hp | contradiction | contradiction]. }
  intros Nt n z rest Htop.
  destruct (normalize_integer L _ Hint)
    as [[E _]|[(_ & Hall & E)|(_ & k & z' & Hk & Hz' & Hmax & Hfirst & E & Ht)]].
  - contradiction.
  - split; intros Hz.
    + rewrite Htop in Hall. specialize (Hall z (in_eq _ _)). lia.
    + rewrite HL, E. exact Hp.
  - rewrite Htop in Hk, Hmax, Hfirst.
    assert (Hk0 : k = O).
    { destruct k as [|k]; [reflexivity|].
      pose proof (Hfirst O z ltac:(lia) eq_refl).
      assert (Hin : In z' (map snd rest)) by (apply (nth_error_In _ k); exact Hk).
      apply in_map_iff in Hin. destruct Hin as (b & <- & Hb').
      pose proof (Hhead n z rest b Htop Hb'). lia. }
    subst k. simpl in Hk. injection Hk as <-.
    split; intros Hz; [|lia].
    rewrite HL. split; [|exact Ht].
    rewrite E, percentages_set, Hp. subst t. rewrite Htop. reflexivity.
Qed.

(** The adjustment can put the first entry below the second: of 34, 34
    and 33 the first becomes 33. *)
Lemma formatBreakdown_out_of_order :
  let result :=
    formatBreakdown [("A", (#34)%js); ("B", (#34)%js); ("C", (#33)%js)]
                    (fun _ => None) in
  map name result = ["A"; "B"; "C"]
  /\ percentages result = [(#33)%js; (#34)%js; (#33)%js]
  /\ ~ descending (percentages result).
Proof.
  intros result.
  assert (E : percentages result = [(#33)%js; (#34)%js; (#33)%js])
    by (vm_compute; reflexivity).
  split; [vm_compute; reflexivity|]. split; [exact E|].
  rewrite E. intros H. apply descending_head in H. vm_compute in H. discriminate.
Qed.

(** C9 (amended): for a non-empty mapping whose percentages are finite
    Numbers, those of one decimal included, the statistics are put in
    descending order of percentage and the first six are kept, each with
    the colour the lookup has for its name, or ["lang-other"] when the
    lookup has none or has the empty string.  Only the first percentage
    can change: it stays when the kept percentages add up to exactly 100
    or when it is not above 0, and receives [100 - total] otherwise; the
    others follow in descending order, below the first percentage as it
    was, and the whole result is in descending order once the adjusted
    percentage is finite and not below the old one.  For integer
    percentages of which one is above 0 the result sums to exactly 100. *)
Theorem formatBreakdown_contract
    (languageStats : list (string * number))
    (languageColors : string -> option string) :
  languageStats <> [] ->
  (forall np, In np languageStats -> finite (snd np) = true) ->
  let sorted := sort_by by_percentage_desc languageStats in
  let kept := firstn 6 sorted in
  let t := sum_numbers (map snd kept) in
  let result := formatBreakdown languageStats languageColors in
  Permutation sorted languageStats
  /\ descending (map snd sorted)
  /\ length result = Nat.min 6 (length languageStats)
  /\ map name result = map fst kept
  /\ map color result
     = map (fun np => match languageColors (fst np) with
                      | Some c => if String.eqb c "" then "lang-other" else c
                      | None => "lang-other"
                      end) kept
  /\ (exists p0 rest,
        map snd kept = p0 :: rest
        /\ let p := if (t === #100)%js || negb (p0 > #0)%js then p0
                    else (p0 + (#100 - t))%js in
           percentages result = p :: rest
           /\ descending (p0 :: rest)
           /\ (finite p = true -> JS.ge p p0 = true ->
               descending (percentages result)))
  /\ (forall zstats,
        languageStats = map stat zstats ->
        Zsum_abs (map snd zstats) < 2 ^ 50 ->
        (exists nz, In nz zstats /\ 0 < snd nz) ->
        (total result === #100)%js = true).
Proof.
  intros Hne Hfin sorted kept t result.
  assert (Hperm : Permutation sorted languageStats) by apply sort_by_perm.
  assert (Hsorted : descending (map snd sorted)) by (apply sort_by_descending; exact Hfin).
  set (X := map (format_entry languageColors) kept).
  assert (HX : result = normalize X) by apply formatBreakdown_normalize.
  assert (Hp : percentages X = map snd kept).
  { unfold X, percentages. rewrite map_map. reflexivity. }
  destruct (normalize_names X) as [Hnn Hnc].
  assert (Hkept : descending (map snd kept)).
  { unfold kept. rewrite <- firstn_map. apply descending_firstn. exact Hsorted. }
  assert (Hkf : forall p, In p (map snd kept) -> finite p = true).
  { intros p Hin. apply in_map_iff in Hin. destruct Hin as (np & <- & Hnp).
    apply Hfin. apply (Permutation_in _ Hperm). apply (In_firstn np 6). exact Hnp. }
  split; [exact Hperm|]. split; [exact Hsorted|].
  split.
  { rewrite <- (length_map name), HX, Hnn. unfold X, kept.
    rewrite !length_map, length_firstn, (Permutation_length Hperm). reflexivity. }
  split; [rewrite HX, Hnn; unfold X; rewrite map_map; reflexivity|].
  split; [rewrite HX, Hnc; unfold X; rewrite map_map; reflexivity|].
  split.
  { destruct (map snd kept) as [|p0 rest] eqn:Ek.
    { exfalso. apply Hne. apply (f_equal (@length _)) in Ek.
      unfold kept in Ek. rewrite length_map, length_firstn in Ek.
      rewrite (Permutation_length Hperm) in Ek.
      destruct languageStats; [reflexivity|simpl in Ek; discriminate]. }
    exists p0, rest. split; [reflexivity|]. cbv zeta.
    assert (Er : percentages result
                 = (if (t === #100)%js || negb (p0 > #0)%js then p0
                    else (p0 + (#100 - t))%js) :: rest).
    { rewrite HX. unfold t. rewrite <- Hp, <- total_sum.
      apply normalize_descending; [exact Hp|exact Hkf|exact Hkept]. }
    split; [exact Er|]. split; [exact Hkept|].
    intros Fp Hge. rewrite Er. unfold descending in *.
    inversion Hkept as [|? ? Hrest Hp0]; subst.
    constructor; [exact Hrest|].
    rewrite Forall_forall in *. intros y Hy.
    apply (ge_trans _ p0 y); auto using in_eq, in_cons. }
  intros zstats Ez Hb (nz & Hnz & Hpos).
  assert (Hz : zstats <> []) by (intros ->; destruct Hnz).
  destruct (formatBreakdown_integers zstats languageColors Hz Hb)
    as (Hperm' & Hsorted' & _ & _ & _ & H100 & Hadj).
  fold result in H100, Hadj. rewrite <- Ez in H100, Hadj. fold result in H100, Hadj.
  set (top := firstn 6 (sort_by smaller zstats)) in *.
  assert (H53 : 2 ^ 50 * 8 = 2 ^ 53) by reflexivity.
  assert (Hbt : Zsum_abs (map snd top) < 2 ^ 53).
  { unfold top. rewrite <- firstn_map.
    pose proof (Zsum_abs_firstn (map snd (sort_by smaller zstats)) 6).
    rewrite (Zsum_abs_perm _ _ (Permutation_map snd Hperm')) in *. lia. }
  destruct (Z.eq_dec (Zsum (map snd top)) 100) as [E100|N100].
  - rewrite total_sum, (H100 E100), sum_numbers_exact, E100 by exact Hbt. reflexivity.
  - apply (Permutation_in _ (Permutation_sym Hperm')) in Hnz.
    destruct (sort_by smaller zstats) as [|[n z] srest] eqn:Es; [destruct Hnz|].
    assert (Hzpos : 0 < z).
    { inversion Hsorted' as [|? ? _ Hf]; subst. rewrite Forall_forall in Hf.
      destruct Hnz as [<-|Hin]; [exact Hpos|]. specialize (Hf nz Hin). simpl in Hf. lia. }
    destruct (Hadj N100 n z (firstn 5 srest) eq_refl) as [Ha _].
    exact (proj2 (Ha Hzpos)).
Qed.

Lemma formatBreakdown_contract_witness :
  let tenths z := (#z / #10)%js in
  let languageStats := [("CSS", tenths 143); ("JavaScript", tenths 520); ("HTML", tenths 334)] in
  let result := formatBreakdown languageStats (fun _ => None) in
  map name result = ["JavaScript"; "HTML"; "CSS"]
  /\ map color result = ["lang-other"; "lang-other"; "lang-other"]
  /\ percentages result = [tenths 523; tenths 334; tenths 143].
Proof.
  intros tenths languageStats result.
  assert (Hne : languageStats <> []) by discriminate.
  assert (Hfin : forall np, In np languageStats -> finite (snd np) = true).
  { intros np [<-|[<-|[<-|[]]]]; reflexivity. }
  destruct (formatBreakdown_contract languageStats (fun _ => None) Hne Hfin)
    as (_ & _ & _ & Hn & Hc & (p0 & rest & Ek & Hp) & _).
  cbv zeta in Hp. destruct Hp as (Hp & _).
  split; [exact Hn|]. split; [exact Hc|].
  refine (eq_trans Hp _). vm_compute in Ek. injection Ek as <- <-.
  vm_compute. reflexivity.
Defined.

End Format.

(* ================================================================= *)
(** * The helpers as functions on lists

    On a list of distinct objects each helper is a function on lists:
    the copies it allocates lie behind the caller's objects in the store,
    and the closing [normalizePercentages] acts on them alone. *)

Lemma map_fresh_exact f (languages : array) : forall h,
  (forall r, In r languages -> (r < length h)%nat) ->
  map_fresh f h languages
  = (h ++ rescaled f (view h languages), seq (length h) (length languages)).
Proof.
  induction languages as [|r rest IH]; intros h Hr; cbn [map_fresh alloc].
  - cbn. rewrite app_nil_r. reflexivity.
  - rewrite IH.
    2:{ intros r' Hr'. rewrite length_app. specialize (Hr r' (in_cons _ _ _ Hr')). lia. }
    rewrite <- app_assoc, length_app, Nat.add_1_r. cbn [length seq].
    f_equal. f_equal. cbn [app view map rescaled]. f_equal.
    unfold rescaled, view. rewrite !map_map. apply map_ext_in.
    intros r' Hr'. specialize (Hr r' (in_cons _ _ _ Hr')).
    unfold pct, deref. rewrite app_nth1 by assumption. reflexivity.
Qed.

Lemma view_suffix pre X : view (pre ++ X) (seq (length pre) (length X)) = X.
Proof. exact (map_nth_seq_app no_object X pre). Qed.

Lemma pct_suffix pre X :
  map (pct (pre ++ X)) (seq (length pre) (length X)) = percentages X.
Proof.
  unfold percentages. rewrite <- (view_suffix pre X) at 3.
  unfold view. rewrite map_map. reflexivity.
Qed.

Lemma set_percentage_length h r p : length (set_percentage h r p) = length h.
Proof. apply update_at_length. Qed.

(** Normalising objects allocated after [pre] is normalising them alone. *)
Lemma normalize_suffix pre X :
  normalizePercentages (pre ++ X) (seq (length pre) (length X))
  = (pre ++ normalize X, seq (length pre) (length X)).
Proof.
  rewrite normalize_unfold. destruct X as [|x X']; [reflexivity|].
  set (X := x :: X'). unfold normalizePercentages.
  change (seq (length pre) (length X))
    with (length pre :: seq (S (length pre)) (length X')) at 1.
  cbv beta iota.
  change (length pre :: seq (S (length pre)) (length X'))
    with (seq (length pre) (length X)).
  rewrite total_percentage_sum, pct_suffix, <- total_sum.
  destruct (total X === #100)%js; [reflexivity|]. cbv zeta.
  pose proof (largest_index_range (percentages X)) as Hr.
  destruct (0 <=? largest_index (percentages X)) eqn:E; [|reflexivity].
  apply Z.leb_le in E.
  remember (Z.to_nat (largest_index (percentages X))) as k eqn:Ek.
  assert (Hk : (k < length X)%nat).
  { assert (length (percentages X) = length X) by apply length_map.
    unfold len in Hr. lia. }
  rewrite seq_nth by assumption.
  rewrite set_percentage_above by lia.
  replace (length pre + k - length pre)%nat with k by lia.
  assert (P : pct (pre ++ X) (length pre + k)%nat = pct X k).
  { unfold pct, deref. rewrite app_nth2 by lia. do 2 f_equal. lia. }
  rewrite P. reflexivity.
Qed.

Lemma run_suffix pre X :
  (let '(h, result) :=
     normalizePercentages (pre ++ X) (seq (length pre) (length X)) in
   view h result) = normalize X.
Proof.
  rewrite normalize_suffix.
  assert (E : length (normalize X) = length X).
  { rewrite normalize_unfold. destruct X; [reflexivity|].
    destruct (_ === _)%js; [reflexivity|]. cbv zeta.
    destruct (0 <=? _); [apply set_percentage_length|reflexivity]. }
  rewrite <- E. apply view_suffix.
Qed.

Lemma rescaled_length f L : length (rescaled f L) = length L.
Proof. apply length_map. Qed.

Lemma addEntry_unfold L newLanguage newPercentage :
  addEntry L newLanguage newPercentage =
  let p := match newPercentage with Some p => p | None => (#5)%js end in
  match L with
  | [] => [with_percentage newLanguage (#100)%js]
  | _ :: _ =>
      normalize
        (rescaled (fun x => Math_round ((x / #100) * (#100 - p))%js) L
         ++ [with_percentage newLanguage p])
  end.
Proof.
  cbv zeta. unfold addEntry, run, addLanguageWithRedistribution.
  destruct L as [|x L'].
  { cbn. reflexivity. }
  set (L := x :: L').
  change (addresses L) with (O :: seq 1 (length L')) at 1. cbv beta iota.
  change (O :: seq 1 (length L')) with (addresses L).
  rewrite map_fresh_exact.
  2:{ intros r Hr. apply in_seq in Hr. lia. }
  rewrite view_addresses. cbn [alloc].
  set (p := match newPercentage with Some p => p | None => _ end).
  set (R := rescaled _ L).
  rewrite <- app_assoc, length_app.
  unfold addresses. rewrite length_seq.
  match goal with |- context [normalizePercentages _ ?a] =>
    replace a with (seq (length L) (length (R ++ [with_percentage newLanguage p])))
  end.
  2:{ rewrite length_app. cbn [length]. rewrite Nat.add_1_r, seq_S.
      unfold R. rewrite rescaled_length. reflexivity. }
  apply run_suffix.
Qed.

Lemma view_filter_index {A B : Type} (f : A -> B) index (l : list A) : forall i,
  map f (filter_index index i l) = filter_index index i (map f l).
Proof.
  induction l as [|x l IH]; intros i; cbn [filter_index map]; [reflexivity|].
  destruct (i =? index); [apply IH|]. cbn [map]. f_equal. apply IH.
Qed.

Lemma filter_index_in {A : Type} index (l : list A) x : forall i,
  In x (filter_index index i l) -> In x l.
Proof.
  induction l as [|y l IH]; intros i; cbn [filter_index]; [tauto|].
  destruct (i =? index).
  - intros H. right. apply (IH _ H).
  - intros [->|H]; [left; reflexivity|right; apply (IH _ H)].
Qed.

Lemma filter_index_length {A : Type} index (l : list A) : forall i,
  (length (filter_index index i l) <= length l)%nat.
Proof.
  induction l as [|y l IH]; intros i; cbn [filter_index length]; [lia|].
  specialize (IH (i + 1)). destruct (i =? index); cbn [length]; lia.
Qed.

Lemma removeEntry_unfold L indexToRemove :
  removeEntry L indexToRemove =
  if (len L <=? 1) || (indexToRemove <? 0) || (len L <=? indexToRemove) then L
  else
    let removedPercentage := pct L (Z.to_nat indexToRemove) in
    let remaining := filter_index indexToRemove 0 L in
    normalize
      (rescaled (fun x => Math_round (x + (x / total remaining) * removedPercentage)%js)
                remaining).
Proof.
  unfold removeEntry, run, removeLanguageWithRedistribution.
  replace (len (addresses L)) with (len L).
  2:{ unfold len, addresses. rewrite length_seq. reflexivity. }
  destruct (_ || _ || _) eqn:G; [apply view_addresses|]. cbv zeta.
  apply orb_false_iff in G. destruct G as [G G3].
  apply orb_false_iff in G. destruct G as [G1 G2].
  apply Z.leb_gt in G1, G3. apply Z.ltb_ge in G2. unfold len in *.
  rewrite nth_addresses by lia.
  rewrite map_fresh_exact.
  2:{ intros r Hr. apply filter_index_in in Hr. apply in_seq in Hr. lia. }
  assert (V : view L (filter_index indexToRemove 0 (addresses L))
              = filter_index indexToRemove 0 L).
  { unfold view. rewrite view_filter_index. f_equal. apply view_addresses. }
  rewrite V.
  assert (T : total_percentage L (filter_index indexToRemove 0 (addresses L))
              = total (filter_index indexToRemove 0 L)).
  { rewrite total_percentage_sum, total_sum. f_equal.
    rewrite <- V. unfold percentages, view. rewrite map_map. reflexivity. }
  rewrite T.
  set (R := rescaled _ _).
  replace (length (filter_index indexToRemove 0 (addresses L))) with (length R).
  2:{ unfold R. rewrite rescaled_length, <- V. unfold view. apply length_map. }
  apply run_suffix.
Qed.

Lemma set_percentage_middle (pre : heap) x suf p :
  set_percentage (pre ++ x :: suf) (length pre) p
  = pre ++ with_percentage x p :: suf.
Proof.
  rewrite set_percentage_above by lia. rewrite Nat.sub_diag. reflexivity.
Qed.

Lemma rescale_loop index factor n suf : forall pre,
  (length pre + length suf = n)%nat ->
  fold_left (rescale_step index factor (seq 0 n))
            (map Z.of_nat (seq (length pre) (length suf))) (pre ++ suf)
  = pre ++ rescale_others index factor (Z.of_nat (length pre)) suf.
Proof.
  induction suf as [|x suf IH]; intros pre Hn; [reflexivity|].
  cbn [length seq map fold_left]. unfold rescale_others. cbn [indexed map fst snd].
  unfold rescale_step at 2.
  cbn [length] in Hn.
  destruct (Z.of_nat (length pre) =? index) eqn:E.
  - specialize (IH (pre ++ [x])). rewrite length_app in IH. cbn [length] in IH.
    rewrite Nat.add_1_r, <- app_assoc in IH. cbn [app] in IH.
    rewrite IH by lia. unfold rescale_others.
    rewrite <- app_assoc, Nat2Z.inj_succ. reflexivity.
  - rewrite Nat2Z.id, seq_nth by lia. cbn [Nat.add].
    assert (P : pct (pre ++ x :: suf) (length pre) = percentage x).
    { unfold pct, deref. rewrite app_nth2, Nat.sub_diag by lia. reflexivity. }
    rewrite P, set_percentage_middle.
    set (x' := with_percentage x _).
    specialize (IH (pre ++ [x'])). rewrite length_app in IH. cbn [length] in IH.
    rewrite Nat.add_1_r, <- app_assoc in IH. cbn [app] in IH.
    rewrite IH by lia. unfold rescale_others.
    rewrite <- app_assoc, Nat2Z.inj_succ. reflexivity.
Qed.

Lemma rescale_others_length index factor L : forall i,
  length (rescale_others index factor i L) = length L.
Proof.
  intros i. unfold rescale_others. rewrite length_map.
  revert i. induction L; intros i; cbn [indexed length]; auto.
Qed.

Lemma run_normalize h (L : list LanguageEntry) :
  length h = length L ->
  (let '(h', result) := normalizePercentages h (addresses L) in view h' result)
  = normalize h.
Proof.
  intros E. unfold addresses. rewrite <- E. reflexivity.
Qed.

Lemma updatePercentage_unfold L index v :
  updatePercentage L index v =
  if (len L =? 0) || (index <? 0) || (len L <=? index) then L
  else
    let k := Z.to_nat index in
    let diff := (validate v - pct L k)%js in
    if (diff === #0)%js then L
    else
      let L1 := set_percentage L k (validate v) in
      let othersTotal := total (filter_index index 0 L1) in
      let factor := ((othersTotal - diff) / othersTotal)%js in
      normalize (rescale_others index factor 0 L1).
Proof.
  unfold updatePercentage, run, updateLanguagePercentage.
  replace (len (addresses L)) with (len L).
  2:{ unfold len, addresses. rewrite length_seq. reflexivity. }
  destruct (_ || _ || _) eqn:G; [apply view_addresses|]. cbv zeta.
  apply orb_false_iff in G. destruct G as [G G3].
  apply orb_false_iff in G. destruct G as [G1 G2].
  apply Z.leb_gt in G3. apply Z.ltb_ge in G2. unfold len in *.
  rewrite nth_addresses by lia.
  destruct (_ === _)%js; [apply view_addresses|].
  set (L1 := set_percentage L (Z.to_nat index) (validate v)).
  assert (E1 : length L1 = length L) by apply set_percentage_length.
  assert (T : total_percentage L1 (filter_index index 0 (addresses L))
              = total (filter_index index 0 L1)).
  { rewrite total_percentage_sum, total_sum. f_equal.
    unfold percentages. rewrite <- (view_addresses L1) at 2.
    unfold view. rewrite <- view_filter_index, map_map.
    unfold addresses. rewrite E1. reflexivity. }
  rewrite T.
  set (factor := (_ / _)%js).
  pose proof (rescale_loop index factor (length L) L1 [] E1) as Loop.
  cbn [app length] in Loop. unfold indices, addresses.
  rewrite length_seq. rewrite E1 in Loop. rewrite Loop.
  apply (run_normalize _ L).
  rewrite rescale_others_length. exact E1.
Qed.

(* ----------------------------------------------------------------- *)
(** ** Names and colours through the steps *)

Lemma names_rescaled f L :
  names (rescaled f L) = names L /\ colors (rescaled f L) = colors L.
Proof. unfold names, colors, rescaled. rewrite !map_map. split; reflexivity. Qed.

Lemma names_rescale_others index factor L : forall i,
  names (rescale_others index factor i L) = names L
  /\ colors (rescale_others index factor i L) = colors L.
Proof.
  unfold names, colors, rescale_others.
  induction L as [|x L IH]; intros i; cbn [indexed map fst snd]; [auto|].
  destruct (IH (i + 1)) as [-> ->]. destruct (i =? index); auto.
Qed.

Lemma filter_index_past {A : Type} idx (l : list A) : forall j,
  idx < j -> filter_index idx j l = l.
Proof.
  induction l as [|y l IH]; intros j Hj; cbn [filter_index]; [reflexivity|].
  destruct (Z.eqb_spec j idx); [lia|]. f_equal. apply IH. lia.
Qed.

Lemma filter_index_without {A : Type} idx (l : list A) : forall i,
  i <= idx < i + len l ->
  filter_index idx i l = without (Z.to_nat (idx - i)) l.
Proof.
  unfold len, without. induction l as [|x l IH]; intros i H; cbn [length] in H; [lia|].
  cbn [filter_index]. destruct (Z.eqb_spec i idx) as [->|N].
  - rewrite Z.sub_diag. cbn [Z.to_nat firstn skipn app].
    apply filter_index_past. lia.
  - replace (Z.to_nat (idx - i)) with (S (Z.to_nat (idx - (i + 1)))) by lia.
    cbn [firstn skipn app]. f_equal. apply IH. lia.
Qed.

(* ================================================================= *)
(** * What the helpers keep, for all Numbers *)

Section Names.

Local Open Scope string_scope.
Local Open Scope Z_scope.

(** X1: [normalizePercentages] changes at most the percentage of one
    entry: every name and colour stays in place, and all entries but one
    are returned as they were, whatever Numbers the list holds. *)
Theorem normalize_changes_one_percentage L :
  names (normalize L) = names L
  /\ colors (normalize L) = colors L
  /\ exists k, forall j, j <> k -> nth_error (normalize L) j = nth_error L j.
Proof.
  destruct (normalize_names L) as [En Ec].
  split; [exact En|]. split; [exact Ec|].
  rewrite normalize_unfold. destruct L as [|x L']; [exists O; reflexivity|].
  destruct (_ === _)%js; [exists O; reflexivity|]. cbv zeta.
  destruct (0 <=? _); [|exists O; reflexivity].
  match goal with |- context [set_percentage _ ?k ?p] => exists k; generalize p end.
  generalize (x :: L'). intros l p.
  match goal with |- context [set_percentage _ ?k _] => generalize k end.
  unfold set_percentage. induction l as [|y l IH]; intros [|k] [|j] H;
    cbn [update_at nth_error]; try reflexivity; try congruence.
  apply IH. congruence.
Qed.

(** X2: [addLanguageWithRedistribution] appends: the names and colours
    of the old entries stay in place and the new entry comes last,
    whatever Numbers are involved. *)
Theorem addEntry_appends L newLanguage newPercentage :
  names (addEntry L newLanguage newPercentage) = (names L ++ [name newLanguage])%list
  /\ colors (addEntry L newLanguage newPercentage)
     = (colors L ++ [color newLanguage])%list.
Proof.
  rewrite addEntry_unfold. cbv zeta. destruct L as [|x L']; [split; reflexivity|].
  match goal with |- context [normalize ?X] => destruct (normalize_names X) as [En Ec] end.
  unfold names, colors. rewrite En, Ec, !map_app.
  match goal with |- context [rescaled ?f ?X] =>
    destruct (names_rescaled f X) as [En' Ec'] end.
  unfold names, colors in En', Ec'. rewrite En', Ec'.
  split; reflexivity.
Qed.

(** X3: [removeLanguageWithRedistribution] with an index inside a list
    of two or more entries removes the entry at that index and no other:
    the names and colours of the result are those of the input without
    that position. *)
Theorem removeEntry_removes L indexToRemove :
  2 <= len L -> 0 <= indexToRemove < len L ->
  names (removeEntry L indexToRemove) = without (Z.to_nat indexToRemove) (names L)
  /\ colors (removeEntry L indexToRemove) = without (Z.to_nat indexToRemove) (colors L).
Proof.
  intros H2 Hi. rewrite removeEntry_unfold.
  replace (len L <=? 1) with false by (symmetry; apply Z.leb_gt; lia).
  replace (indexToRemove <? 0) with false by (symmetry; apply Z.ltb_ge; lia).
  replace (len L <=? indexToRemove) with false by (symmetry; apply Z.leb_gt; lia).
  cbn [orb]. cbv zeta.
  match goal with |- context [normalize ?X] => destruct (normalize_names X) as [En Ec] end.
  unfold names, colors. rewrite En, Ec.
  match goal with |- context [rescaled ?f ?X] => destruct (names_rescaled f X) as [En' Ec'] end.
  unfold names, colors in En', Ec'. rewrite En', Ec'.
  rewrite !view_filter_index.
  rewrite <- (Z.sub_0_r indexToRemove) at 2 4.
  split; apply filter_index_without; unfold len in *; rewrite length_map; lia.
Qed.

Lemma removeEntry_removes_witness :
  names (removeEntry [entry "JavaScript" 62 "lang-javascript";
                      entry "TypeScript" 23 "lang-typescript";
                      entry "CSS" 15 "lang-css"] 1)
  = ["JavaScript"; "CSS"].
Proof.
  apply (removeEntry_removes
           [entry "JavaScript" 62 "lang-javascript";
            entry "TypeScript" 23 "lang-typescript";
            entry "CSS" 15 "lang-css"] 1).
  - discriminate.
  - split; [discriminate|reflexivity].
Defined.

(** X4: [updateLanguagePercentage] changes percentages only: the names
    and colours of the result are those of the input, in the same order,
    whatever index and value it is given. *)
Theorem updatePercentage_keeps_names L index newPercentage :
  names (updatePercentage L index newPercentage) = names L
  /\ colors (updatePercentage L index newPercentage) = colors L.
Proof.
  rewrite updatePercentage_unfold.
  destruct (_ || _ || _); [split; reflexivity|]. cbv zeta.
  destruct (_ === _)%js; [split; reflexivity|].
  match goal with |- context [normalize ?X] => destruct (normalize_names X) as [En Ec] end.
  unfold names, colors. rewrite En, Ec.
  match goal with |- context [rescale_others ?i ?f 0 ?X] =>
    destruct (names_rescale_others i f X 0) as [En' Ec'] end.
  unfold names, colors in En', Ec'. rewrite En', Ec'.
  apply names_set_percentage.
Qed.

(** X5: the two helpers that redistribute over copies leave the list
    they are given as it was: every entry the caller holds reads the
    same after the call, whatever the arguments. *)
Theorem copies_leave_input_alone L newLanguage newPercentage indexToRemove :
  snapshot (fun h a => addLanguageWithRedistribution h a newLanguage newPercentage) L = L
  /\ snapshot (fun h a => removeLanguageWithRedistribution h a indexToRemove) L = L.
Proof. split; [apply add_keeps_input|apply remove_keeps_input]. Qed.

(** X6: the value [updateLanguagePercentage] works with is always an
    integer from 1 to 99, whatever is typed: text that is no number, an
    empty string, a negative or a huge number included. *)
Theorem validate_range newPercentage :
  exists z, 1 <= z <= 99 /\ validate newPercentage = (#z)%js.
Proof.
  exists (validated newPercentage).
  split; [apply validated_range|apply validate_exact].
Qed.

(** X7: [formatLanguageBreakdown] returns at most six entries, one for
    each of the first statistics in its order; every entry is named by a
    key of the statistics and carries the colour class of its name, which
    is never empty.  This holds for all Numbers, NaN included. *)
Theorem formatBreakdown_shape languageStats languageColors :
  let result := formatBreakdown languageStats languageColors in
  length result = Nat.min 6 (length languageStats)
  /\ forall lang, In lang result ->
       In (name lang) (map fst languageStats)
       /\ color lang = color_of languageColors (name lang)
       /\ color lang <> "".
Proof.
  cbv zeta. rewrite formatBreakdown_normalize.
  set (kept := firstn 6 (sort_by by_percentage_desc languageStats)).
  set (X := map (format_entry languageColors) kept).
  destruct (normalize_names X) as [En Ec].
  assert (Hperm : Permutation languageStats (sort_by by_percentage_desc languageStats))
    by apply Permutation_sym, sort_by_perm.
  split.
  - rewrite <- (length_map name), En, length_map. unfold X, kept.
    rewrite length_map, length_firstn, <- (Permutation_length Hperm). reflexivity.
  - intros lang Hin.
    assert (Hpair : In (name lang, color lang) (combine (map name X) (map color X))).
    { rewrite <- En, <- Ec. clear - Hin. induction (normalize X) as [|y l IH]; [destruct Hin|].
      destruct Hin as [->|Hin]; [left; reflexivity|right; auto]. }
    assert (Hsrc : exists np, In np kept
                   /\ name lang = fst np /\ color lang = color_of languageColors (fst np)).
    { unfold X in Hpair. clear - Hpair. induction kept as [|np l IH]; [destruct Hpair|].
      cbn [map combine] in Hpair. destruct Hpair as [E|Hp].
      - exists np. injection E as E1 E2. cbn [format_entry name color] in E1, E2.
        split; [left; reflexivity|]. split; congruence.
      - destruct (IH Hp) as (np' & Hin' & H'). exists np'. split; [right|]; assumption. }
    destruct Hsrc as (np & Hnp & E1 & E2).
    split; [|split].
    + rewrite E1. apply in_map. apply (Permutation_in _ (Permutation_sym Hperm)).
      apply (In_firstn _ 6). exact Hnp.
    + rewrite E2, E1. reflexivity.
    + rewrite E2. unfold color_of. destruct (languageColors (fst np)) as [c|]; [|discriminate].
      destruct (String.eqb_spec c ""); [discriminate|assumption].
Qed.

End Names.

(* ================================================================= *)
(** * Totals of exactly 100

    On integer percentages the roundings of the helpers are decided by
    evaluation: the division, the product and [Math.round] are computed
    in binary64 for every pair of integers that can occur.  The loop of
    [updateLanguagePercentage] multiplies by a factor that depends on two
    integers; there the factor is evaluated and the product is bounded. *)

(* ----------------------------------------------------------------- *)
(** ** The roundings of the add and the remove helpers *)

Lemma same_number_eq x y : same_number x y = true -> x = y.
Proof.
  destruct x as [a|a| |a m e], y as [b|b| |b m' e']; cbn; try discriminate.
  - intros H. apply Bool.eqb_prop in H. congruence.
  - intros H. apply Bool.eqb_prop in H. congruence.
  - reflexivity.
  - intros H. apply andb_true_iff in H. destruct H as [H H3].
    apply andb_true_iff in H. destruct H as [H1 H2].
    apply Bool.eqb_prop in H1. apply Pos.eqb_eq in H2. apply Z.eqb_eq in H3.
    congruence.
Qed.

Lemma integer_between_spec lo hi x :
  integer_between lo hi x = true -> exists r, lo <= r <= hi /\ x = (#r)%js.
Proof.
  unfold integer_between. intros H.
  apply andb_true_iff in H. destruct H as [H H3].
  apply andb_true_iff in H. destruct H as [H1 H2].
  apply Z.leb_le in H1, H2. apply same_number_eq in H3.
  exists (floor x). auto.
Qed.

Lemma in_range a b z : a <= z <= b -> In z (range a b).
Proof.
  intros H. unfold range. apply in_map_iff.
  exists (Z.to_nat (z - a)). split; [lia|]. apply in_seq. lia.
Qed.

Lemma for_all_spec a b f :
  for_all a b f = true -> forall z, a <= z <= b -> f z = true.
Proof.
  unfold for_all. intros H z Hz. rewrite forallb_forall in H.
  apply H, in_range, Hz.
Qed.

(** The two roundings, checked on every pair of integers they can meet. *)
Lemma add_table :
  for_all 0 100 (fun q => for_all 0 100 (fun p => add_entry_ok q p)) = true.
Proof. vm_compute. reflexivity. Qed.

Lemma remove_table :
  for_all 1 100 (fun t => for_all 0 t (fun p => remove_entry_ok t p)) = true.
Proof. vm_compute. reflexivity. Qed.

Lemma add_share p q :
  0 <= p <= 100 -> 0 <= q <= 100 ->
  exists r, 0 <= r <= p /\ Math_round ((#p / #100) * #q)%js = (#r)%js.
Proof.
  intros Hp Hq.
  pose proof (for_all_spec _ _ _ add_table q Hq) as T. cbv beta in T.
  pose proof (for_all_spec _ _ _ T p Hp) as T'. cbv beta in T'.
  apply integer_between_spec. exact T'.
Qed.

Lemma remove_share p t :
  1 <= t <= 100 -> 0 <= p <= t ->
  exists r, (if p =? 0 then 0 else 1) <= r <= 100 * p
            /\ Math_round (#p + (#p / #t) * #(100 - t))%js = (#r)%js.
Proof.
  intros Ht Hp.
  pose proof (for_all_spec _ _ _ remove_table t Ht) as T. cbv beta in T.
  pose proof (for_all_spec _ _ _ T p Hp) as T'. cbv beta in T'.
  apply integer_between_spec. exact T'.
Qed.

(** ** Lists of integer percentages through the helpers *)

Lemma percentages_rescaled f L : percentages (rescaled f L) = map f (percentages L).
Proof. unfold percentages, rescaled. rewrite !map_map. reflexivity. Qed.

Lemma percentages_app L1 L2 : percentages (L1 ++ L2) = percentages L1 ++ percentages L2.
Proof. apply map_app. Qed.

Lemma Zsum_app l1 l2 : Zsum (l1 ++ l2) = Zsum l1 + Zsum l2.
Proof. induction l1; simpl; lia. Qed.

Lemma Zsum_abs_app l1 l2 : Zsum_abs (l1 ++ l2) = Zsum_abs l1 + Zsum_abs l2.
Proof. induction l1; simpl; lia. Qed.

(** A list of integers mapped through a function that keeps integers. *)
Lemma map_integers (P : Z -> Z -> Prop) (f : number -> number) zs :
  (forall z, In z zs -> exists r, P z r /\ f (#z)%js = (#r)%js) ->
  exists rs, map f (map JS.of_Z zs) = map JS.of_Z rs /\ Forall2 P zs rs.
Proof.
  induction zs as [|z zs IH]; intros H.
  - exists []. split; constructor.
  - destruct (H z (in_eq _ _)) as (r & Hr & Er).
    destruct IH as (rs & Ers & Hrs); [intros y Hy; apply H, in_cons, Hy|].
    exists (r :: rs). split; [cbn [map]; rewrite Er, Ers; reflexivity|].
    constructor; assumption.
Qed.

Lemma Zsum_abs_scaled c zs rs :
  0 <= c ->
  Forall2 (fun z r => 0 <= r <= c * z) zs rs ->
  Zsum_abs rs <= c * Zsum_abs zs.
Proof.
  intros Hc. induction 1 as [|z r zs rs Hr F IH]; simpl; [lia|].
  assert (c * z <= c * Z.abs z) by (apply Z.mul_le_mono_nonneg_l; lia).
  rewrite Z.mul_add_distr_l. lia.
Qed.

Lemma Forall2_weaken {A B : Type} (P Q : A -> B -> Prop) l1 l2 :
  (forall a b, In a l1 -> P a b -> Q a b) -> Forall2 P l1 l2 -> Forall2 Q l1 l2.
Proof.
  intros H F. induction F; constructor.
  - apply H; [left; reflexivity|assumption].
  - apply IHF. intros a b Ha. apply H. right. exact Ha.
Qed.

Lemma Forall2_positive (P : Z -> Z -> Prop) zs rs z :
  Forall2 P zs rs -> In z zs -> exists r, In r rs /\ P z r.
Proof.
  intros F. induction F; intros Hin; [destruct Hin|].
  destruct Hin as [->|Hin].
  - eexists. split; [left; reflexivity|assumption].
  - destruct (IHF Hin) as (r & Hr & Pr). exists r. split; [right|]; assumption.
Qed.

(** After [normalize], integer percentages with a positive entry total
    exactly 100. *)
Lemma normalize_total X ws :
  integer_percentages X ws -> (exists w, In w ws /\ 0 < w) ->
  (total (normalize X) === #100)%js = true.
Proof.
  intros H (w & Hin & Hw).
  destruct (normalize_integer X ws H)
    as [[E N]|[(_ & Hall & _)|(_ & k & z & _ & _ & _ & _ & _ & T)]].
  - rewrite N, (integer_total X ws H), E. reflexivity.
  - specialize (Hall w Hin). lia.
  - exact T.
Qed.

Lemma nonneg_abs zs : (forall z, In z zs -> 0 <= z) -> Zsum_abs zs = Zsum zs.
Proof.
  induction zs as [|z zs IH]; intros H; simpl; [reflexivity|].
  rewrite IH by (intros y Hy; apply H, in_cons, Hy).
  specialize (H z (in_eq _ _)). lia.
Qed.

Lemma nonneg_le_sum zs z :
  (forall y, In y zs -> 0 <= y) -> In z zs -> z <= Zsum zs.
Proof.
  intros H Hin. rewrite <- (nonneg_abs zs H).
  pose proof (In_abs_le z zs Hin). lia.
Qed.

Lemma positive_entry zs :
  (forall y, In y zs -> 0 <= y) -> 0 < Zsum zs -> exists z, In z zs /\ 0 < z.
Proof.
  induction zs as [|z zs IH]; intros H Hs; simpl in Hs; [lia|].
  destruct (Z.ltb_spec 0 z) as [Hz|Hz].
  - exists z. split; [left; reflexivity|assumption].
  - destruct IH as (y & Hy & Py).
    + intros y Hy. apply H, in_cons, Hy.
    + specialize (H z (in_eq _ _)). lia.
    + exists y. split; [right|]; assumption.
Qed.

Lemma Zsum_filter_index index zs : forall i,
  i <= index < i + len zs ->
  Zsum (filter_index index i zs) = Zsum zs - nth (Z.to_nat (index - i)) zs 0.
Proof.
  unfold len. induction zs as [|z zs IH]; intros i H; cbn [length] in H; [lia|].
  cbn [filter_index]. destruct (Z.eqb_spec i index) as [->|N].
  - rewrite Z.sub_diag. cbn [Z.to_nat nth Zsum fold_right].
    rewrite filter_index_past by lia. unfold Zsum. lia.
  - cbn [Zsum fold_right]. fold (Zsum (filter_index index (i + 1) zs)).
    rewrite IH by lia. fold (Zsum zs).
    replace (Z.to_nat (index - i)) with (S (Z.to_nat (index - (i + 1)))) by lia.
    cbn [nth]. lia.
Qed.

Lemma pct_integer L zs k :
  percentages L = map JS.of_Z zs -> (k < length zs)%nat ->
  pct L k = (#(nth k zs 0))%js.
Proof.
  intros E Hk. apply (percentages_nth L zs k _ E).
  apply nth_error_nth'. exact Hk.
Qed.

Lemma bounded_sum c zs :
  (forall z, In z zs -> 0 <= z <= c) -> Zsum_abs zs <= c * len zs.
Proof.
  unfold len. induction zs as [|z zs IH]; intros H; [simpl; lia|].
  cbn [Zsum_abs fold_right length]. fold (Zsum_abs zs).
  specialize (IH (fun y Hy => H y (in_cons _ _ _ Hy))).
  specialize (H z (in_eq _ _)). lia.
Qed.

(* ----------------------------------------------------------------- *)
(** ** Products of small Numbers *)

Lemma digits_le n k : 0 <= k -> Zpos n < 2 ^ k -> digits n <= k.
Proof.
  intros Hk H. pose proof (digits_bounds n) as [Hlo _].
  destruct (Z_le_gt_dec (digits n) k) as [|Hgt]; [assumption|].
  assert (2 ^ k <= 2 ^ (digits n - 1)) by (apply Z.pow_le_mono_r; lia). lia.
Qed.

Lemma digits_ge n k : 2 ^ (k - 1) <= Zpos n -> k <= digits n.
Proof.
  intros H. pose proof (digits_bounds n) as [_ Hhi]. pose proof (digits_pos n).
  destruct (Z_lt_le_dec (digits n) k) as [Hlt|]; [|assumption].
  assert (2 ^ digits n <= 2 ^ (k - 1)) by (apply Z.pow_le_mono_r; lia). lia.
Qed.

Lemma digits_mul m n :
  digits m + digits n - 1 <= digits (m * n) <= digits m + digits n.
Proof.
  pose proof (digits_bounds m) as [Hm1 Hm2]. pose proof (digits_bounds n) as [Hn1 Hn2].
  pose proof (digits_pos m). pose proof (digits_pos n).
  assert (P1 : 0 < 2 ^ (digits m - 1)) by (apply Z.pow_pos_nonneg; lia).
  assert (P2 : 0 < 2 ^ (digits n - 1)) by (apply Z.pow_pos_nonneg; lia).
  split.
  - apply digits_ge. rewrite Pos2Z.inj_mul.
    replace (digits m + digits n - 1 - 1) with ((digits m - 1) + (digits n - 1)) by lia.
    rewrite Z.pow_add_r by lia. nia.
  - apply digits_le; [lia|]. rewrite Pos2Z.inj_mul, Z.pow_add_r by lia. nia.
Qed.

(** Rounding a mantissa of 54 bits or more, away from overflow. *)
Lemma round_aux_wide s n e :
  -1074 <= e -> 54 <= digits n -> digits n + e <= 1000 ->
  exists m e',
    binary_round_aux prec emax s (Zpos n) e loc_Exact = S754_finite s m e'
    /\ Zpos m < 2 ^ 53
    /\ digits n + e - 53 <= e' <= digits n + e - 52.
Proof.
  intros He Hd Hmag. pose proof (digits_bounds n) as [Hlo Hhi].
  assert (Hf : fexp prec emax (digits n + e) = digits n + e - 53)
    by (unfold fexp, emin, prec, emax; lia).
  unfold binary_round_aux, shr_fexp. cbn [Zdigits2]. fold (digits n).
  rewrite Hf. replace (digits n + e - 53 - e) with (digits n - 53) by lia.
  destruct (shr (shr_record_of_loc (Zpos n) loc_Exact) e (digits n - 53))
    as [mrs' e'] eqn:E1.
  pose proof (shr_m_shift (shr_record_of_loc (Zpos n) loc_Exact) e (digits n - 53)
                ltac:(cbn; lia) ltac:(lia)) as [Hm1 He1].
  rewrite E1 in Hm1, He1. cbn [fst snd shr_record_of_loc shr_m] in Hm1, He1.
  set (m1 := round_nearest_even (shr_m mrs') (loc_of_shr_record mrs')).
  pose proof (round_nearest_even_range (shr_m mrs') (loc_of_shr_record mrs')) as Hr.
  fold m1 in Hr.
  assert (Hq : 2 ^ 52 <= shr_m mrs' < 2 ^ 53).
  { rewrite Hm1.
    assert (Hp : 0 < 2 ^ (digits n - 53)) by (apply Z.pow_pos_nonneg; lia).
    assert (E52 : 2 ^ (digits n - 1) = 2 ^ 52 * 2 ^ (digits n - 53))
      by (rewrite <- Z.pow_add_r by lia; f_equal; lia).
    assert (E53 : 2 ^ digits n = 2 ^ 53 * 2 ^ (digits n - 53))
      by (rewrite <- Z.pow_add_r by lia; f_equal; lia).
    split.
    - apply Z.div_le_lower_bound; lia.
    - apply Z.div_lt_upper_bound; lia. }
  assert (Hm1pos : 0 < m1) by lia.
  pose proof (Zdigits2_bounds m1 Hm1pos) as [Hdlo Hdhi].
  assert (Hd1 : 53 <= Zdigits2 m1 <= 54).
  { split.
    - destruct (Z_lt_le_dec (Zdigits2 m1) 53) as [Hlt|]; [|assumption].
      assert (2 ^ Zdigits2 m1 <= 2 ^ 52) by (apply Z.pow_le_mono_r; lia). lia.
    - destruct (Z_lt_le_dec 54 (Zdigits2 m1)) as [Hlt|]; [|assumption].
      assert (2 ^ 54 <= 2 ^ (Zdigits2 m1 - 1)) by (apply Z.pow_le_mono_r; lia).
      assert (2 ^ 53 < 2 ^ 54) by (apply Z.pow_lt_mono_r; lia). lia. }
  assert (Hf2 : fexp prec emax (Zdigits2 m1 + e') - e' = Zdigits2 m1 - 53)
    by (unfold fexp, emin, prec, emax; lia).
  rewrite Hf2.
  destruct (shr (shr_record_of_loc m1 loc_Exact) e' (Zdigits2 m1 - 53))
    as [mrs'' e''] eqn:E2.
  pose proof (shr_m_shift (shr_record_of_loc m1 loc_Exact) e' (Zdigits2 m1 - 53)
                ltac:(cbn; lia) ltac:(lia)) as [Hm2 He2].
  rewrite E2 in Hm2, He2. cbn [fst snd shr_record_of_loc shr_m] in Hm2, He2.
  assert (Hp2 : 0 < 2 ^ (Zdigits2 m1 - 53)) by (apply Z.pow_pos_nonneg; lia).
  assert (Hm2pos : 0 < shr_m mrs'').
  { rewrite Hm2. apply Z.div_str_pos. split; [assumption|].
    assert (2 ^ (Zdigits2 m1 - 53) <= 2 ^ (Zdigits2 m1 - 1))
      by (apply Z.pow_le_mono_r; lia). lia. }
  assert (Hm2lt : shr_m mrs'' < 2 ^ 53).
  { rewrite Hm2. apply Z.div_lt_upper_bound; [assumption|].
    rewrite <- Z.pow_add_r by lia.
    replace (Zdigits2 m1 - 53 + 53) with (Zdigits2 m1) by lia. lia. }
  destruct (shr_m mrs'') as [|m2|m2]; try lia.
  unfold prec, emax.
  replace (e'' <=? 1024 - 53) with true by (symmetry; apply Z.leb_le; lia).
  exists m2, e''. split; [reflexivity|]. split; [assumption|lia].
Qed.

(** [Math.round] of a small positive Number is a small integer. *)
Lemma Math_round_small m e :
  Zpos m < 2 ^ 53 -> e <= -33 ->
  exists r, 0 <= r <= 2 ^ 20 /\ Math_round (S754_finite false m e) = (#r)%js.
Proof.
  intros Hm He. cbn [Math_round cond_Zopp].
  replace (0 <=? e) with false by (symmetry; apply Z.leb_gt; lia).
  set (r := (2 * Zpos m + 2 ^ (- e)) / 2 ^ (1 - e)).
  assert (P1 : 0 < 2 ^ (- e)) by (apply Z.pow_pos_nonneg; lia).
  assert (P2 : 2 ^ (1 - e) = 2 * 2 ^ (- e)).
  { replace (1 - e) with (1 + - e) by lia. rewrite Z.pow_add_r by lia. reflexivity. }
  assert (P3 : 2 ^ 54 <= 2 ^ 20 * 2 ^ (1 - e)).
  { rewrite <- Z.pow_add_r by lia. apply Z.pow_le_mono_r; lia. }
  assert (P4 : 2 ^ 54 = 2 * 2 ^ 53) by reflexivity.
  assert (Hr : 0 <= r <= 2 ^ 20).
  { unfold r. split.
    - apply Z.div_pos; lia.
    - apply Z.lt_succ_r. apply Z.div_lt_upper_bound; lia. }
  exists r. split; [exact Hr|].
  destruct (Z.eqb_spec r 0) as [->|]; reflexivity.
Qed.

(** The product of a small integer and a small positive Number, rounded
    with a floor of 1, is an integer. *)
Lemma rescale_share p f :
  0 <= p <= 100 -> small_positive f = true ->
  exists r, 1 <= r <= 2 ^ 20
            /\ Math_max (#1)%js (Math_round (#p * f)%js) = (#r)%js.
Proof.
  intros Hp Hf.
  destruct f as [| | |[|] mf ef]; try discriminate Hf.
  cbn [small_positive] in Hf.
  apply andb_true_iff in Hf. destruct Hf as [Hf H3].
  apply andb_true_iff in Hf. destruct Hf as [H1 H2].
  apply Z.eqb_eq in H1. apply Z.leb_le in H2, H3.
  assert (E7 : 2 ^ 7 = 128) by reflexivity.
  assert (L7 : 2 ^ 7 <= 2 ^ 53) by (apply Z.pow_le_mono_r; lia).
  assert (L20 : 2 ^ 20 < 2 ^ 53) by (apply Z.pow_lt_mono_r; lia).
  assert (E20 : 2 ^ 20 = 1048576) by reflexivity.
  rewrite (of_Z_canon p) by lia.
  destruct p as [|n|n]; try lia.
  - exists 1. split; [lia|]. reflexivity.
  - cbn [canon]. unfold mul. cbn [SFmul xorb].
    assert (Hd : digits n <= 7) by (apply digits_le; lia).
    pose proof (digits_pos n) as Hd1.
    set (mx := shl n (53 - digits n)).
    assert (Hdx : digits mx = 53) by (unfold mx; rewrite shl_digits by lia; lia).
    pose proof (digits_mul mx mf) as Hdm.
    destruct (round_aux_wide false (mx * mf) (digits n - 53 + ef))
      as (m & e' & -> & Hm & He'); try lia.
    destruct (Math_round_small m e' Hm) as (r & Hr & ->); [lia|].
    exists (Z.max 1 r). split; [lia|].
    apply Math_max_exact; unfold safe; lia.
Qed.

Lemma factor_table :
  for_all 1 99 (fun a => for_all 1 100 (fun t => factor_ok a t)) = true.
Proof. vm_compute. reflexivity. Qed.

Lemma factor_small a t :
  1 <= a <= 99 -> 1 <= t <= 100 -> small_positive (#a / #t)%js = true.
Proof.
  intros Ha Ht.
  pose proof (for_all_spec _ _ _ factor_table a Ha) as T. cbv beta in T.
  exact (for_all_spec _ _ _ T t Ht).
Qed.

Lemma filter_index_update_at {A : Type} (f : A -> A) index (l : list A) : forall i,
  i <= index ->
  filter_index index i (update_at f (Z.to_nat (index - i)) l) = filter_index index i l.
Proof.
  induction l as [|x l IH]; intros i H.
  { destruct (Z.to_nat (index - i)); reflexivity. }
  destruct (Z.eqb_spec i index) as [->|N].
  - rewrite Z.sub_diag. cbn [Z.to_nat update_at filter_index].
    rewrite Z.eqb_refl. reflexivity.
  - replace (Z.to_nat (index - i)) with (S (Z.to_nat (index - (i + 1)))) by lia.
    cbn [update_at filter_index].
    destruct (Z.eqb_spec i index); [lia|]. f_equal. apply IH. lia.
Qed.

(** The loop of [updateLanguagePercentage] keeps integers. *)
Lemma rescale_others_integers index factor zs :
  small_positive factor = true ->
  (forall z, In z zs -> 0 <= z <= 100) ->
  forall L i, percentages L = map JS.of_Z zs ->
  exists rs,
    percentages (rescale_others index factor i L) = map JS.of_Z rs
    /\ Forall2 (fun z r => 0 <= r <= 2 ^ 20 * 1 /\ (1 <= z -> 1 <= r)) zs rs.
Proof.
  intros Hf. assert (E20 : 2 ^ 20 = 1048576) by reflexivity.
  induction zs as [|z zs IH]; intros Hz L i E.
  - destruct L; [|discriminate]. exists []. split; constructor.
  - destruct L as [|x L]; [discriminate|]. cbn [percentages map] in E.
    injection E as Ex EL.
    destruct (IH (fun y Hy => Hz y (in_cons _ _ _ Hy)) L (i + 1) EL) as (rs & Ers & Hrs).
    specialize (Hz z (in_eq _ _)).
    unfold rescale_others in *. cbn [indexed map fst snd percentages].
    destruct (i =? index).
    + exists (z :: rs). split.
      * fold (percentages (map (fun il => if fst il =? index then snd il
           else with_percentage (snd il)
                  (Math_max (#1)%js (Math_round (percentage (snd il) * factor)%js)))
           (indexed (i + 1) L))).
        rewrite Ers, Ex. reflexivity.
      * constructor; [lia|exact Hrs].
    + destruct (rescale_share z factor Hz Hf) as (r & Hr & Er).
      exists (r :: rs). split.
      * cbn [with_percentage percentage]. rewrite Ex, Er.
        fold (percentages (map (fun il => if fst il =? index then snd il
           else with_percentage (snd il)
                  (Math_max (#1)%js (Math_round (percentage (snd il) * factor)%js)))
           (indexed (i + 1) L))).
        rewrite Ers. reflexivity.
      * constructor; [lia|exact Hrs].
Qed.

Lemma replace_nth_in {A : Type} (y : A) (l : list A) k :
  (k < length l)%nat -> In y (replace_nth k y l).
Proof.
  unfold replace_nth. revert k. induction l as [|x l IH]; intros [|k] H;
    cbn [length] in H; try lia; cbn [update_at].
  - left. reflexivity.
  - right. apply IH. lia.
Qed.

Lemma replace_nth_bounds (P : Z -> Prop) y (l : list Z) k :
  P y -> (forall z, In z l -> P z) -> forall z, In z (replace_nth k y l) -> P z.
Proof.
  unfold replace_nth. intros Hy. revert k.
  induction l as [|x l IH]; intros [|k] H z Hz; cbn [update_at] in Hz.
  - destruct Hz.
  - destruct Hz.
  - destruct Hz as [<-|Hz]; [exact Hy|]. apply H. right. exact Hz.
  - destruct Hz as [<-|Hz]; [apply H; left; reflexivity|].
    apply (IH k); [|exact Hz]. intros w Hw. apply H. right. exact Hw.
Qed.

Lemma nonneg_total L zs :
  percentages L = map JS.of_Z zs -> (forall z, In z zs -> 0 <= z) ->
  Zsum zs <= 100 -> integer_percentages L zs.
Proof.
  intros E Hz Hs. split; [exact E|]. rewrite (nonneg_abs zs Hz).
  assert (100 < 2 ^ 50) by reflexivity. lia.
Qed.

Lemma percentages_length L zs :
  percentages L = map JS.of_Z zs -> length zs = length L.
Proof.
  intros E. rewrite <- (length_map JS.of_Z zs), <- E. apply length_map.
Qed.

(** The entries besides the one at [i], when the list totals 100. *)
Lemma others_total L zs i :
  percentages L = map JS.of_Z zs -> (forall z, In z zs -> 0 <= z) ->
  Zsum zs = 100 -> 0 <= i < len L ->
  let ps := filter_index i 0 zs in
  percentages (filter_index i 0 L) = map JS.of_Z ps
  /\ Zsum ps = 100 - nth (Z.to_nat i) zs 0
  /\ (forall p, In p ps -> 0 <= p <= Zsum ps)
  /\ total (filter_index i 0 L) = (#(Zsum ps))%js
  /\ 0 <= nth (Z.to_nat i) zs 0 <= 100.
Proof.
  intros E Hz Hsum Hi ps. pose proof (percentages_length L zs E) as Hlen.
  unfold len in Hi.
  assert (Et : Zsum ps = 100 - nth (Z.to_nat i) zs 0).
  { unfold ps. rewrite Zsum_filter_index by (unfold len; lia).
    rewrite Z.sub_0_r. lia. }
  assert (Hn : forall y, In y ps -> 0 <= y).
  { intros y Hy. apply Hz. apply (filter_index_in _ _ _ _ Hy). }
  assert (Ep : percentages (filter_index i 0 L) = map JS.of_Z ps).
  { unfold percentages, ps. rewrite view_filter_index.
    change (map percentage L) with (percentages L). rewrite E.
    symmetry. apply view_filter_index. }
  assert (Hnth : 0 <= nth (Z.to_nat i) zs 0) by (apply Hz, nth_In; lia).
  assert (Hpos : 0 <= Zsum ps).
  { rewrite <- (nonneg_abs ps Hn). apply Zsum_abs_nonneg. }
  split; [exact Ep|]. split; [exact Et|]. split.
  - intros p Hp. split; [apply Hn, Hp|apply nonneg_le_sum; assumption].
  - split; [|lia]. apply integer_total. apply nonneg_total; [exact Ep|exact Hn|lia].
Qed.

Lemma Forall2_length_bound c zs rs :
  0 <= c ->
  Forall2 (fun (z r : Z) => 0 <= r <= c * 1 /\ (1 <= z -> 1 <= r)) zs rs ->
  Zsum_abs rs <= c * len zs.
Proof.
  intros Hc F. unfold len. induction F as [|z r zs rs [Hr _] F IH]; [simpl; lia|].
  cbn [Zsum_abs fold_right length]. fold (Zsum_abs rs). lia.
Qed.

Section Totals.

Local Open Scope string_scope.
Local Open Scope Z_scope.

(** X8: adding a language to a list of integer percentages between 0
    and 100, with a share between 1 and 100 or with the default share,
    returns a list whose percentages total exactly 100. *)
Theorem addEntry_total L zs newLanguage share :
  percentages L = map JS.of_Z zs ->
  (forall z, In z zs -> 0 <= z <= 100) ->
  len L < 2 ^ 20 ->
  1 <= share <= 100 ->
  (total (addEntry L newLanguage (Some (#share)%js)) === #100)%js = true
  /\ (total (addEntry L newLanguage None) === #100)%js = true.
Proof.
  intros E Hz Hlen Hs.
  assert (Hb : Zsum_abs zs <= 100 * 2 ^ 20).
  { assert (El : len zs = len L).
    { unfold len. f_equal.
      rewrite <- (length_map JS.of_Z zs), <- E. apply length_map. }
    pose proof (bounded_sum 100 zs Hz). lia. }
  assert (G : forall s, 1 <= s <= 100 ->
            (total (addEntry L newLanguage (Some (#s)%js)) === #100)%js = true).
  { clear share Hs. intros s Hs. rewrite addEntry_unfold. cbv zeta.
    destruct L as [|x L']; [reflexivity|]. set (L := x :: L') in *.
    rewrite sub_exact by (unfold safe; lia).
    destruct (map_integers (fun z r => 0 <= r <= 1 * z)
                (fun x => Math_round ((x / #100) * #(100 - s))%js) zs)
      as (rs & Ers & Hrs).
    { intros z Hin.
      assert (Hq : 0 <= 100 - s <= 100) by lia.
      destruct (add_share z (100 - s) (Hz z Hin) Hq) as (r & Hr & Er).
      exists r. split; [cbv beta; lia|exact Er]. }
    apply (normalize_total _ (rs ++ [s])).
    - split.
      + rewrite percentages_app, percentages_rescaled, E, Ers, map_app. reflexivity.
      + rewrite Zsum_abs_app.
        assert (H1 : 0 <= 1) by lia.
        pose proof (Zsum_abs_scaled 1 zs rs H1 Hrs).
        cbn [Zsum_abs fold_right].
        assert (100 * 2 ^ 20 + 100 < 2 ^ 50) by reflexivity. lia.
    - exists s. split; [apply in_or_app; right; left; reflexivity|lia]. }
  split; [apply G; assumption|].
  replace (addEntry L newLanguage None) with (addEntry L newLanguage (Some (#5)%js)).
  - apply G. lia.
  - rewrite !addEntry_unfold. reflexivity.
Qed.

Lemma addEntry_total_witness :
  let L := [entry "JavaScript" 62 "lang-javascript";
            entry "TypeScript" 23 "lang-typescript";
            entry "CSS" 10 "lang-css"; entry "HTML" 5 "lang-html"] in
  let python := entry "Python" 0 "lang-python" in
  (total (addEntry L python (Some (#15)%js)) === #100)%js = true
  /\ (total (addEntry L python None) === #100)%js = true.
Proof.
  intros L python. apply (addEntry_total L [62; 23; 10; 5] python 15).
  - reflexivity.
  - intros z Hin. cbn in Hin. lia.
  - reflexivity.
  - lia.
Defined.

(** X9: removing an entry from a list of non-negative integer
    percentages that total 100 returns a list that totals exactly 100
    again, as long as the removed entry did not hold all 100. *)
Theorem removeEntry_total L zs indexToRemove :
  percentages L = map JS.of_Z zs ->
  (forall z, In z zs -> 0 <= z) ->
  Zsum zs = 100 ->
  0 <= indexToRemove < len L ->
  nth (Z.to_nat indexToRemove) zs 0 < 100 ->
  (total (removeEntry L indexToRemove) === #100)%js = true.
Proof.
  intros E Hz Hsum Hi Hlt.
  pose proof (percentages_length L zs E) as Hl.
  destruct (others_total L zs indexToRemove E Hz Hsum Hi)
    as (Ep & Et & Hps & Etot & Hnth).
  set (ps := filter_index indexToRemove 0 zs) in *. set (t := Zsum ps) in *.
  rewrite removeEntry_unfold.
  destruct (_ || _ || _).
  { rewrite (integer_total L zs (nonneg_total L zs E Hz ltac:(lia))), Hsum.
    reflexivity. }
  cbv zeta. unfold len in Hi.
  rewrite Etot, (pct_integer L zs _ E) by lia.
  replace (nth (Z.to_nat indexToRemove) zs 0) with (100 - t) by lia.
  destruct (map_integers
              (fun p r => (if p =? 0 then 0 else 1) <= r <= 100 * p)
              (fun x => Math_round (x + (x / #t) * #(100 - t))%js) ps)
    as (rs & Ers & Hrs).
  { intros p Hp. apply remove_share; [lia|apply Hps, Hp]. }
  apply (normalize_total _ rs).
  - split.
    + rewrite percentages_rescaled, Ep. exact Ers.
    + assert (F : Forall2 (fun z r => 0 <= r <= 100 * z) ps rs).
      { revert Hrs. apply Forall2_weaken.
        intros p r _ Hr. destruct (p =? 0); lia. }
      assert (H100 : 0 <= 100) by lia.
      pose proof (Zsum_abs_scaled 100 ps rs H100 F) as B.
      assert (Ea : Zsum_abs ps = t).
      { apply nonneg_abs. intros y Hy. apply Hps, Hy. }
      rewrite Ea in B.
      assert (100 * 100 < 2 ^ 50) by reflexivity. lia.
  - destruct (positive_entry ps) as (p & Hp & Pp).
    + intros y Hy. apply Hps, Hy.
    + fold t. lia.
    + destruct (Forall2_positive _ ps rs p Hrs Hp) as (r & Hr & Pr).
      exists r. split; [exact Hr|].
      destruct (Z.eqb_spec p 0); lia.
Qed.

Lemma removeEntry_total_witness :
  (total (removeEntry [entry "JavaScript" 62 "lang-javascript";
                       entry "TypeScript" 23 "lang-typescript";
                       entry "CSS" 10 "lang-css"; entry "HTML" 5 "lang-html"] 1)
   === #100)%js = true.
Proof.
  apply (removeEntry_total _ [62; 23; 10; 5] 1).
  - reflexivity.
  - intros z Hin. cbn in Hin. lia.
  - reflexivity.
  - split; [discriminate|reflexivity].
  - reflexivity.
Defined.

(** X10: editing a percentage in a list of non-negative integer
    percentages that total 100 returns a list that totals exactly 100,
    whatever is typed, as long as the other entries do not all hold 0. *)
Theorem updatePercentage_total L zs index newPercentage :
  percentages L = map JS.of_Z zs ->
  (forall z, In z zs -> 0 <= z) ->
  Zsum zs = 100 ->
  len L < 2 ^ 20 ->
  0 <= index < len L ->
  nth (Z.to_nat index) zs 0 < 100 ->
  (total (updatePercentage L index newPercentage) === #100)%js = true.
Proof.
  intros E Hz Hsum Hlen Hi Hlt.
  pose proof (nonneg_total L zs E Hz ltac:(lia)) as H.
  assert (Hstay : (total L === #100)%js = true).
  { rewrite (integer_total L zs H), Hsum. reflexivity. }
  pose proof (percentages_length L zs E) as Hl.
  destruct (others_total L zs index E Hz Hsum Hi) as (Ep & Et & Hps & Etot & Hnth).
  set (t := Zsum (filter_index index 0 zs)) in *.
  rewrite updatePercentage_unfold.
  destruct (_ || _ || _); [exact Hstay|]. cbv zeta.
  set (k := Z.to_nat index) in *. unfold len in Hi.
  rewrite validate_exact. pose proof (validated_range newPercentage) as Hw.
  set (w := validated newPercentage) in *.
  rewrite (pct_integer L zs k E) by lia.
  rewrite sub_exact by (unfold safe; lia).
  rewrite strict_eq_exact by (unfold safe; lia).
  destruct (Z.eqb_spec (w - nth k zs 0) 0) as [|Hne]; [exact Hstay|].
  assert (F : filter_index index 0 (set_percentage L k (#w)%js) = filter_index index 0 L).
  { unfold set_percentage, k. rewrite <- (Z.sub_0_r index) at 2.
    apply filter_index_update_at. lia. }
  rewrite F, Etot.
  rewrite sub_exact by (unfold safe; lia).
  replace (t - (w - nth k zs 0)) with (100 - w) by lia.
  pose proof (factor_small (100 - w) t ltac:(lia) ltac:(lia)) as Hf.
  set (factor := (#(100 - w) / #t)%js) in *.
  set (zs1 := replace_nth k w zs).
  assert (E1 : percentages (set_percentage L k (#w)%js) = map JS.of_Z zs1).
  { rewrite percentages_set, E. apply replace_nth_map. }
  assert (Hz1 : forall z, In z zs1 -> 0 <= z <= 100).
  { apply replace_nth_bounds; [lia|]. intros z Hin. split; [apply Hz, Hin|].
    rewrite <- Hsum. apply nonneg_le_sum; assumption. }
  destruct (rescale_others_integers index factor zs1 Hf Hz1 _ 0 E1) as (rs & Ers & Hrs).
  apply (normalize_total _ rs).
  - split; [exact Ers|].
    pose proof (Forall2_length_bound (2 ^ 20) zs1 rs ltac:(lia) Hrs) as B.
    assert (El : len zs1 = len L).
    { unfold len, zs1, replace_nth. rewrite update_at_length, Hl. reflexivity. }
    rewrite El in B.
    assert (2 ^ 20 * 2 ^ 20 < 2 ^ 50) by reflexivity. nia.
  - assert (Hin : In w zs1) by (apply replace_nth_in; lia).
    destruct (Forall2_positive _ zs1 rs w Hrs Hin) as (r & Hr & _ & Pr).
    exists r. split; [exact Hr|lia].
Qed.

Lemma updatePercentage_total_witness :
  (total (updatePercentage [entry "JavaScript" 62 "lang-javascript";
                            entry "TypeScript" 23 "lang-typescript";
                            entry "CSS" 10 "lang-css"; entry "HTML" 5 "lang-html"]
            2 (RawString "40")) === #100)%js = true.
Proof.
  apply (updatePercentage_total _ [62; 23; 10; 5] 2 (RawString "40")).
  - reflexivity.
  - intros z Hin. cbn in Hin. lia.
  - reflexivity.
  - reflexivity.
  - split; [discriminate|reflexivity].
  - reflexivity.
Defined.

End Totals.

(* ================================================================= *)
(** * The handlers of the component

    [addLanguage], [removeLanguage] and the percentage edit
    [updateLanguage] of [GitHubPreviewGenerator.jsx]. *)

Lemma distinct_NoDup l : distinct l = true -> NoDup l.
Proof.
  induction l as [|x l IH]; cbn [distinct]; intros H; constructor.
  - apply andb_true_iff in H. destruct H as [H _]. apply negb_true_iff in H.
    intros Hin. assert (existsb (String.eqb x) l = true); [|congruence].
    apply existsb_exists. exists x. split; [exact Hin|apply String.eqb_refl].
  - apply IH. apply andb_true_iff in H. tauto.
Qed.

Lemma languageOptions_NoDup : NoDup languageOptions.
Proof. apply distinct_NoDup. vm_compute. reflexivity. Qed.

Lemma used_spec L lang :
  existsb (fun item => String.eqb (name item) lang) L = true <-> In lang (names L).
Proof.
  unfold names. rewrite existsb_exists, in_map_iff. split.
  - intros (x & Hx & E). apply String.eqb_eq in E. eauto.
  - intros (x & E & Hx). exists x. split; [exact Hx|]. apply String.eqb_eq, E.
Qed.

(** With fewer names than options, one option is unused. *)
Lemma some_unused L :
  (length L < length languageOptions)%nat ->
  filter (fun lang => negb (existsb (fun item => String.eqb (name item) lang) L))
         languageOptions <> [].
Proof.
  intros Hlen E.
  assert (Hincl : incl languageOptions (names L)).
  { intros lang Hin. apply used_spec.
    destruct (existsb _ L) eqn:U; [reflexivity|].
    assert (Hf : In lang (filter (fun lang => negb (existsb
                   (fun item => String.eqb (name item) lang) L)) languageOptions)).
    { apply filter_In. split; [exact Hin|]. rewrite U. reflexivity. }
    rewrite E in Hf. destruct Hf. }
  pose proof (NoDup_incl_length languageOptions_NoDup Hincl) as Hle.
  unfold names in Hle. rewrite length_map in Hle. lia.
Qed.

Section Component.

Local Open Scope string_scope.
Local Open Scope Z_scope.

(** X11: the Add button of the component, with fewer than six
    languages, always appends exactly one language, at 5: its name is an
    option that no entry of the list carries, so that distinct names stay
    distinct. *)
Theorem addLanguage_adds_unused L :
  len L < 6 ->
  exists unused,
    In unused languageOptions /\ ~ In unused (names L)
    /\ names (addLanguage L) = (names L ++ [unused])%list
    /\ nth_error (percentages (addLanguage L)) (length L) = Some (#5)%js
    /\ (NoDup (names L) -> NoDup (names (addLanguage L))).
Proof.
  unfold addLanguage. intros H.
  replace (6 <=? len L) with false by (symmetry; apply Z.leb_gt; lia).
  pose proof (some_unused L) as Hne.
  destruct (filter _ languageOptions) as [|unused rest] eqn:E.
  { exfalso. apply Hne; [|reflexivity]. unfold len in H.
    change (length languageOptions) with 37%nat. lia. }
  assert (Hin : In unused (unused :: rest)) by (left; reflexivity).
  rewrite <- E in Hin. apply filter_In in Hin. destruct Hin as [Hopt Hun].
  apply negb_true_iff in Hun.
  assert (Hnot : ~ In unused (names L)).
  { intros Hc. apply used_spec in Hc. congruence. }
  exists unused. split; [exact Hopt|]. split; [exact Hnot|].
  cbv zeta. unfold names, percentages. rewrite !map_app.
  match goal with |- context [rescaled ?f L] =>
    destruct (names_rescaled f L) as [En _];
    pose proof (rescaled_length f L) as El end.
  unfold names in En. rewrite En. cbn [map name percentage].
  split; [reflexivity|]. split.
  - rewrite nth_error_app2 by (rewrite length_map, El; lia).
    rewrite length_map, El, Nat.sub_diag. reflexivity.
  - intros Hnd. apply NoDup_app; [exact Hnd|repeat constructor; intros []|].
    intros a Ha [<-|[]]. exact (Hnot Ha).
Qed.

Lemma addLanguage_adds_unused_witness :
  let L := [entry "JavaScript" 62 "lang-javascript";
            entry "TypeScript" 23 "lang-typescript";
            entry "CSS" 10 "lang-css"; entry "HTML" 5 "lang-html"] in
  exists unused,
    In unused languageOptions /\ ~ In unused (names L)
    /\ names (addLanguage L) = (names L ++ [unused])%list
    /\ nth_error (percentages (addLanguage L)) (length L) = Some (#5)%js
    /\ (NoDup (names L) -> NoDup (names (addLanguage L))).
Proof.
  intros L. apply (addLanguage_adds_unused L). reflexivity.
Defined.

(** X12: the Remove button of the component, on non-negative integer
    percentages that total 100: removing a row that does not hold all
    100 leaves the other rows, in order, with a total of exactly 100. *)
Theorem removeLanguage_total L zs index :
  percentages L = map JS.of_Z zs ->
  (forall z, In z zs -> 0 <= z) ->
  Zsum zs = 100 ->
  0 <= index < len L ->
  nth (Z.to_nat index) zs 0 < 100 ->
  names (removeLanguage L index) = without (Z.to_nat index) (names L)
  /\ (total (removeLanguage L index) === #100)%js = true.
Proof.
  intros E Hz Hsum Hi Hlt.
  pose proof (percentages_length L zs E) as Hl.
  destruct (others_total L zs index E Hz Hsum Hi) as (Ep & Et & Hps & Etot & Hnth).
  set (ps := filter_index index 0 zs) in *. set (t := Zsum ps) in *.
  assert (H2 : 2 <= len L).
  { unfold len in *. destruct zs as [|z0 [|z1 zs']]; cbn [length] in Hl.
    - lia.
    - assert (index = 0) by lia. subst index. cbn in Hlt, Hsum. lia.
    - lia. }
  unfold removeLanguage.
  replace (len L <=? 1) with false by (symmetry; apply Z.leb_gt; lia).
  replace (index <? 0) with false by (symmetry; apply Z.ltb_ge; lia).
  replace (len L <=? index) with false by (symmetry; apply Z.leb_gt; lia).
  cbn [orb]. cbv zeta. unfold len in Hi.
  change (fold_left (fun sum lang => (sum + percentage lang)%js)
                    (filter_index index 0 L) (#0)%js)
    with (total (filter_index index 0 L)).
  rewrite Etot, (pct_integer L zs _ E) by lia.
  replace (nth (Z.to_nat index) zs 0) with (100 - t) by lia.
  destruct (map_integers
              (fun p r => (if p =? 0 then 0 else 1) <= r <= 100 * p)
              (fun x => Math_round (x + (x / #t) * #(100 - t))%js) ps)
    as (rs & Ers & Hrs).
  { intros p Hp. apply remove_share; [lia|apply Hps, Hp]. }
  set (updated := rescaled _ (filter_index index 0 L)).
  change (fold_left (fun sum lang => (sum + percentage lang)%js) updated (#0)%js)
    with (total updated).
  assert (Eu : percentages updated = map JS.of_Z rs).
  { unfold updated. rewrite percentages_rescaled, Ep. exact Ers. }
  assert (Hb : Zsum_abs rs <= 100 * 100).
  { assert (F : Forall2 (fun z r => 0 <= r <= 100 * z) ps rs).
    { revert Hrs. apply Forall2_weaken.
      intros p r _ Hr. destruct (p =? 0); lia. }
    assert (H100 : 0 <= 100) by lia.
    pose proof (Zsum_abs_scaled 100 ps rs H100 F) as B.
    assert (Ea : Zsum_abs ps = t).
    { apply nonneg_abs. intros y Hy. apply Hps, Hy. }
    rewrite Ea in B. lia. }
  assert (B50 : 100 * 100 + 100 * 100 + 100 < 2 ^ 50) by reflexivity.
  pose proof (Zsum_le_abs rs) as Hsr.
  assert (Hu : integer_percentages updated rs) by (split; [exact Eu|lia]).
  assert (Hnames : names updated = without (Z.to_nat index) (names L)).
  { unfold updated. destruct (names_rescaled
      (fun x => Math_round (x + x / #t * #(100 - t))%js) (filter_index index 0 L)) as [-> _].
    unfold names. rewrite view_filter_index.
    rewrite <- (Z.sub_0_r index) at 2. apply filter_index_without.
    unfold len. rewrite length_map. lia. }
  rewrite (integer_total updated rs Hu).
  rewrite strict_eq_exact by (unfold safe; lia).
  destruct (Z.eqb_spec (Zsum rs) 100) as [E100|N100]; cbn [negb andb].
  - split; [exact Hnames|].
    rewrite (integer_total updated rs Hu), E100. reflexivity.
  - assert (Hlu : 0 < len updated).
    { unfold len, updated. rewrite rescaled_length.
      destruct (filter_index index 0 L) eqn:EF; [|cbn; lia].
      cbn in Ep. symmetry in Ep. apply map_eq_nil in Ep.
      assert (t = 0) by (unfold t; rewrite Ep; reflexivity). lia. }
    replace (0 <? len updated) with true by (symmetry; apply Z.ltb_lt; exact Hlu).
    split.
    + destruct (names_set_percentage updated O
                  (pct updated O + (#100 - #(Zsum rs)))%js) as [En _].
      unfold names at 1. rewrite En. exact Hnames.
    + destruct rs as [|r0 rs'].
      { destruct updated; [cbn in Hlu; lia|discriminate]. }
      rewrite (percentages_nth updated (r0 :: rs') O r0 Eu eq_refl).
      pose proof (In_abs_le r0 (r0 :: rs') (in_eq _ _)) as Hr0.
      rewrite sub_exact, add_exact by (unfold safe; lia).
      rewrite total_sum, percentages_set, Eu, replace_nth_map.
      pose proof (Zsum_abs_replace (r0 :: rs') O (r0 + (100 - Zsum (r0 :: rs')))) as Hr.
      rewrite sum_numbers_exact by lia.
      rewrite (Zsum_replace (r0 :: rs') O r0 _ eq_refl).
      rewrite strict_eq_exact by (unfold safe; lia). apply Z.eqb_eq. lia.
Qed.

Lemma removeLanguage_total_witness :
  let L := [entry "JavaScript" 62 "lang-javascript";
            entry "TypeScript" 23 "lang-typescript";
            entry "CSS" 10 "lang-css"; entry "HTML" 5 "lang-html"] in
  names (removeLanguage L 0) = without 0 (names L)
  /\ (total (removeLanguage L 0) === #100)%js = true.
Proof.
  intros L. apply (removeLanguage_total L [62; 23; 10; 5] 0).
  - reflexivity.
  - intros z Hin. cbn in Hin. lia.
  - reflexivity.
  - split; [discriminate|reflexivity].
  - reflexivity.
Defined.

End Component.

(* ----------------------------------------------------------------- *)
(** ** updateLanguage of the component as a function on lists *)

Lemma component_loop index newValue factor n suf : forall pre,
  (length pre + length suf = n)%nat ->
  fold_left (component_step index newValue factor (seq 0 n))
            (map Z.of_nat (seq (length pre) (length suf))) (pre ++ suf)
  = pre ++ rescale_around index newValue factor (Z.of_nat (length pre)) suf.
Proof.
  induction suf as [|x suf IH]; intros pre Hn; [reflexivity|].
  cbn [length seq map fold_left]. unfold rescale_around. cbn [indexed map fst snd].
  unfold component_step at 2.
  cbn [length] in Hn.
  rewrite Nat2Z.id, seq_nth by lia. cbn [Nat.add].
  assert (P : pct (pre ++ x :: suf) (length pre) = percentage x).
  { unfold pct, deref. rewrite app_nth2, Nat.sub_diag by lia. reflexivity. }
  rewrite P, !set_percentage_middle.
  destruct (Z.of_nat (length pre) =? index) eqn:E.
  - set (x' := with_percentage x _).
    specialize (IH (pre ++ [x'])). rewrite length_app in IH. cbn [length] in IH.
    rewrite Nat.add_1_r, <- app_assoc in IH. cbn [app] in IH.
    rewrite IH by lia. unfold rescale_around.
    rewrite <- app_assoc, Nat2Z.inj_succ. reflexivity.
  - set (x' := with_percentage x _).
    specialize (IH (pre ++ [x'])). rewrite length_app in IH. cbn [length] in IH.
    rewrite Nat.add_1_r, <- app_assoc in IH. cbn [app] in IH.
    rewrite IH by lia. unfold rescale_around.
    rewrite <- app_assoc, Nat2Z.inj_succ. reflexivity.
Qed.

Lemma rescale_around_length index newValue factor L : forall i,
  length (rescale_around index newValue factor i L) = length L.
Proof.
  intros i. unfold rescale_around. rewrite length_map.
  revert i. induction L; intros i; cbn [indexed length]; auto.
Qed.

Lemma view_same_length h (L : list LanguageEntry) :
  length h = length L -> view h (addresses L) = h.
Proof. intros E. unfold addresses. rewrite <- E. apply view_addresses. Qed.

Lemma updateLanguage_unfold L index value :
  0 <= index < len L ->
  run (fun h a => updateLanguage h a index value) L =
  let k := Z.to_nat index in
  let newValue := validate value in
  let diff := (newValue - pct L k)%js in
  if negb (diff === #0)%js then
    let othersTotal := total (filter_index index 0 L) in
    let factor := ((othersTotal - diff) / othersTotal)%js in
    let L2 := rescale_around index newValue factor 0 L in
    let adjustedTotal := total L2 in
    if negb (adjustedTotal === #100)%js then
      let largestIndex := largest_index_besides index (percentages L2) in
      if 0 <=? largestIndex then
        let r := nth (Z.to_nat largestIndex) (addresses L) O in
        set_percentage L2 r (pct L2 r + (#100 - adjustedTotal))%js
      else L2
    else L2
  else L.
Proof.
  intros Hi. unfold len in Hi. unfold run, updateLanguage. cbv zeta.
  rewrite nth_addresses by lia.
  destruct (_ === _)%js; cbn [negb]; [apply view_addresses|].
  assert (T : total_percentage L (filter_index index 0 (addresses L))
              = total (filter_index index 0 L)).
  { assert (V : view L (filter_index index 0 (addresses L))
                = filter_index index 0 L).
    { unfold view. rewrite view_filter_index. f_equal. apply view_addresses. }
    rewrite total_percentage_sum, total_sum. f_equal.
    rewrite <- V. unfold percentages, view. rewrite map_map. reflexivity. }
  rewrite T.
  set (factor := (_ / _)%js).
  set (L2 := rescale_around index (validate value) factor 0 L).
  assert (EL : fold_left (component_step index (validate value) factor (addresses L))
                         (indices (addresses L)) L = L2).
  { unfold indices, addresses. rewrite length_seq.
    exact (component_loop index (validate value) factor (length L) L [] eq_refl). }
  rewrite EL.
  assert (E2 : length L2 = length L) by apply rescale_around_length.
  assert (A2 : addresses L = addresses L2) by (unfold addresses; rewrite E2; reflexivity).
  assert (T2 : total_percentage L2 (addresses L) = total L2)
    by (rewrite A2; apply total_addresses).
  assert (P2 : map (pct L2) (addresses L) = percentages L2)
    by (rewrite A2; apply pct_addresses).
  rewrite T2, P2.
  destruct (_ === _)%js; cbn [negb]; [apply view_same_length, E2|].
  destruct (0 <=? _); [|apply view_same_length, E2].
  apply view_same_length. rewrite set_percentage_length. exact E2.
Qed.

(* ----------------------------------------------------------------- *)
(** ** The search besides the edited entry, on integers *)

Lemma besides_search index rs : forall i j m,
  0 <= m -> safe m -> (forall r, In r rs -> safe r) ->
  exists j' m',
    fold_left (fun max curr => if (snd curr > snd max)%js then curr else max)
      (map (fun ip => if fst ip =? index then (-1, (#0)%js) else ip)
           (indexed i (map JS.of_Z rs)))
      (j, (#m)%js) = (j', (#m')%js)
    /\ ((m' = m /\ j' = j) \/ (m < m' /\ i <= j' < i + len rs /\ j' <> index))
    /\ (forall p r, nth_error rs p = Some r -> i + Z.of_nat p <> index -> r <= m').
Proof.
  unfold len. induction rs as [|a rs IH]; intros i j m Hm Sm Hs.
  - exists j, m. split; [reflexivity|]. split; [left; auto|].
    intros [|p] r H; discriminate.
  - assert (Sa : safe a) by (apply Hs; left; reflexivity).
    assert (Hs' : forall r, In r rs -> safe r) by (intros r Hr; apply Hs; right; exact Hr).
    cbn [map indexed fold_left fst snd length].
    destruct (Z.eqb_spec i index) as [Ei|Ni]; cbn [snd].
    + rewrite gt_exact by (assumption || (unfold safe; cbn; lia)).
      replace (m <? 0) with false by (symmetry; apply Z.ltb_ge; lia).
      destruct (IH (i + 1) j m Hm Sm Hs') as (j' & m' & E & D & A).
      exists j', m'. split; [exact E|]. split.
      * destruct D as [D|D]; [left; exact D|right; lia].
      * intros [|p] r H N; cbn [nth_error] in H.
        -- lia.
        -- apply (A p r H). lia.
    + rewrite gt_exact by assumption.
      destruct (Z.ltb_spec m a) as [Hlt|Hge].
      * destruct (IH (i + 1) i a ltac:(lia) Sa Hs') as (j' & m' & E & D & A).
        exists j', m'. split; [exact E|]. split.
        -- right. destruct D as [[-> ->]|D]; lia.
        -- intros [|p] r H N; cbn [nth_error] in H.
           ++ injection H as <-. destruct D as [[-> _]|D]; lia.
           ++ apply (A p r H). lia.
      * destruct (IH (i + 1) j m Hm Sm Hs') as (j' & m' & E & D & A).
        exists j', m'. split; [exact E|]. split.
        -- destruct D as [D|D]; [left; exact D|right; lia].
        -- intros [|p] r H N; cbn [nth_error] in H.
           ++ injection H as <-. destruct D as [[-> _]|D]; lia.
           ++ apply (A p r H). lia.
Qed.

(** With a positive entry besides [index], the search finds an entry
    that is not the one at [index]. *)
Lemma largest_index_besides_found index rs p r :
  (forall z, In z rs -> safe z) ->
  nth_error rs p = Some r -> Z.of_nat p <> index -> 0 < r ->
  0 <= largest_index_besides index (map JS.of_Z rs) < len rs
  /\ largest_index_besides index (map JS.of_Z rs) <> index.
Proof.
  intros Hs Hp Np Hr. unfold largest_index_besides.
  destruct (besides_search index rs 0 (-1) 0 ltac:(lia) ltac:(unfold safe; cbn; lia) Hs)
    as (j' & m' & E & D & A).
  rewrite E. cbn [fst]. specialize (A p r Hp ltac:(lia)).
  destruct D as [[-> _]|D]; lia.
Qed.

(** The loop of the component keeps integers. *)
Lemma rescale_around_integers index w factor zs :
  small_positive factor = true ->
  (forall z, In z zs -> 0 <= z <= 100) -> 1 <= w <= 99 ->
  forall L i, percentages L = map JS.of_Z zs ->
  exists rs,
    percentages (rescale_around index (#w)%js factor i L) = map JS.of_Z rs
    /\ length rs = length zs
    /\ (forall p r, nth_error rs p = Some r ->
          1 <= r <= 2 ^ 20 /\ (i + Z.of_nat p = index -> r = w)).
Proof.
  intros Hf. assert (E20 : 2 ^ 20 = 1048576) by reflexivity.
  induction zs as [|z zs IH]; intros Hz Hw L i E.
  - destruct L; [|discriminate]. exists []. split; [reflexivity|].
    split; [reflexivity|]. intros [|p] r H; discriminate.
  - destruct L as [|x L]; [discriminate|]. cbn [percentages map] in E.
    injection E as Ex EL.
    destruct (IH (fun y Hy => Hz y (in_cons _ _ _ Hy)) Hw L (i + 1) EL)
      as (rs & Ers & Hl & Hrs).
    specialize (Hz z (in_eq _ _)).
    unfold rescale_around in *. cbn [indexed map fst snd percentages].
    destruct (Z.eqb_spec i index) as [Ei|Ni].
    + exists (w :: rs). split; [|split].
      * cbn [with_percentage percentage map]. f_equal. exact Ers.
      * cbn [length]. rewrite Hl. reflexivity.
      * intros [|p] r H; cbn [nth_error] in H.
        -- injection H as <-. split; [lia|reflexivity].
        -- destruct (Hrs p r H) as [B C]. split; [exact B|]. intros; apply C; lia.
    + destruct (rescale_share z factor Hz Hf) as (r0 & Hr0 & Er0).
      exists (r0 :: rs). split; [|split].
      * cbn [with_percentage percentage map]. rewrite Ex, Er0. f_equal. exact Ers.
      * cbn [length]. rewrite Hl. reflexivity.
      * intros [|p] r H; cbn [nth_error] in H.
        -- injection H as <-. split; [lia|]. intros; lia.
        -- destruct (Hrs p r H) as [B C]. split; [exact B|]. intros; apply C; lia.
Qed.

Lemma bounded_entries c rs :
  (forall p r, nth_error rs p = Some r -> 1 <= r <= c) ->
  Zsum_abs rs <= c * len rs.
Proof.
  intros H. apply bounded_sum. intros r Hr.
  apply In_nth_error in Hr. destruct Hr as (p & Hp).
  specialize (H p r Hp). lia.
Qed.

Lemma pct_set_other (L : list LanguageEntry) k j p :
  j <> k -> pct (set_percentage L j p) k = pct L k.
Proof.
  unfold pct, deref, set_percentage. revert k j.
  induction L as [|x L IH]; intros [|k] [|j] H; cbn [update_at nth]; try reflexivity.
  - congruence.
  - apply IH. congruence.
Qed.

Section Component_edit.

Local Open Scope string_scope.
Local Open Scope Z_scope.

(** X13: the percentage edit of the component, on non-negative integer
    percentages that total 100 with the other rows not all at 0: the
    edited row ends at exactly the value typed, clamped to 1..99, and
    the rows total exactly 100. *)
Theorem updateLanguage_keeps_value_and_total L zs index value :
  percentages L = map JS.of_Z zs ->
  (forall z, In z zs -> 0 <= z) ->
  Zsum zs = 100 ->
  len L < 2 ^ 20 ->
  0 <= index < len L ->
  nth (Z.to_nat index) zs 0 < 100 ->
  let result := run (fun h a => updateLanguage h a index value) L in
  pct result (Z.to_nat index) = validate value
  /\ (total result === #100)%js = true.
Proof.
  intros E Hz Hsum Hlen Hi Hlt. cbv zeta.
  pose proof (nonneg_total L zs E Hz ltac:(lia)) as H.
  assert (Hstay : (total L === #100)%js = true).
  { rewrite (integer_total L zs H), Hsum. reflexivity. }
  pose proof (percentages_length L zs E) as Hl.
  destruct (others_total L zs index E Hz Hsum Hi) as (Ep & Et & Hps & Etot & Hnth).
  set (t := Zsum (filter_index index 0 zs)) in *.
  rewrite (updateLanguage_unfold L index value Hi). cbv zeta.
  set (k := Z.to_nat index) in *. unfold len in Hi.
  rewrite validate_exact. pose proof (validated_range value) as Hw.
  set (w := validated value) in *.
  rewrite (pct_integer L zs k E) by lia.
  rewrite sub_exact by (unfold safe; lia).
  rewrite strict_eq_exact by (unfold safe; lia).
  destruct (Z.eqb_spec (w - nth k zs 0) 0) as [Ew|Hne]; cbn [negb].
  { split; [|exact Hstay]. rewrite (pct_integer L zs k E) by lia. f_equal. lia. }
  rewrite Etot.
  rewrite sub_exact by (unfold safe; lia).
  replace (t - (w - nth k zs 0)) with (100 - w) by lia.
  pose proof (factor_small (100 - w) t ltac:(lia) ltac:(lia)) as Hf.
  set (factor := (#(100 - w) / #t)%js) in *.
  assert (Hz1 : forall z, In z zs -> 0 <= z <= 100).
  { intros z Hin. split; [apply Hz, Hin|].
    rewrite <- Hsum. apply nonneg_le_sum; assumption. }
  destruct (rescale_around_integers index w factor zs Hf Hz1 Hw L 0 E)
    as (rs & Ers & Hlr & Hrs).
  set (L2 := rescale_around index (#w)%js factor 0 L) in *.
  assert (E20 : 2 ^ 20 * 2 ^ 20 + 2 ^ 20 + 200 < 2 ^ 50) by reflexivity.
  assert (P20 : 0 < 2 ^ 20) by reflexivity.
  assert (B : Zsum_abs rs <= 2 ^ 20 * len rs).
  { apply bounded_entries. intros p r Hp. apply (Hrs p r Hp). }
  assert (Elen : len rs = len L) by (unfold len; rewrite Hlr, Hl; reflexivity).
  rewrite Elen in B.
  assert (Hu : integer_percentages L2 rs) by (split; [exact Ers|nia]).
  assert (Hk : nth_error rs k = Some w).
  { destruct (nth_error rs k) as [r|] eqn:Ek.
    - destruct (Hrs k r Ek) as [_ C]. rewrite C by lia. reflexivity.
    - apply nth_error_None in Ek. lia. }
  pose proof (Zsum_le_abs rs) as Hsr.
  rewrite (integer_total L2 rs Hu).
  rewrite strict_eq_exact by (unfold safe; nia).
  destruct (Z.eqb_spec (Zsum rs) 100) as [E100|N100]; cbn [negb].
  { split; [apply (percentages_nth L2 rs k w Ers Hk)|].
    rewrite (integer_total L2 rs Hu), E100. reflexivity. }
  (* another row exists, and holds at least 1 *)
  assert (Hother : exists p r, nth_error rs p = Some r /\ Z.of_nat p <> index /\ 0 < r).
  { destruct (Nat.eq_dec k 0) as [K0|K0].
    - destruct (nth_error rs 1) as [r|] eqn:E1.
      + exists 1%nat, r. split; [exact E1|]. destruct (Hrs 1%nat r E1). lia.
      + apply nth_error_None in E1.
        assert (length zs = 1%nat) by lia.
        destruct zs as [|z0 [|z1 zs']]; cbn [length] in *; try lia.
        rewrite K0 in Hlt. cbn in Hlt, Hsum. lia.
    - destruct (nth_error rs 0) as [r|] eqn:E0.
      + exists 0%nat, r. split; [exact E0|]. destruct (Hrs 0%nat r E0). lia.
      + apply nth_error_None in E0. lia. }
  destruct Hother as (p & r & Hp & Np & Hr).
  assert (Hsafe : forall z, In z rs -> safe z).
  { apply (integer_percentages_safe L2 rs Hu). }
  rewrite Ers.
  destruct (largest_index_besides_found index rs p r Hsafe Hp Np Hr) as [Hrange Hnot].
  set (j := largest_index_besides index (map JS.of_Z rs)) in *.
  replace (0 <=? j) with true by (symmetry; apply Z.leb_le; lia).
  unfold len in Hrange.
  rewrite nth_addresses by lia.
  destruct (nth_error rs (Z.to_nat j)) as [rj|] eqn:Ej.
  2:{ apply nth_error_None in Ej. lia. }
  rewrite (percentages_nth L2 rs (Z.to_nat j) rj Ers Ej).
  pose proof (In_abs_le rj rs (nth_error_In _ _ Ej)) as Hrj.
  rewrite sub_exact, add_exact by (unfold safe; nia).
  split.
  - rewrite pct_set_other by lia. apply (percentages_nth L2 rs k w Ers Hk).
  - rewrite total_sum, percentages_set, Ers, replace_nth_map.
    pose proof (Zsum_abs_replace rs (Z.to_nat j) (rj + (100 - Zsum rs))) as Hrep.
    rewrite sum_numbers_exact by nia.
    rewrite (Zsum_replace rs (Z.to_nat j) rj _ Ej).
    rewrite strict_eq_exact by (unfold safe; nia). apply Z.eqb_eq. lia.
Qed.

Lemma updateLanguage_keeps_value_and_total_witness :
  let L := [entry "JavaScript" 62 "lang-javascript";
            entry "TypeScript" 23 "lang-typescript";
            entry "CSS" 10 "lang-css"; entry "HTML" 5 "lang-html"] in
  let result := run (fun h a => updateLanguage h a 1 (RawString "500")) L in
  pct result 1%nat = validate (RawString "500")
  /\ (total result === #100)%js = true.
Proof.
  intros L. apply (updateLanguage_keeps_value_and_total L [62; 23; 10; 5] 1).
  - reflexivity.
  - intros z Hin. cbn in Hin. lia.
  - reflexivity.
  - reflexivity.
  - split; [discriminate|reflexivity].
  - reflexivity.
Defined.

End Component_edit.

(* ================================================================= *)
(** * The two ends of the clamp

    What an edit to 500 and an edit to -10 leave in the edited entry.
    The new percentage of every other entry is evaluated for the two
    clamped values, 99 and 1, and every total the others can have. *)

Lemma beside_99_table :
  for_all 1 100 (fun t => for_all 0 t (fun q => beside_99_ok t q)) = true.
Proof. vm_compute. reflexivity. Qed.

Lemma beside_1_table :
  for_all 1 100 (fun t => for_all 0 t (fun q => beside_1_ok t q)) = true.
Proof. vm_compute. reflexivity. Qed.

Lemma beside_99 t q :
  1 <= t <= 100 -> 0 <= q <= t -> share 99 t q = (#1)%js.
Proof.
  intros Ht Hq.
  pose proof (for_all_spec _ _ _ beside_99_table t Ht) as T. cbv beta in T.
  apply same_number_eq. exact (for_all_spec _ _ _ T q Hq).
Qed.

Lemma beside_1 t q :
  1 <= t <= 100 -> 0 <= q <= t ->
  exists r, share 1 t q = (#r)%js /\ 1 <= r <= 2 ^ 20 /\ (t <= 66 * q -> 2 <= r).
Proof.
  intros Ht Hq.
  pose proof (for_all_spec _ _ _ beside_1_table t Ht) as T. cbv beta in T.
  pose proof (for_all_spec _ _ _ T q Hq) as T'. cbv beta in T'.
  unfold beside_1_ok in T'. apply andb_true_iff in T'. destruct T' as [A B].
  unfold integer_between in A.
  apply andb_true_iff in A. destruct A as [A A3].
  apply andb_true_iff in A. destruct A as [A1 A2].
  apply Z.leb_le in A1, A2. apply same_number_eq in A3.
  exists (floor (share 1 t q)). split; [exact A3|]. split; [lia|].
  intros H. apply orb_true_iff in B. destruct B as [B|B].
  - apply Z.ltb_lt in B. lia.
  - apply Z.leb_le in B. exact B.
Qed.

(** The loop of [updateLanguagePercentage], entry by entry. *)
Lemma rescale_others_entries index factor (P : Z -> Z -> Prop) zs :
  forall L i,
  percentages L = map JS.of_Z zs ->
  (forall z, In z (filter_index index i zs) ->
     exists r, Math_max (#1)%js (Math_round (#z * factor)%js) = (#r)%js /\ P z r) ->
  exists rs,
    percentages (rescale_others index factor i L) = map JS.of_Z rs
    /\ Forall2 (fun jz r => if fst jz =? index then r = snd jz else P (snd jz) r)
               (indexed i zs) rs.
Proof.
  induction zs as [|z zs IH]; intros L i E Hz.
  - destruct L; [|discriminate]. exists []. split; constructor.
  - destruct L as [|x L]; [discriminate|]. cbn [percentages map] in E.
    injection E as Ex EL. cbn [filter_index] in Hz.
    unfold rescale_others in *. cbn [indexed map fst snd percentages].
    destruct (i =? index) eqn:Ei.
    + destruct (IH L (i + 1) EL Hz) as (rs & Ers & Hrs).
      exists (z :: rs). split.
      * fold (percentages (map (fun il => if fst il =? index then snd il
           else with_percentage (snd il)
                  (Math_max (#1)%js (Math_round (percentage (snd il) * factor)%js)))
           (indexed (i + 1) L))).
        rewrite Ers, Ex. reflexivity.
      * constructor; [cbn [fst snd]; rewrite Ei; reflexivity|exact Hrs].
    + destruct (IH L (i + 1) EL (fun y Hy => Hz y (in_cons _ _ _ Hy))) as (rs & Ers & Hrs).
      destruct (Hz z (in_eq _ _)) as (r & Er & Pr).
      exists (r :: rs). split.
      * cbn [with_percentage percentage]. rewrite Ex, Er.
        fold (percentages (map (fun il => if fst il =? index then snd il
           else with_percentage (snd il)
                  (Math_max (#1)%js (Math_round (percentage (snd il) * factor)%js)))
           (indexed (i + 1) L))).
        rewrite Ers. reflexivity.
      * constructor; [cbn [fst snd]; rewrite Ei; exact Pr|exact Hrs].
Qed.

Lemma Forall2_indexed {A B : Type} (Q : Z * A -> B -> Prop) (zs : list A) :
  forall i rs, Forall2 Q (indexed i zs) rs ->
  length rs = length zs
  /\ forall j z, nth_error zs j = Some z ->
       exists r, nth_error rs j = Some r /\ Q (i + Z.of_nat j, z) r.
Proof.
  induction zs as [|z zs IH]; intros i rs F; cbn [indexed] in F.
  - inversion F; subst. split; [reflexivity|]. intros [|j] y H; discriminate.
  - inversion F as [|? r ? rs' Hq F']; subst.
    destruct (IH (i + 1) rs' F') as [Hl Hn]. split; [cbn [length]; lia|].
    intros [|j] y H; cbn [nth_error] in *.
    + injection H as <-. exists r. split; [reflexivity|].
      replace (i + Z.of_nat 0) with i by lia. exact Hq.
    + destruct (Hn j y H) as (r' & Hr' & Q').
      exists r'. split; [exact Hr'|].
      replace (i + Z.of_nat (S j)) with (i + 1 + Z.of_nat j) by lia. exact Q'.
Qed.

Lemma pct_set_same (L : list LanguageEntry) k p :
  (k < length L)%nat -> pct (set_percentage L k p) k = p.
Proof.
  unfold pct, deref, set_percentage. revert k.
  induction L as [|x L IH]; intros [|k] H; cbn [length] in H; try lia;
    cbn [update_at nth].
  - reflexivity.
  - apply IH. lia.
Qed.

Lemma nth_error_replace_nth {A : Type} (y : A) (l : list A) : forall k,
  (k < length l)%nat -> nth_error (replace_nth k y l) k = Some y.
Proof.
  unfold replace_nth. induction l as [|x l IH]; intros [|k] H; cbn [length] in H;
    try lia; cbn [update_at nth_error]; [reflexivity|]. apply IH. lia.
Qed.

Lemma nth_error_replace_other {A : Type} (y : A) (l : list A) : forall k j,
  j <> k -> nth_error (replace_nth k y l) j = nth_error l j.
Proof.
  unfold replace_nth. induction l as [|x l IH]; intros [|k] [|j] H;
    cbn [update_at nth_error]; try reflexivity; try congruence.
  apply IH. congruence.
Qed.

(** What an edit that changes the percentage hands to [normalize]: the
    edited entry at the clamped value [w], every other entry at its
    share. *)
Lemma updatePercentage_entries L zs index v (P : Z -> Z -> Prop) :
  percentages L = map JS.of_Z zs ->
  (forall z, In z zs -> 0 <= z) ->
  Zsum zs = 100 ->
  len L < 2 ^ 20 ->
  0 <= index < len L ->
  nth (Z.to_nat index) zs 0 < 100 ->
  validated v <> nth (Z.to_nat index) zs 0 ->
  (forall q, 0 <= q <= 100 - nth (Z.to_nat index) zs 0 ->
     exists r, share (validated v) (100 - nth (Z.to_nat index) zs 0) q = (#r)%js
               /\ 1 <= r <= 2 ^ 20 /\ P q r) ->
  exists X rs,
    updatePercentage L index v = normalize X
    /\ integer_percentages X rs
    /\ length X = length L
    /\ nth_error rs (Z.to_nat index) = Some (validated v)
    /\ forall j z, j <> Z.to_nat index -> nth_error zs j = Some z ->
         exists r, nth_error rs j = Some r /\ 1 <= r /\ P z r.
Proof.
  intros E Hz Hsum Hlen Hi Hlt Hne Hshare.
  pose proof (nonneg_total L zs E Hz ltac:(lia)) as H.
  pose proof (percentages_length L zs E) as Hl.
  destruct (others_total L zs index E Hz Hsum Hi) as (Ep & Et & Hps & Etot & Hnth).
  set (t := Zsum (filter_index index 0 zs)) in *.
  rewrite updatePercentage_unfold.
  replace ((len L =? 0) || (index <? 0) || (len L <=? index)) with false.
  2:{ symmetry. apply orb_false_iff. split; [apply orb_false_iff; split|].
      - apply Z.eqb_neq. lia.
      - apply Z.ltb_ge. lia.
      - apply Z.leb_gt. lia. }
  cbv zeta.
  set (k := Z.to_nat index) in *. unfold len in Hi.
  rewrite validate_exact. pose proof (validated_range v) as Hw.
  set (w := validated v) in *.
  rewrite (pct_integer L zs k E) by lia.
  rewrite sub_exact by (unfold safe; lia).
  rewrite strict_eq_exact by (unfold safe; lia).
  destruct (Z.eqb_spec (w - nth k zs 0) 0) as [|_]; [lia|].
  assert (F : filter_index index 0 (set_percentage L k (#w)%js) = filter_index index 0 L).
  { unfold set_percentage, k. rewrite <- (Z.sub_0_r index) at 2.
    apply filter_index_update_at. lia. }
  rewrite F, Etot.
  rewrite sub_exact by (unfold safe; lia).
  replace (t - (w - nth k zs 0)) with (100 - w) by lia.
  set (factor := (#(100 - w) / #t)%js) in *.
  set (zs1 := replace_nth k w zs).
  assert (E1 : percentages (set_percentage L k (#w)%js) = map JS.of_Z zs1).
  { rewrite percentages_set, E. apply replace_nth_map. }
  assert (F1 : filter_index index 0 zs1 = filter_index index 0 zs).
  { unfold zs1, replace_nth, k. rewrite <- (Z.sub_0_r index) at 2.
    apply filter_index_update_at. lia. }
  destruct (rescale_others_entries index factor
              (fun z r => 1 <= r <= 2 ^ 20 /\ P z r) zs1 _ 0 E1)
    as (rs & Ers & Hrs).
  { rewrite F1. intros z Hin.
    destruct (Hshare z) as (r & Er & Hr).
    - rewrite <- Et. apply Hps, Hin.
    - exists r. split; [|exact Hr]. rewrite <- Et in Er. exact Er. }
  destruct (Forall2_indexed _ zs1 0 rs Hrs) as [Hlr Hn].
  assert (Hl1 : length zs1 = length zs).
  { unfold zs1, replace_nth. apply update_at_length. }
  assert (Hk : nth_error rs k = Some w).
  { destruct (Hn k w) as (r & Hr & Q).
    - unfold zs1. apply nth_error_replace_nth. lia.
    - cbn [fst snd] in Q. replace (0 + Z.of_nat k =? index) with true in Q
        by (symmetry; apply Z.eqb_eq; lia).
      rewrite Hr, Q. reflexivity. }
  assert (Hother : forall j z, j <> k -> nth_error zs j = Some z ->
            exists r, nth_error rs j = Some r /\ (1 <= r <= 2 ^ 20 /\ P z r)).
  { intros j z Hj Hzj. destruct (Hn j z) as (r & Hr & Q).
    - unfold zs1. rewrite nth_error_replace_other by exact Hj. exact Hzj.
    - cbn [fst snd] in Q. replace (0 + Z.of_nat j =? index) with false in Q
        by (symmetry; apply Z.eqb_neq; lia).
      exists r. split; assumption. }
  exists (rescale_others index factor 0 (set_percentage L k (#w)%js)), rs.
  split; [reflexivity|]. split; [|split; [|split]].
  - split; [exact Ers|].
    assert (B : Zsum_abs rs <= 2 ^ 20 * len rs).
    { apply bounded_sum. intros r Hr. apply In_nth_error in Hr. destruct Hr as (j & Hj).
      destruct (Nat.eq_dec j k) as [->|Hjk].
      - rewrite Hk in Hj. injection Hj as <-. lia.
      - assert (Hjl : (j < length zs)%nat).
        { rewrite <- Hl1, <- Hlr. apply nth_error_Some. congruence. }
        destruct (Hother j (nth j zs 0) Hjk (nth_error_nth' _ _ Hjl)) as (r' & Hr' & Q & _).
        rewrite Hj in Hr'. injection Hr' as <-. lia. }
    assert (El : len rs = len L) by (unfold len; lia).
    rewrite El in B.
    assert (2 ^ 20 * 2 ^ 20 < 2 ^ 50) by reflexivity. nia.
  - rewrite rescale_others_length. apply set_percentage_length.
  - exact Hk.
  - intros j z Hj Hzj. destruct (Hother j z Hj Hzj) as (r & Hr & Q & Pr).
    exists r. repeat split; try assumption; lia.
Qed.

Lemma Zsum_ones rs :
  (forall j r, nth_error rs j = Some r -> r = 1) -> Zsum rs = len rs.
Proof.
  unfold len. induction rs as [|r rs IH]; intros H; [reflexivity|].
  cbn [Zsum fold_right length]. fold (Zsum rs).
  rewrite IH by (intros j y Hy; apply (H (S j)); exact Hy).
  rewrite (H O r eq_refl). lia.
Qed.

Lemma Zsum_one_besides rs : forall k a,
  nth_error rs k = Some a ->
  (forall j r, j <> k -> nth_error rs j = Some r -> r = 1) ->
  Zsum rs = a + (len rs - 1).
Proof.
  unfold len. induction rs as [|r rs IH]; intros [|k] a Hk H; try discriminate;
    cbn [nth_error] in Hk; cbn [Zsum fold_right length]; fold (Zsum rs).
  - injection Hk as ->.
    rewrite Zsum_ones by (intros j y Hy; apply (H (S j)); [discriminate|exact Hy]).
    unfold len. lia.
  - rewrite (IH k a Hk) by (intros j y Hj Hy; apply (H (S j)); [congruence|exact Hy]).
    rewrite (H O r ltac:(discriminate) eq_refl). lia.
Qed.

Lemma filter_index_nth {A : Type} index (l : list A) x : forall i,
  In x (filter_index index i l) ->
  exists j, i + Z.of_nat j <> index /\ nth_error l j = Some x.
Proof.
  induction l as [|y l IH]; intros i H; cbn [filter_index] in H; [destruct H|].
  destruct (Z.eqb_spec i index) as [Ei|Ni].
  - destruct (IH (i + 1) H) as (j & Hj & Hx). exists (S j). split; [lia|exact Hx].
  - destruct H as [->|H].
    + exists O. split; [lia|reflexivity].
    + destruct (IH (i + 1) H) as (j & Hj & Hx). exists (S j). split; [lia|exact Hx].
Qed.

Lemma filter_index_shorter {A : Type} index (l : list A) : forall i,
  i <= index < i + len l -> len (filter_index index i l) = len l - 1.
Proof.
  unfold len. induction l as [|y l IH]; intros i H; cbn [length] in H; [lia|].
  cbn [filter_index]. destruct (Z.eqb_spec i index) as [Ei|Ni].
  - rewrite filter_index_past by lia. cbn [length]. lia.
  - cbn [length]. rewrite !Nat2Z.inj_succ, IH by lia. lia.
Qed.

(** Of at most 66 integers that total [t], one is at least a 66th
    of [t]. *)
Lemma large_share l t :
  1 <= t -> Zsum l = t -> len l <= 66 -> exists q, In q l /\ t <= 66 * q.
Proof.
  intros Ht Hs Hl.
  assert (D : (exists q, In q l /\ t <= 66 * q) \/ (forall q, In q l -> 66 * q < t)).
  { clear. induction l as [|x l [(q & Hq & Q)|IH]].
    - right. intros q [].
    - left. exists q. split; [right|]; assumption.
    - destruct (Z.le_gt_cases t (66 * x)) as [Hx|Hx].
      + left. exists x. split; [left; reflexivity|exact Hx].
      + right. intros q [<-|Hq]; [lia|auto]. }
  destruct D as [D|D]; [exact D|exfalso].
  assert (B : 66 * Zsum l <= (t - 1) * len l).
  { clear - D. unfold len. induction l as [|x l IH]; [simpl; lia|].
    cbn [Zsum fold_right length]. fold (Zsum l).
    specialize (IH (fun q Hq => D q (in_cons _ _ _ Hq))).
    specialize (D x (in_eq _ _)). rewrite Nat2Z.inj_succ. lia. }
  assert (0 <= len l) by (unfold len; lia). nia.
Qed.

Section Extremes.

Local Open Scope string_scope.
Local Open Scope Z_scope.

(** C2 (amended): in a list of non-negative integer percentages that
    total 100, of which the others do not all hold 0, an edit of entry
    [index] to 500 is clamped to 99 and an edit to -10 is clamped to 1.
    The edit to 500 returns the list as it is when the entry holds 99;
    otherwise every other entry becomes 1 and the entry ends at
    [101 - n], where [n] is the number of entries: at 99 for two entries,
    at 98 for three.  The edit to -10 returns the list as it is when the
    entry holds 1, and leaves the entry at exactly 1 when it is not the
    first of the list or when the list has at most 67 entries. *)
Theorem updatePercentage_extremes L zs index :
  percentages L = map JS.of_Z zs ->
  (forall z, In z zs -> 0 <= z) ->
  Zsum zs = 100 ->
  len L < 2 ^ 20 ->
  0 <= index < len L ->
  nth (Z.to_nat index) zs 0 < 100 ->
  let k := Z.to_nat index in
  let high := updatePercentage L index (RawNumber 500) in
  let low := updatePercentage L index (RawNumber (-10)) in
  (nth k zs 0 = 99 -> high = L)
  /\ (nth k zs 0 <> 99 ->
      pct high k = (#(101 - len L))%js
      /\ forall j, j <> k -> (j < length L)%nat -> pct high j = (#1)%js)
  /\ (nth k zs 0 = 1 -> low = L)
  /\ (index <> 0 \/ len L <= 67 -> pct low k = (#1)%js).
Proof.
  intros E Hz Hsum Hlen Hi Hlt k high low. pose proof Hlt as Hlt'. fold k in Hlt'.
  pose proof (percentages_length L zs E) as Hl.
  assert (Hk : (k < length zs)%nat) by (unfold len in Hi; unfold k; lia).
  assert (Hp : 0 <= nth k zs 0) by (apply Hz, nth_In, Hk).
  assert (Hsame : forall v, validated v = nth k zs 0 -> updatePercentage L index v = L).
  { intros v Hv. rewrite updatePercentage_unfold.
    destruct (_ || _ || _); [reflexivity|]. cbv zeta. fold k.
    rewrite validate_exact, (pct_integer L zs k E Hk), Hv.
    rewrite sub_exact by (unfold safe; lia).
    rewrite Z.sub_diag. reflexivity. }
  split; [intros H99; apply Hsame; rewrite H99; reflexivity|].
  split; [|split; [intros H1; apply Hsame; rewrite H1; reflexivity|]].
  - intros N99.
    destruct (updatePercentage_entries L zs index (RawNumber 500) (fun _ r => r = 1)
                E Hz Hsum Hlen Hi Hlt)
      as (X & rs & EX & HX & HlX & Hrk & Hrs).
    { change (validated (RawNumber 500)) with 99. fold k. congruence. }
    { change (validated (RawNumber 500)) with 99. fold k. intros q Hq.
      exists 1. split; [apply beside_99; lia|]. split; [|reflexivity].
      assert (2 ^ 20 = 1048576) by reflexivity. lia. }
    change (validated (RawNumber 500)) with 99 in Hrk. fold k in Hrk, Hrs.
    pose proof (percentages_length X rs (proj1 HX)) as HlR.
    assert (Hone : forall j r, j <> k -> nth_error rs j = Some r -> r = 1).
    { intros j r Hj Hr.
      assert (Hjl : (j < length zs)%nat).
      { rewrite Hl, <- HlX, <- HlR. apply nth_error_Some. congruence. }
      destruct (Hrs j (nth j zs 0) Hj (nth_error_nth' _ _ Hjl)) as (r' & Hr' & _ & ->).
      congruence. }
    assert (Hs : Zsum rs = 98 + len L).
    { rewrite (Zsum_one_besides rs k 99 Hrk Hone). unfold len. lia. }
    assert (Hj1 : forall j, j <> k -> (j < length L)%nat -> pct X j = (#1)%js).
    { intros j Hj Hjl. apply (percentages_nth X rs j 1 (proj1 HX)).
      destruct (nth_error rs j) as [r|] eqn:Er.
      - rewrite (Hone j r Hj Er). reflexivity.
      - apply nth_error_None in Er. lia. }
    unfold high. rewrite EX.
    destruct (normalize_integer X rs HX)
      as [[E100 EN]|[(_ & Hall & _)|(N100 & k' & z' & Hk' & Hz' & Hmax & _ & EN & _)]].
    + rewrite EN. split.
      * rewrite (percentages_nth X rs k 99 (proj1 HX) Hrk). f_equal. lia.
      * exact Hj1.
    + specialize (Hall 99 (nth_error_In _ _ Hrk)). lia.
    + assert (k' = k).
      { destruct (Nat.eq_dec k' k) as [|Nk]; [assumption|exfalso].
        rewrite (Hone k' z' Nk Hk') in *.
        specialize (Hmax 99 (nth_error_In _ _ Hrk)). lia. }
      subst k'. rewrite Hrk in Hk'. injection Hk' as <-.
      rewrite EN. split.
      * rewrite pct_set_same by lia. f_equal. lia.
      * intros j Hj Hjl. rewrite pct_set_other by congruence. apply Hj1; assumption.
  - intros Hcase.
    destruct (Z.eq_dec (nth k zs 0) 1) as [P1|N1].
    { unfold low. rewrite Hsame by (rewrite P1; reflexivity).
      rewrite (pct_integer L zs k E Hk), P1. reflexivity. }
    set (t := 100 - nth k zs 0).
    destruct (updatePercentage_entries L zs index (RawNumber (-10))
                (fun q r => t <= 66 * q -> 2 <= r)
                E Hz Hsum Hlen Hi Hlt)
      as (X & rs & EX & HX & HlX & Hrk & Hrs).
    { change (validated (RawNumber (-10))) with 1. fold k. congruence. }
    { change (validated (RawNumber (-10))) with 1. fold k. fold t. intros q Hq.
      apply beside_1; unfold t; lia. }
    change (validated (RawNumber (-10))) with 1 in Hrk. fold k in Hrk, Hrs.
    assert (Hk1 : pct X k = (#1)%js) by (apply (percentages_nth X rs k 1 (proj1 HX) Hrk)).
    unfold low. rewrite EX.
    destruct (normalize_integer X rs HX)
      as [[_ EN]|[(_ & _ & EN)|(_ & k' & z' & Hk' & Hz' & Hmax & Hfirst & EN & _)]];
      rewrite EN; try exact Hk1.
    rewrite pct_set_other; [exact Hk1|].
    intros ->. rewrite Hrk in Hk'. injection Hk' as <-.
    destruct Hcase as [Hidx|Hshort].
    + assert (H0 : (0 < length zs)%nat) by lia.
      destruct (Hrs O (nth O zs 0)) as (r & Hr & Hr1 & _).
      * unfold k. lia.
      * apply nth_error_nth'. exact H0.
      * assert (r < 1); [|lia]. apply (Hfirst O r); [unfold k; lia|exact Hr].
    + destruct (others_total L zs index E Hz Hsum Hi) as (_ & Et & _ & _ & _).
      fold k in Et.
      destruct (large_share (filter_index index 0 zs) t) as (q & Hq & Hqt).
      * unfold t. lia.
      * exact Et.
      * rewrite filter_index_shorter by (unfold len in *; lia). unfold len in *. lia.
      * destruct (filter_index_nth index zs q 0 Hq) as (j & Hj & Hzj).
        destruct (Hrs j q) as (r & Hr & _ & Hr2); [unfold k; lia|exact Hzj|].
        specialize (Hmax r (nth_error_In _ _ Hr)). specialize (Hr2 Hqt). lia.
Qed.

Lemma updatePercentage_extremes_witness :
  let L := [entry "A" 50 "a"; entry "B" 30 "b"; entry "C" 20 "c"] in
  pct (updatePercentage L 0 (RawNumber 500)) O = (#98)%js
  /\ pct (updatePercentage L 0 (RawNumber (-10))) O = (#1)%js.
Proof.
  intros L.
  assert (H1 : percentages L = map JS.of_Z [50; 30; 20]) by reflexivity.
  assert (H2 : forall z, In z [50; 30; 20] -> 0 <= z) by (intros z Hin; cbn in Hin; lia).
  assert (H3 : Zsum [50; 30; 20] = 100) by reflexivity.
  assert (H4 : len L < 2 ^ 20) by reflexivity.
  assert (H5 : 0 <= 0 < len L) by (split; [discriminate|reflexivity]).
  assert (H6 : nth (Z.to_nat 0) [50; 30; 20] 0 < 100) by reflexivity.
  destruct (updatePercentage_extremes L [50; 30; 20] 0 H1 H2 H3 H4 H5 H6)
    as (_ & Hhigh & _ & Hlow).
  split.
  - apply Hhigh. discriminate.
  - apply Hlow. right. discriminate.
Defined.

(** The bound of 67 entries cannot be raised: with 68 entries, of which
    the others hold 1 each, the edit of the first to -10 is undone. *)
Lemma floor_lost_with_68_entries :
  let L := entry "A" 33 "a" :: repeat (entry "x" 1 "c") 67 in
  (total L === #100)%js = true
  /\ updatePercentage L 0 (RawNumber (-10)) = L.
Proof. vm_compute. split; reflexivity. Qed.

End Extremes.

(* ================================================================= *)
(** * Repository URLs *)

Section Repository_urls.

Local Open Scope string_scope.
Local Open Scope Z_scope.

(* ----------------------------------------------------------------- *)
(** ** Splitting *)

Lemma has_cons c b s : has c (String b s) = Ascii.eqb c b || has c s.
Proof.
  unfold has. cbn [includes]. unfold startsWith at 1. cbn [strip_prefix].
  destruct (Ascii.eqb c b); reflexivity.
Qed.

Lemma has_empty c : has c "" = false.
Proof. reflexivity. Qed.

Lemma has_app c a b : has c (a ++ b) = has c a || has c b.
Proof.
  induction a as [|x a IH]; cbn [append].
  - reflexivity.
  - rewrite !has_cons, IH. apply orb_assoc.
Qed.

Lemma split_not_nil sep s : split sep s <> [].
Proof.
  destruct s as [|c s]; cbn [split]; [discriminate|].
  destruct (Ascii.eqb c sep); [discriminate|].
  destruct (split sep s); discriminate.
Qed.

Lemma split_cons sep c s :
  split sep (String c s)
  = if Ascii.eqb c sep then "" :: split sep s
    else String c (part 0 (split sep s)) :: tl (split sep s).
Proof.
  cbn [split]. destruct (Ascii.eqb c sep); [reflexivity|].
  destruct (split sep s) eqn:E; [destruct (split_not_nil _ _ E)|reflexivity].
Qed.

Lemma split_shape sep s : split sep s = part 0 (split sep s) :: tl (split sep s).
Proof.
  destruct (split sep s) eqn:E; [destruct (split_not_nil _ _ E)|reflexivity].
Qed.

(** No piece of a split holds the separator. *)
Lemma split_pieces_no_sep sep s w : In w (split sep s) -> has sep w = false.
Proof.
  revert w. induction s as [|c s IH]; intros w.
  - cbn. intros [<-|[]]. reflexivity.
  - rewrite split_cons. destruct (Ascii.eqb c sep) eqn:E.
    + intros [<-|H]; [reflexivity|auto].
    + intros [<-|H].
      * rewrite has_cons, Ascii.eqb_sym, E. apply IH.
        rewrite split_shape. left. reflexivity.
      * apply IH. rewrite split_shape. right. exact H.
Qed.

(** A piece of a split holds only characters of the string. *)
Lemma split_pieces_chars sep c s w :
  In w (split sep s) -> has c s = false -> has c w = false.
Proof.
  revert w. induction s as [|x s IH]; intros w.
  - cbn. intros [<-|[]] _. reflexivity.
  - rewrite split_cons, has_cons. intros H Hc.
    apply orb_false_iff in Hc. destruct Hc as [Hx Hs].
    destruct (Ascii.eqb x sep).
    + destruct H as [<-|H]; [reflexivity|auto].
    + destruct H as [<-|H].
      * rewrite has_cons, Hx. apply IH; [|exact Hs].
        rewrite split_shape. left. reflexivity.
      * apply IH; [|exact Hs]. rewrite split_shape. right. exact H.
Qed.

Lemma part_in i (l : list string) : (i < length l)%nat -> In (part i l) l.
Proof. intros H. apply nth_In. exact H. Qed.

Lemma part_0_in sep s : In (part 0 (split sep s)) (split sep s).
Proof. rewrite split_shape at 2. left. reflexivity. Qed.

(** The split of [a ++ b] when [a] is free of the separator. *)
Lemma split_app sep a b :
  has sep a = false ->
  split sep (a ++ b) = (a ++ part 0 (split sep b)) :: tl (split sep b).
Proof.
  induction a as [|x a IH]; cbn [append]; intros H.
  - apply split_shape.
  - rewrite has_cons in H. apply orb_false_iff in H. destruct H as [Hx Ha].
    rewrite split_cons, Ascii.eqb_sym, Hx, (IH Ha). reflexivity.
Qed.

Lemma append_nil_r s : s ++ "" = s.
Proof. induction s as [|c s IH]; cbn; [|rewrite IH]; reflexivity. Qed.

Lemma split_free sep a : has sep a = false -> split sep a = [a].
Proof.
  intros H. pose proof (split_app sep a "" H) as E.
  rewrite append_nil_r in E.
  rewrite E. cbn. rewrite append_nil_r. reflexivity.
Qed.

Lemma split_at_sep sep a b :
  has sep a = false ->
  split sep (a ++ String sep b) = a :: split sep b.
Proof.
  intros H. rewrite (split_app _ _ _ H), split_cons, Ascii.eqb_refl.
  cbn. rewrite append_nil_r. reflexivity.
Qed.

Lemma truthy_app_l a b : truthy a = true -> truthy (a ++ b) = true.
Proof. destruct a; [discriminate|reflexivity]. Qed.

Lemma is_name_spec s :
  is_name s = true ->
  truthy s = true /\ has "/" s = false /\ has "#" s = false /\ has "?" s = false.
Proof.
  unfold is_name. intros H.
  apply andb_true_iff in H. destruct H as [H H4].
  apply andb_true_iff in H. destruct H as [H H3].
  apply andb_true_iff in H. destruct H as [H1 H2].
  apply negb_true_iff in H2, H3, H4. auto.
Qed.

(** The repository name is cut out of its path segment. *)
Lemma without_fragment_and_query_name r t :
  has "#" r = false -> has "?" r = false ->
  t = "" \/ (exists t', t = String "#" t') \/ (exists t', t = String "?" t') ->
  without_fragment_and_query (r ++ t) = r.
Proof.
  intros Hh Hq [->|[[t' ->]|[t' ->]]]; unfold without_fragment_and_query.
  - rewrite append_nil_r, (split_free _ _ Hh). cbn [part nth].
    rewrite (split_free _ _ Hq). reflexivity.
  - rewrite (split_at_sep _ _ _ Hh). cbn [part nth].
    rewrite (split_free _ _ Hq). reflexivity.
  - rewrite (split_app _ _ _ Hh). cbn [part nth].
    rewrite split_cons. cbn [Ascii.eqb Bool.eqb].
    change (part 0 (?x :: ?l)) with x.
    rewrite (split_at_sep "?" r _ Hq). reflexivity.
Qed.

(** The segment that follows the user name. *)
Lemma name_segment r rest :
  has "/" r = false -> ends_name rest = true ->
  exists t,
    part 0 (split "/" (r ++ rest)) = r ++ t
    /\ (t = "" \/ (exists t', t = String "#" t') \/ (exists t', t = String "?" t')).
Proof.
  intros Hr He. rewrite (split_app _ _ _ Hr). cbn [part nth].
  exists (part 0 (split "/" rest)). split; [reflexivity|].
  destruct rest as [|c rest]; [left; reflexivity|].
  cbn [ends_name] in He. rewrite split_cons.
  destruct (Ascii.eqb c "/") eqn:E1; [left; reflexivity|].
  destruct (Ascii.eqb c "#") eqn:E2.
  - apply Ascii.eqb_eq in E2. subst c. right. left. eexists. reflexivity.
  - destruct (Ascii.eqb c "?") eqn:E3; [|discriminate].
    apply Ascii.eqb_eq in E3. subst c. right. right. eexists. reflexivity.
Qed.

(** The path [user/repo...] yields the two names. *)
Lemma path_names u r rest :
  is_name u = true -> is_name r = true -> ends_name rest = true ->
  let parts := split "/" (u ++ "/" ++ r ++ rest) in
  (2 <=? length parts)%nat = true
  /\ part 0 parts = u
  /\ without_fragment_and_query (part 1 parts) = r.
Proof.
  intros Hu Hr He parts.
  apply is_name_spec in Hu. destruct Hu as (Hu1 & Hu2 & _).
  apply is_name_spec in Hr. destruct Hr as (Hr1 & Hr2 & Hr3 & Hr4).
  assert (E : parts = u :: split "/" (r ++ rest)).
  { unfold parts. change ("/" ++ r ++ rest) with (String "/" (r ++ rest)).
    apply split_at_sep. exact Hu2. }
  rewrite E. split; [rewrite (split_shape "/" (r ++ rest)); reflexivity|].
  split; [reflexivity|].
  change (part 1 (u :: ?l)) with (part 0 l).
  destruct (name_segment r rest Hr2 He) as (t & Et & Ht).
  rewrite Et.
  apply without_fragment_and_query_name; assumption.
Qed.

(** What a parser returns from the segments of a path. *)
Lemma names_of_parts (parts : list string) i u r :
  (S i < length parts)%nat ->
  (forall w, In w parts -> has "/" w = false) ->
  part i parts = u ->
  without_fragment_and_query (part (S i) parts) = r ->
  truthy u && truthy r = true ->
  is_name r = true /\ truthy u = true /\ has "/" u = false.
Proof.
  intros Hi Hp Eu Er Ht.
  apply andb_true_iff in Ht. destruct Ht as [Tu Tr].
  assert (Hu : has "/" u = false).
  { rewrite <- Eu. apply Hp, part_in. lia. }
  assert (Hw : has "/" (part (S i) parts) = false).
  { apply Hp, part_in. lia. }
  unfold without_fragment_and_query in Er.
  set (w := part (S i) parts) in *.
  set (w1 := part 0 (split "#" w)) in *.
  assert (H1 : has "/" w1 = false).
  { apply (split_pieces_chars "#" "/" w); [apply part_0_in|exact Hw]. }
  assert (H2 : has "#" w1 = false).
  { apply (split_pieces_no_sep "#" w). apply part_0_in. }
  assert (R1 : has "/" r = false).
  { rewrite <- Er. apply (split_pieces_chars "?" "/" w1); [apply part_0_in|exact H1]. }
  assert (R2 : has "#" r = false).
  { rewrite <- Er. apply (split_pieces_chars "?" "#" w1); [apply part_0_in|exact H2]. }
  assert (R3 : has "?" r = false).
  { rewrite <- Er. apply (split_pieces_no_sep "?" w1). apply part_0_in. }
  unfold is_name. rewrite Tr, R1, R2, R3. auto.
Qed.

Lemma parseGitHubUrl_names url u r :
  parseGitHubUrl url = Some (u, r) ->
  is_name r = true /\ truthy u = true /\ has "/" u = false.
Proof.
  unfold parseGitHubUrl.
  destruct (negb (truthy url) || negb (includes url "github.com")); [discriminate|].
  set (parts := split "/" (remove_match github_prefix url)).
  destruct (2 <=? length parts)%nat eqn:L; [|discriminate].
  destruct (truthy (part 0 parts) && truthy (without_fragment_and_query (part 1 parts)))
    eqn:T; [|discriminate].
  intros E. injection E as Eu Er.
  apply Nat.leb_le in L.
  apply (names_of_parts parts 0 u r); try assumption; try lia.
  - intros w. apply split_pieces_no_sep.
  - rewrite Eu, Er in T. exact T.
Qed.

Lemma extractRepoInfoFromUrl_names url u r :
  extractRepoInfoFromUrl url = Some (u, r) ->
  is_name r = true /\ truthy u = true /\ has "/" u = false.
Proof.
  unfold extractRepoInfoFromUrl.
  destruct (negb (truthy url) || negb (includes url "github.com")); [discriminate|].
  set (parts := split "/" url).
  destruct (5 <=? length parts)%nat eqn:L; [|discriminate].
  destruct (truthy (part 3 parts) && truthy (without_fragment_and_query (part 4 parts)))
    eqn:T; [|discriminate].
  intros E. injection E as Eu Er.
  apply Nat.leb_le in L.
  apply (names_of_parts parts 3 u r); try assumption; try lia.
  - intros w. apply split_pieces_no_sep.
  - rewrite Eu, Er in T. exact T.
Qed.

Lemma parse_prefix prefix path :
  In prefix (full_prefixes ++ bare_prefixes) ->
  truthy (prefix ++ path) = true
  /\ includes (prefix ++ path) "github.com" = true
  /\ remove_match github_prefix (prefix ++ path) = path.
Proof.
  intros H. cbn in H.
  repeat (destruct H as [<-|H]; [repeat split; reflexivity|]).
  destruct H.
Qed.

Lemma truthy_true s : truthy s = true -> s <> "".
Proof. destruct s; [discriminate|intros _; discriminate]. Qed.

Lemma full_prefix_split prefix path :
  In prefix full_prefixes ->
  exists a b c, split "/" (prefix ++ path) = a :: b :: c :: split "/" path.
Proof.
  intros H. cbn in H. destruct H as [<-|[<-|[<-|[<-|[]]]]].
  - exists "https:", "", "www.github.com".
    change ("https://www.github.com/" ++ path)
      with ("https:" ++ String "/" ("" ++ String "/" ("www.github.com" ++ String "/" path))).
    rewrite !split_at_sep by reflexivity. reflexivity.
  - exists "https:", "", "github.com".
    change ("https://github.com/" ++ path)
      with ("https:" ++ String "/" ("" ++ String "/" ("github.com" ++ String "/" path))).
    rewrite !split_at_sep by reflexivity. reflexivity.
  - exists "http:", "", "www.github.com".
    change ("http://www.github.com/" ++ path)
      with ("http:" ++ String "/" ("" ++ String "/" ("www.github.com" ++ String "/" path))).
    rewrite !split_at_sep by reflexivity. reflexivity.
  - exists "http:", "", "github.com".
    change ("http://github.com/" ++ path)
      with ("http:" ++ String "/" ("" ++ String "/" ("github.com" ++ String "/" path))).
    rewrite !split_at_sep by reflexivity. reflexivity.
Qed.

(* ----------------------------------------------------------------- *)
(** ** The two parsers, and the avatar address *)

(** X14: whatever [parseGitHubUrl] returns is a usable pair of names:
    neither the user name nor the repository name is empty or contains a
    slash, and the repository name carries no fragment and no query. *)
Theorem parseGitHubUrl_sound url username repoName :
  parseGitHubUrl url = Some (username, repoName) ->
  username <> "" /\ repoName <> ""
  /\ includes username "/" = false /\ includes repoName "/" = false
  /\ includes repoName "#" = false /\ includes repoName "?" = false.
Proof.
  intros H. apply parseGitHubUrl_names in H. destruct H as (Hr & Tu & Hu).
  apply is_name_spec in Hr. destruct Hr as (Tr & R1 & R2 & R3).
  repeat split; try assumption; apply truthy_true; assumption.
Qed.

Lemma parseGitHubUrl_sound_witness :
  let url := "https://github.com/facebook/react" in
  parseGitHubUrl url = Some ("facebook", "react")
  /\ includes "react" "/" = false.
Proof.
  split; [reflexivity|].
  apply (parseGitHubUrl_sound "https://github.com/facebook/react" "facebook" "react").
  reflexivity.
Defined.

(** X15: whatever [extractRepoInfoFromUrl] returns is a usable pair of
    names as well: both are non-empty and free of slashes, and the
    repository name carries no fragment and no query. *)
Theorem extractRepoInfoFromUrl_sound url username repo :
  extractRepoInfoFromUrl url = Some (username, repo) ->
  username <> "" /\ repo <> ""
  /\ includes username "/" = false /\ includes repo "/" = false
  /\ includes repo "#" = false /\ includes repo "?" = false.
Proof.
  intros H. apply extractRepoInfoFromUrl_names in H. destruct H as (Hr & Tu & Hu).
  apply is_name_spec in Hr. destruct Hr as (Tr & R1 & R2 & R3).
  repeat split; try assumption; apply truthy_true; assumption.
Qed.

Lemma extractRepoInfoFromUrl_sound_witness :
  let url := "https://github.com/facebook/react#readme" in
  extractRepoInfoFromUrl url = Some ("facebook", "react")
  /\ includes "react" "#" = false.
Proof.
  split; [reflexivity|].
  apply (extractRepoInfoFromUrl_sound
           "https://github.com/facebook/react#readme" "facebook" "react").
  reflexivity.
Defined.

(** X16: [parseGitHubUrl] reads a repository URL back: with or without
    the protocol and [www.], and whatever path, query or fragment follows
    the repository name, it returns the user and the repository. *)
Theorem parseGitHubUrl_round_trip prefix username repoName rest :
  In prefix (full_prefixes ++ bare_prefixes) ->
  is_name username = true -> is_name repoName = true ->
  ends_name rest = true ->
  parseGitHubUrl (prefix ++ username ++ "/" ++ repoName ++ rest)
  = Some (username, repoName).
Proof.
  intros Hp Hu Hr He.
  destruct (parse_prefix prefix (username ++ "/" ++ repoName ++ rest) Hp)
    as (T & I & R).
  destruct (path_names username repoName rest Hu Hr He) as (L & P0 & P1).
  unfold parseGitHubUrl. rewrite T, I, R. cbn [negb orb].
  rewrite L, P0, P1.
  apply is_name_spec in Hu. destruct Hu as (-> & _).
  apply is_name_spec in Hr. destruct Hr as (-> & _).
  reflexivity.
Qed.

Lemma parseGitHubUrl_round_trip_witness :
  parseGitHubUrl ("www.github.com/" ++ "torvalds" ++ "/" ++ "linux" ++ "/tree/master?tab=readme")
  = Some ("torvalds", "linux").
Proof.
  apply (parseGitHubUrl_round_trip "www.github.com/" "torvalds" "linux"
           "/tree/master?tab=readme").
  - cbn. auto 6.
  - reflexivity.
  - reflexivity.
  - reflexivity.
Defined.

(** X17: on a URL that spells out the protocol the two parsers return the
    same thing, whatever follows the host. *)
Theorem parsers_agree prefix path :
  In prefix full_prefixes ->
  extractRepoInfoFromUrl (prefix ++ path) = parseGitHubUrl (prefix ++ path).
Proof.
  intros Hp.
  assert (Hp' : In prefix (full_prefixes ++ bare_prefixes)).
  { apply in_or_app. left. exact Hp. }
  destruct (parse_prefix prefix path Hp') as (T & I & R).
  destruct (full_prefix_split prefix path Hp) as (a & b & c & E).
  unfold extractRepoInfoFromUrl, parseGitHubUrl.
  rewrite T, I, R, E. cbn [negb orb].
  reflexivity.
Qed.

Lemma parsers_agree_witness :
  extractRepoInfoFromUrl ("http://github.com/" ++ "rust-lang/rust/issues/1")
  = parseGitHubUrl ("http://github.com/" ++ "rust-lang/rust/issues/1").
Proof.
  apply (parsers_agree "http://github.com/" "rust-lang/rust/issues/1").
  cbn. auto.
Defined.

(** X18: without the protocol they differ: [parseGitHubUrl] accepts
    [github.com/user/repo], [extractRepoInfoFromUrl] returns [null]. *)
Theorem extractRepoInfoFromUrl_needs_protocol prefix username repo :
  In prefix bare_prefixes ->
  is_name username = true -> is_name repo = true ->
  extractRepoInfoFromUrl (prefix ++ username ++ "/" ++ repo) = None
  /\ parseGitHubUrl (prefix ++ username ++ "/" ++ repo) = Some (username, repo).
Proof.
  intros Hp Hu Hr. split.
  - apply is_name_spec in Hu. destruct Hu as (_ & Hu & _).
    apply is_name_spec in Hr. destruct Hr as (_ & Hr & _).
    assert (E : split "/" (prefix ++ username ++ "/" ++ repo)
                = [part 0 (split "/" prefix); username; repo]).
    { cbn in Hp. destruct Hp as [<-|[<-|[]]].
      - change ("www.github.com/" ++ ?x) with ("www.github.com" ++ String "/" x).
        rewrite split_at_sep by reflexivity.
        change ("/" ++ repo) with (String "/" repo).
        rewrite (split_at_sep _ _ _ Hu), (split_free _ _ Hr). reflexivity.
      - change ("github.com/" ++ ?x) with ("github.com" ++ String "/" x).
        rewrite split_at_sep by reflexivity.
        change ("/" ++ repo) with (String "/" repo).
        rewrite (split_at_sep _ _ _ Hu), (split_free _ _ Hr). reflexivity. }
    unfold extractRepoInfoFromUrl. rewrite E.
    destruct (negb _ || negb _); reflexivity.
  - pose proof (parse_prefix prefix (username ++ "/" ++ repo)
                  (in_or_app _ _ _ (or_intror Hp))) as (T & I & R).
    destruct (path_names username repo "" Hu Hr eq_refl) as (L & P0 & P1).
    rewrite append_nil_r in L, P0, P1.
    unfold parseGitHubUrl. rewrite T, I, R. cbn [negb orb].
    rewrite L, P0, P1.
    apply is_name_spec in Hu. destruct Hu as (-> & _).
    apply is_name_spec in Hr. destruct Hr as (-> & _).
    reflexivity.
Qed.

Lemma extractRepoInfoFromUrl_needs_protocol_witness :
  extractRepoInfoFromUrl ("github.com/" ++ "vuejs" ++ "/" ++ "core") = None
  /\ parseGitHubUrl ("github.com/" ++ "vuejs" ++ "/" ++ "core") = Some ("vuejs", "core").
Proof.
  apply (extractRepoInfoFromUrl_needs_protocol "github.com/" "vuejs" "core").
  - cbn. auto.
  - reflexivity.
  - reflexivity.
Defined.

(** X19: a URL that names a user but no repository is refused, with or
    without a closing slash. *)
Theorem parseGitHubUrl_refuses_profile prefix username :
  In prefix (full_prefixes ++ bare_prefixes) ->
  includes username "/" = false ->
  parseGitHubUrl (prefix ++ username) = None
  /\ parseGitHubUrl (prefix ++ username ++ "/") = None.
Proof.
  intros Hp Hu. split.
  - destruct (parse_prefix prefix username Hp) as (T & I & R).
    unfold parseGitHubUrl. rewrite T, I, R. cbn [negb orb].
    rewrite (split_free "/" username Hu). reflexivity.
  - destruct (parse_prefix prefix (username ++ "/") Hp) as (T & I & R).
    unfold parseGitHubUrl. rewrite T, I, R. cbn [negb orb].
    change (username ++ "/") with (username ++ String "/" "").
    rewrite (split_at_sep "/" username "" Hu). cbn.
    rewrite andb_false_r. reflexivity.
Qed.

Lemma parseGitHubUrl_refuses_profile_witness :
  parseGitHubUrl ("https://github.com/" ++ "octocat") = None
  /\ parseGitHubUrl ("https://github.com/" ++ "octocat" ++ "/") = None.
Proof.
  apply (parseGitHubUrl_refuses_profile "https://github.com/" "octocat").
  - cbn. auto.
  - reflexivity.
Defined.

(** X20: what [handleGitHubUrlSubmit] hands to the component's
    [fetchRepositoryData] is always taken apart again into the same user
    and repository: a URL that [parseGitHubUrl] accepts never runs into
    the format error. *)
Theorem parsed_url_is_fetched url info :
  parseGitHubUrl url = Some info ->
  repository_of_full_name (full_name info) = Some info.
Proof.
  destruct info as [u r]. intros H.
  apply parseGitHubUrl_names in H. destruct H as (Hr & Tu & Hu).
  apply is_name_spec in Hr. destruct Hr as (Tr & R1 & _).
  unfold repository_of_full_name, full_name. cbn [fst snd].
  assert (I : includes (u ++ "/" ++ r) "/" = true).
  { change (has "/" (u ++ String "/" r) = true).
    rewrite has_app, has_cons. cbn. apply orb_true_r. }
  rewrite I. change ("/" ++ r) with (String "/" r).
  rewrite (split_at_sep _ _ _ Hu), (split_free _ _ R1).
  cbn [part nth]. rewrite Tu, Tr. reflexivity.
Qed.

Lemma parsed_url_is_fetched_witness :
  repository_of_full_name "github/explorer" = Some ("github", "explorer").
Proof.
  apply (parsed_url_is_fetched "https://github.com/github/explorer"
           ("github", "explorer")).
  reflexivity.
Defined.

Lemma avatar_cases url :
  validateAndProcessAvatarUrl url = ""
  \/ (validateAndProcessAvatarUrl url = url
      /\ (startsWith url "http://" = true \/ startsWith url "https://" = true))
  \/ exists rest, validateAndProcessAvatarUrl url = "https://" ++ rest.
Proof.
  unfold validateAndProcessAvatarUrl.
  destruct (truthy url); [|left; reflexivity]. cbn [negb].
  destruct (startsWith url "http://") eqn:H1; [right; left; split; auto|].
  destruct (startsWith url "https://") eqn:H2; [right; left; split; auto|].
  cbn [orb]. right. right. destruct (_ && _); eexists; reflexivity.
Qed.

Lemma absolute_fixed rest :
  validateAndProcessAvatarUrl ("https://" ++ rest) = "https://" ++ rest.
Proof. reflexivity. Qed.

(** X21: the avatar address the component renders is empty or absolute
    ([http://] or [https://]), and processing it again changes nothing. *)
Theorem validateAndProcessAvatarUrl_absolute url :
  let processed := validateAndProcessAvatarUrl url in
  (processed = ""
   \/ startsWith processed "http://" = true
   \/ startsWith processed "https://" = true)
  /\ validateAndProcessAvatarUrl processed = processed.
Proof.
  cbv zeta. destruct (avatar_cases url) as [E|[[E H]|[rest E]]]; rewrite E.
  - split; [left; reflexivity|reflexivity].
  - split; [right; exact H|exact E].
  - split; [right; right; reflexivity|apply absolute_fixed].
Qed.

End Repository_urls.
